(** * Ordered Forest: honest weights, class probabilities and variances

    A shallow embedding of the numerical core of [orf/old/orf.py]
    (classes [BaseOrderedForest] and [OrderedForest]).  NumPy arrays of
    floats are modelled over exact rationals [Q]; a 2-d array is the list of
    its rows.  Python dictionaries keyed by the class index are [gmap]s.

    Conventions.  A function that can raise on the way ([KeyError],
    [IndexError], [ZeroDivisionError], a shape mismatch in a product)
    returns an [option]; the functions with checks of their own return an
    [outcome] that names the exception.  Element-wise operations are
    written for arrays of one shape, which is what their callers pass, and
    the theorems carry the shapes as hypotheses.  NumPy's division of an
    array by zero gives [nan] or [inf] without raising, [Qdiv] gives 0: the
    theorems about a quotient prove its divisor different from zero. *)

From Stdlib Require Import QArith Qabs Qminmax Qround Lqa Lia ZArith.
From stdpp Require Import base option list strings gmap sorting.

Abbreviation vector := (list Q).
Abbreviation matrix := (list (list Q)).

(** ** The NumPy operations the code uses *)

Module Np.

(** [np.sum] of a 1-d array. *)
Definition sum (v : vector) : Q := foldr Qplus 0%Q v.
Global Arguments sum : simpl never.

(** [M.sum(axis=1)]: one sum per row. *)
Definition sum_axis1 (M : matrix) : vector := sum <$> M.

(** [np.hstack((np.zeros((n, 1)), M))]. *)
Definition hstack_zeros (M : matrix) : matrix := (λ row, 0%Q :: row) <$> M.

(** [np.hstack((M, np.ones((n, 1))))]. *)
Definition hstack_ones (M : matrix) : matrix := (λ row, row ++ [1%Q]) <$> M.

(** Element-wise [A - B] of two arrays of one shape. *)
Definition sub (A B : matrix) : matrix := zip_with (zip_with Qminus) A B.

(** [x < 0] on floats. *)
Definition ltb0 (x : Q) : bool := negb (Qle_bool 0 x).

(** [M[M < 0] = 0], on one entry and on the array. *)
Definition clip (x : Q) : Q := if ltb0 x then 0%Q else x.

Definition clip_negative (M : matrix) : matrix :=
  fmap (M := list) clip <$> M.

(** [M / d.reshape(-1, 1)]: row [i] of [M] divided by [d[i]]. *)
Definition div_rows (M : matrix) (d : vector) : matrix :=
  zip_with (λ row di, (λ x, x / di)%Q <$> row) M d.

(** [np.unique] of an integer array: its distinct values, ascending. *)
Definition unique (l : list Z) : list Z := merge_sort Z.le (remove_dups l).

(** [np.setdiff1d(a, b)]: the distinct values of [a] that are not in [b],
    ascending. *)
Definition setdiff1d (a b : list Z) : list Z :=
  unique (filter (λ x, x ∉ b) a).

(** [np.array_equal] of two 1-d integer arrays. *)
Definition array_equal (a b : list Z) : bool := bool_decide (a = b).

(** [M[:, j]]; an index out of range raises ([None]). *)
Definition column {A : Type} (j : nat) (M : list (list A)) : option (list A) :=
  mapM (λ row, row !! j) M.

(** Entry [v[i]] and column [j] of an array of floats whose shape is known
    to contain the index. *)
Definition get (v : vector) (i : nat) : Q := default 0%Q (v !! i).
Definition col (j : nat) (M : matrix) : vector := (λ row, get row j) <$> M.

(** [M.shape[1]] of an array with at least one row. *)
Definition width (M : matrix) : nat :=
  match M with [] => 0 | row :: _ => length row end.

(** [M.T]. *)
Definition transpose (M : matrix) : matrix :=
  (λ j, col j M) <$> seq 0 (width M).

Definition inner (u v : vector) : Q := sum (zip_with Qmult u v).

(** [A.dot(B)]; raises ([None]) unless every row of [A] has as many
    entries as [B] has rows. *)
Definition dot (A B : matrix) : option matrix :=
  if forallb (λ row, length row =? length B) A
  then Some ((λ row, (λ j, inner row (col j B)) <$> seq 0 (width B)) <$> A)
  else None.

(** Element-wise [A + B] of two arrays of one shape. *)
Definition add (A B : matrix) : matrix := zip_with (zip_with Qplus) A B.

(** [np.zeros((n, m))]. *)
Definition zeros (n m : nat) : matrix := replicate n (replicate m 0%Q).

(** [M / c] for a scalar [c]. *)
Definition div_scalar (M : matrix) (c : Q) : matrix :=
  fmap (M := list) (λ x, x / c)%Q <$> M.

(** Entry [(i, j)] of the stack [Ms], summed over the first axis. *)
Definition entry (M : matrix) (i j : nat) : Q :=
  default 0%Q (M !! i ≫= λ row, row !! j).

(** [np.array(Ms).sum(0)] for a non-empty list of arrays of one shape. *)
Definition sum_axis0 (Ms : list matrix) : matrix :=
  match Ms with
  | [] => []
  | M0 :: _ =>
      imap (λ i row0, imap (λ j _, sum ((λ M, entry M i j) <$> Ms)) row0) M0
  end.

(** [np.multiply(M, y.reshape((1, -1)))]: every row of [M] times [y],
    entry by entry. *)
Definition mul_row (M : matrix) (y : vector) : matrix :=
  (λ row, zip_with Qmult row y) <$> M.

(** [M - c] for a column [c] of shape [(n, 1)]: row [i] minus [c[i]]. *)
Definition sub_col (M : matrix) (c : vector) : matrix :=
  zip_with (λ row ci, (λ x, x - ci)%Q <$> row) M c.

(** [np.square] and the element-wise [np.multiply] of two arrays of one
    shape. *)
Definition square (M : matrix) : matrix :=
  fmap (M := list) (λ x, x * x)%Q <$> M.
Definition mul (A B : matrix) : matrix := zip_with (zip_with Qmult) A B.

(** [np.zeros(M.shape)] for a 2-d and for a 1-d array. *)
Definition zeros_like (M : matrix) : matrix :=
  fmap (M := list) (λ _, 0%Q) <$> M.
Definition zeros_like1 (v : vector) : vector := (λ _, 0%Q) <$> v.

(** [np.empty((n, m))]: the contents are arbitrary, every entry is
    assigned before it is read. *)
Definition empty (n m : nat) : matrix := zeros n m.

(** [M[:, j:j+1] = c.reshape(-1, 1)] for a column of [M.shape[0]]
    entries. *)
Definition set_column (j : nat) (c : vector) (M : matrix) : matrix :=
  zip_with (λ row ci, <[j := ci]> row) M c.

(** [M[ind, :]]; an index out of range raises. *)
Definition take_rows {A : Type} (ind : list nat) (M : list A)
    : option (list A) :=
  mapM (λ i, M !! i) ind.

(** [ind.argsort()] for an array of distinct integers: the positions of
    the entries, by ascending entry. *)
Definition key_le (a b : nat * nat) : Prop := a.1 ≤ b.1.
Global Instance key_le_dec : RelDecision key_le := λ a b, decide (a.1 ≤ b.1).


End Np.

(** [a / b] on Python integers. *)
Definition py_truediv (a b : Z) : option Q :=
  if decide (b = 0%Z) then None else Some (inject_Z a / inject_Z b)%Q.

(** [for i in range(lo, hi): s = body i s]; a raising body ends the
    loop. *)
Definition for_range {S : Type} (lo hi : nat) (body : nat → S → option S)
    (s : S) : option S :=
  foldl (λ acc i, acc ≫= body i) (Some s) (seq lo (hi - lo)).

(** ** scikit-learn's [OneHotEncoder] on one integer column *)

Module Sk.

(** The indicator row of the value [x] over the categories [cats]. *)
Definition onehot_row (cats : list Z) (x : Z) : vector :=
  (λ c, if Z.eqb x c then 1%Q else 0%Q) <$> cats.

(** [OneHotEncoder(sparse=True).fit_transform(col.reshape(-1, 1))]: one
    column per distinct value of [col], ascending.  scikit-learn rejects an
    input with no samples ([None]). *)
Definition OneHotEncoder_fit_transform (col : list Z) : option matrix :=
  match col with
  | [] => None
  | _ => Some (onehot_row (Np.unique col) <$> col)
  end.

End Sk.

(** ** TreeWeighter ([honest_weight_numpy_out], lines 1518-1564;
       [BaseOrderedForest.honest_weight_numpy], lines 1135-1181) *)

(** The body of [honest_weight_numpy_out] after the two leaf-id columns
    are extracted, up to the last statement: the matrix [tree_out] that is
    divided and the divisors [leaf_size]. *)
Definition tree_weight_parts (leaf_IDs_honest leaf_IDs_all : list Z)
    (n_samples n_est : nat) : option (matrix * vector) :=
  let leaf_IDs_honest_u := Np.unique leaf_IDs_honest in
  let leaf_IDs_all_u := Np.unique leaf_IDs_all in
  let same := Np.array_equal leaf_IDs_honest_u leaf_IDs_all_u in
  let leaf_IDs_honest_ext :=
    if same then leaf_IDs_honest
    else leaf_IDs_honest ++ Np.setdiff1d leaf_IDs_all_u leaf_IDs_honest_u in
  let leaf_IDs_all_ext :=
    if same then leaf_IDs_all
    else leaf_IDs_all ++ Np.setdiff1d leaf_IDs_honest_u leaf_IDs_all_u in
  onehot_honest ← Np.transpose <$>
    Sk.OneHotEncoder_fit_transform leaf_IDs_honest_ext;
  onehot_all ← Sk.OneHotEncoder_fit_transform leaf_IDs_all_ext;
  let onehot_all := take n_samples onehot_all in
  tree_out ← Np.dot onehot_all onehot_honest;
  let leaf_size := Np.sum_axis1 tree_out in
  let tree_out :=
    if negb same then take n_est <$> take n_samples tree_out else tree_out in
  Some (tree_out, leaf_size).

Definition tree_weight (leaf_IDs_honest leaf_IDs_all : list Z)
    (n_samples n_est : nat) : option matrix :=
  '(tree_out, leaf_size) ←
    tree_weight_parts leaf_IDs_honest leaf_IDs_all n_samples n_est;
  Some (Np.div_rows tree_out leaf_size).

Definition honest_weight_numpy_out (tree : nat)
    (forest_apply forest_apply_all : list (list Z))
    (n_samples n_est : nat) : option matrix :=
  leaf_IDs_honest ← Np.column tree forest_apply;
  leaf_IDs_all ← Np.column tree forest_apply_all;
  tree_weight leaf_IDs_honest leaf_IDs_all n_samples n_est.

(** The method [BaseOrderedForest.honest_weight_numpy] has the same body,
    statement for statement. *)
Definition honest_weight_numpy (tree : nat)
    (forest_apply forest_apply_all : list (list Z))
    (n_samples n_est : nat) : option matrix :=
  leaf_IDs_honest ← Np.column tree forest_apply;
  leaf_IDs_all ← Np.column tree forest_apply_all;
  tree_weight leaf_IDs_honest leaf_IDs_all n_samples n_est.

(** ** ProbabilityAssembler ([fit], lines 915-925; [predict], 1737-1747) *)

(** [probs_1 - probs_0]: the first differences between the zero column
    and the one column. *)
Definition first_differences (probs : matrix) : matrix :=
  let probs_0 := Np.hstack_zeros probs in
  let probs_1 := Np.hstack_ones probs in
  Np.sub probs_1 probs_0.

(** The differenced and clipped matrix, before normalisation. *)
Definition clipped_diffs (probs : matrix) : matrix :=
  let class_probs := first_differences probs in
  Np.clip_negative class_probs.

(** The divisors of the normalisation: [class_probs.sum(axis=1)]. *)
Definition normalizers (probs : matrix) : vector :=
  Np.sum_axis1 (clipped_diffs probs).

Definition assemble_class_probs (probs : matrix) : matrix :=
  let class_probs := clipped_diffs probs in
  Np.div_rows class_probs (Np.sum_axis1 class_probs).

(** Python exceptions the modelled code can raise. *)
Inductive exn : Type :=
  | ValueError (msg : string)
  | OtherException.

Inductive outcome (A : Type) : Type :=
  | Returned (a : A)
  | Raised (e : exn).
Arguments Returned {A} a.
Arguments Raised {A} e.

(** The assembly step as a statement sequence of [fit] and [predict]: no
    statement of it raises, the division is NumPy's array division. *)
Definition class_probs_step (probs : matrix) : outcome matrix :=
  Returned (assemble_class_probs probs).

(** Equality of arrays up to the value of the rationals. *)
Definition vec_eq (u v : vector) : Prop := Forall2 Qeq u v.
Definition mat_eq (A B : matrix) : Prop := Forall2 vec_eq A B.

(** One row of the clipped differences. *)
Definition clipped_row (row : vector) : vector :=
  Np.clip <$> zip_with Qminus (row ++ [1%Q]) (0%Q :: row).

(** The co-occupation indicator of two leaf ids: the entries of
    [onehot_all.dot(onehot_honest)]. *)
Definition same_leaf (x y : Z) : Q := if (x =? y)%Z then 1%Q else 0%Q.

(** ** ForestAggregator ([fit], lines 444-470, 526-575 and 691-692) *)

(** The two aggregation strategies of [fit] that run without shared
    state. *)
Inductive weight_method : Type :=
  | numpy_loop
  | numpy_loop_mpire.

(** [weight_method == 'numpy_loop']: [forest_out] starts as
    [np.zeros((n_samples, n_est))] and every tree adds its [tree_out]; the
    loop body is the body of [honest_weight_numpy_out].  A raising tree
    ends the loop ([None]). *)
Definition forest_out_numpy_loop (n_estimators : nat)
    (forest_apply forest_apply_all : list (list Z))
    (n_samples n_est : nat) : option matrix :=
  foldl (λ forest_out tree,
           forest_out ← forest_out;
           tree_out ← honest_weight_numpy_out tree forest_apply
                        forest_apply_all n_samples n_est;
           Some (Np.add forest_out tree_out))
        (Some (Np.zeros n_samples n_est)) (seq 0 n_estimators).

(** [weight_method == 'numpy_loop_mpire']: [pool.map] collects the
    matrices of all trees in order, [trees_out.sum(0)] adds them. *)
Definition forest_out_numpy_loop_mpire (n_estimators : nat)
    (forest_apply forest_apply_all : list (list Z))
    (n_samples n_est : nat) : option matrix :=
  trees_out ← mapM (λ tree, honest_weight_numpy tree forest_apply
                              forest_apply_all n_samples n_est)
                   (seq 0 n_estimators);
  Some (Np.sum_axis0 trees_out).

(** The forest weights of one class: [forest_out / self.n_estimators]. *)
Definition forest_weights (method : weight_method) (n_estimators : nat)
    (forest_apply forest_apply_all : list (list Z))
    (n_samples n_est : nat) : option matrix :=
  forest_out ←
    match method with
    | numpy_loop =>
        forest_out_numpy_loop n_estimators forest_apply forest_apply_all
          n_samples n_est
    | numpy_loop_mpire =>
        forest_out_numpy_loop_mpire n_estimators forest_apply
          forest_apply_all n_samples n_est
    end;
  Some (Np.div_scalar forest_out (inject_Z (Z.of_nat n_estimators))).

(** ** VarianceEstimator ([honest_variance], lines 1238-1311) *)

(** The dictionaries are keyed by the class index 1, 2, ...; a missing key
    raises ([None]).  The function is embedded phase by phase, in the order
    of its statements. *)

(** Lines 1245-1262: the de-meaned products and the variances of the
    cut-points [1 .. nclass - 1]. *)
Definition variance_loop (probs : matrix) (weights : gmap nat matrix)
    (outcome_binary : gmap nat vector) (nclass : nat) (n_est : Z)
    : option (gmap nat matrix * gmap nat vector) :=
  for_range 1 nclass
    (λ class_idx '(honest_multi_demeaned, honest_variance),
       probs_col ← Np.column (class_idx - 1) probs;
       let honest_pred_mean := (λ p, p / inject_Z n_est)%Q <$> probs_col in
       W ← weights !! class_idx;
       y ← outcome_binary !! class_idx;
       let honest_multi := Np.mul_row W y in
       let demeaned := Np.sub_col honest_multi honest_pred_mean in
       let honest_multi_demeaned_sq := Np.square demeaned in
       let honest_multi_demeaned_sq_sum :=
         Np.sum_axis1 honest_multi_demeaned_sq in
       ratio ← py_truediv n_est (n_est - 1);
       Some (<[class_idx := demeaned]> honest_multi_demeaned,
             <[class_idx :=
                 (λ s, s * ratio)%Q <$> honest_multi_demeaned_sq_sum]>
               honest_variance))
    ((∅ : gmap nat matrix), (∅ : gmap nat vector)).

(** "Postpend matrix of zeros" (lines 1266-1268 and 1294-1295):
    [d_last = d; d_last[nclass] = np.zeros(d_last[1].shape)].  [d_last] is
    an alias of [d], so the one dictionary gets the key [nclass]. *)
Definition postpend_zeros {V : Type} (zeros_of : V → V) (nclass : nat)
    (d : gmap nat V) : option (gmap nat V) :=
  d1 ← d !! 1;
  Some (<[nclass := zeros_of d1]> d).

(** "Prepend matrix of zeros" and "shift existing matrices by 1 class"
    (lines 1270-1276 and 1297-1301), reading the dictionary [d] after the
    update through its alias. *)
Definition prepend_zeros {V : Type} (zeros_of : V → V) (nclass : nat)
    (d : gmap nat V) : option (gmap nat V) :=
  d1 ← d !! 1;
  for_range 1 nclass
    (λ class_idx d_first,
       v ← d !! class_idx;
       Some (<[class_idx + 1 := v]> d_first))
    (<[1 := zeros_of d1]> ∅).

(** Lines 1278-1290: the covariances of the adjacent cut-points. *)
Definition covariance_loop (nclass : nat) (n_est : Z)
    (honest_multi_demeaned_0_first honest_multi_demeaned_0_last
       : gmap nat matrix) : option (gmap nat vector) :=
  for_range 1 (nclass + 1)
    (λ class_idx (honest_covariance : gmap nat vector),
       a ← honest_multi_demeaned_0_first !! class_idx;
       b ← honest_multi_demeaned_0_last !! class_idx;
       let honest_multi_demeaned_cov := Np.mul a b in
       let honest_multi_demeaned_cov_sum :=
         Np.sum_axis1 honest_multi_demeaned_cov in
       ratio ← py_truediv n_est (n_est - 1);
       Some (<[class_idx :=
                 (λ s, s * 2 * ratio)%Q <$> honest_multi_demeaned_cov_sum]>
               honest_covariance))
    ∅.

(** Lines 1303-1310: [var_last + var_first - cov], column by column. *)
Definition variance_final (n_rows nclass : nat)
    (honest_variance_last honest_variance_first honest_covariance
       : gmap nat vector) : option matrix :=
  for_range 1 (nclass + 1)
    (λ class_idx honest_variance_final,
       last ← honest_variance_last !! class_idx;
       first ← honest_variance_first !! class_idx;
       cov ← honest_covariance !! class_idx;
       Some (Np.set_column (class_idx - 1)
               (zip_with Qminus (zip_with Qplus last first) cov)
               honest_variance_final))
    (Np.empty n_rows nclass).

Definition honest_variance (probs : matrix) (weights : gmap nat matrix)
    (outcome_binary : gmap nat vector) (nclass : nat) (n_est : Z)
    : option matrix :=
  '(honest_multi_demeaned, honest_variance) ←
    variance_loop probs weights outcome_binary nclass n_est;
  honest_multi_demeaned_0_last ←
    postpend_zeros Np.zeros_like nclass honest_multi_demeaned;
  honest_multi_demeaned_0_first ←
    prepend_zeros Np.zeros_like nclass honest_multi_demeaned_0_last;
  honest_covariance ←
    covariance_loop nclass n_est honest_multi_demeaned_0_first
      honest_multi_demeaned_0_last;
  honest_variance_last ←
    postpend_zeros Np.zeros_like1 nclass honest_variance;
  honest_variance_first ←
    prepend_zeros Np.zeros_like1 nclass honest_variance_last;
  variance_final (length probs) nclass honest_variance_last
    honest_variance_first honest_covariance.

(** The values the two dictionaries of the first loop hold at
    [class_idx]. *)
Definition demeaned_at (probs : matrix) (weights : gmap nat matrix)
    (outcome_binary : gmap nat vector) (n_est : Z) (class_idx : nat)
    : matrix :=
  Np.sub_col
    (Np.mul_row (default [] (weights !! class_idx))
       (default [] (outcome_binary !! class_idx)))
    ((λ p, p / inject_Z n_est)%Q <$> Np.col (class_idx - 1) probs).

Definition variance_at (probs : matrix) (weights : gmap nat matrix)
    (outcome_binary : gmap nat vector) (n_est : Z) (class_idx : nat)
    : vector :=
  (λ s, s * (inject_Z n_est / inject_Z (n_est - 1)))%Q
    <$> Np.sum_axis1
          (Np.square (demeaned_at probs weights outcome_binary n_est class_idx)).

(** *** The variance formula, as the specification words it *)

Section VarianceFormula.
Variables (probs : matrix) (weights : gmap nat matrix).
Variables (outcome_binary : gmap nat vector).
Variables (nclass n_honest : nat) (n : Z).

(** [W_k[i, j]], [y_k[j]] and [p_k[i]]. *)
Definition W_ (k i j : nat) : Q := Np.entry (default [] (weights !! k)) i j.
Definition y_ (k j : nat) : Q := Np.get (default [] (outcome_binary !! k)) j.
Definition p_ (k i : nat) : Q := Np.entry probs i (k - 1).

(** [d_k[i, j]]: the de-meaned matrix [W_k∘y_k - p_k/n]; the boundary
    cut-points 0 and [nclass] have the zero matrix. *)
Definition d_ (k i j : nat) : Q :=
  if decide (1 ≤ k ∧ k < nclass)
  then (W_ k i j * y_ k j - p_ k i / inject_Z n)%Q
  else 0%Q.

Definition scale : Q := (inject_Z n / inject_Z (n - 1))%Q.

(** [Var_k[i]], zero at the boundary cut-points. *)
Definition Var_ (k i : nat) : Q :=
  if decide (1 ≤ k ∧ k < nclass)
  then (scale * Np.sum ((λ j, d_ k i j * d_ k i j) <$> seq 0 n_honest))%Q
  else 0%Q.

(** [Cov_k[i]], between the cut-points [k - 1] and [k]. *)
Definition Cov_ (k i : nat) : Q :=
  (2 * scale
   * Np.sum ((λ j, d_ (k - 1) i j * d_ k i j) <$> seq 0 n_honest))%Q.
End VarianceFormula.

(** ** The variance of the fitted values ([fit], lines 934-957) *)



(** ** The fitted estimator *)

(** A Python value passed for a keyword argument. *)
Inductive pyval : Type :=
  | PyNone
  | PyBool (b : bool)
  | PyInt (z : Z)
  | PyFloat (q : Q)
  | PyStr (s : string).

(** [self.forest['variance']] after [fit]: the variance matrix, or the
    empty dictionary when no inference was asked for; [var_final] of
    [predict] starts as [None]. *)
Inductive variances : Type :=
  | VarNone
  | VarEmptyDict
  | VarMatrix (M : matrix).

(** The state of a fitted [OrderedForest] that [predict] and [margin]
    read. *)
Record OrderedForest : Type := {
  n_features : nat;
  n_class : nat;
  honesty : bool;
  inference : bool;
  forest_probs : matrix;
  forest_variance : variances;
  forest_X_fit : matrix;
  forest_ind_est : list nat;
  forest_outcome_binary_est : gmap nat vector;
}.

(** What [predict] returns under the keys ['predictions'] and
    ['variances']. *)
Inductive predictions : Type :=
  | Probabilities (M : matrix)
  | Classes (c : list nat).

Record predict_result : Type := {
  result_prob : bool;
  result_predictions : predictions;
  result_variances : variances;
}.

Definition Qeqb (x y : Q) : bool := Qeq_bool x y.
Definition Qltb (x y : Q) : bool := negb (Qle_bool y x).
Definition Qleb (x y : Q) : bool := Qle_bool x y.

(** [np.array_equal] of two 2-d arrays of floats: one shape, equal
    entries. *)
Definition vec_eqb (u v : vector) : bool :=
  (length u =? length v) && forallb (λ '(x, y), Qeqb x y) (zip u v).
Definition array_equal (A B : matrix) : bool :=
  (length A =? length B) && forallb (λ '(u, v), vec_eqb u v) (zip A B).

(** scikit-learn's [check_array] on a 2-d array of finite numbers: it
    returns the array, and rejects one with no sample or no feature. *)
Definition check_array (X : matrix) : outcome matrix :=
  if (0 <? length X) && (0 <? Np.width X)
     && forallb (λ row, length row =? Np.width X) X
  then Returned X
  else Raised (ValueError "Found array with 0 sample(s) or 0 feature(s)").

(** [M.argmax(axis=1) + 1]: the first position of the row maximum,
    counted from 1. *)
Fixpoint argmax_from (best : Q) (best_i i : nat) (v : vector) : nat :=
  match v with
  | [] => best_i
  | x :: v' =>
      if Qltb best x then argmax_from x i (S i) v'
      else argmax_from best best_i (S i) v'
  end.
Definition argmax1 (v : vector) : nat :=
  match v with
  | [] => 0
  | x :: v' => argmax_from x 0 1 v' + 1
  end.

(** ** [OrderedForest.predict] (lines 1640-1775) *)

Section Predict.
(** The three prediction paths on new data go through the fitted tree
    ensembles, which are outside this model: [predict_default],
    [predict_leafmeans] and [predict_weights]. *)
Variable predict_default : OrderedForest → matrix → nat → matrix.
Variable predict_leafmeans : OrderedForest → matrix → nat → matrix.
Variable predict_weights :
  OrderedForest → matrix → nat → matrix * gmap nat matrix.

Definition predict (self : OrderedForest) (X : option matrix)
    (prob : pyval) : outcome predict_result :=
  (* check if X defined properly *)
  let checked : outcome (option matrix * nat) :=
    match X with
    | Some X =>
        match check_array X with
        | Raised e => Raised e
        | Returned X =>
            if negb (Np.width X =? n_features self)
            then Raised (ValueError
                   "Number of features (covariates) should be the same as in the fit function.")
            else
              let n_samples := length X in
              if array_equal X (forest_X_fit self)
              then Returned (None, n_samples)
              else Returned (Some X, n_samples)
        end
    | None => Returned (None, length (forest_X_fit self))
    end in
  match checked with
  | Raised e => Raised e
  | Returned (X, n_samples) =>
      match prob with
      | PyBool prob =>
          let outcome_binary_est := forest_outcome_binary_est self in
          let probs := forest_probs self in
          let variance := forest_variance self in
          let nclass := n_class self in
          match X with
          | None =>
              if prob
              then Returned {| result_prob := prob;
                               result_predictions := Probabilities probs;
                               result_variances := variance |}
              else Returned {| result_prob := prob;
                               result_predictions :=
                                 Classes (argmax1 <$> probs);
                               result_variances := VarNone |}
          | Some X =>
              let '(probs, weights) :=
                if negb (honesty self)
                then (predict_default self X n_samples, ∅)
                else if negb (inference self)
                then (predict_leafmeans self X n_samples, ∅)
                else predict_weights self X n_samples in
              let class_probs := assemble_class_probs probs in
              let pred_final :=
                if prob then Probabilities class_probs
                else Classes (argmax1 <$> class_probs) in
              let var_final :=
                if inference self && prob
                then
                  match honest_variance probs weights outcome_binary_est
                          nclass (Z.of_nat (length (forest_ind_est self)))
                  with
                  | Some V => Returned (VarMatrix V)
                  | None => Raised OtherException
                  end
                else Returned VarNone in
              match var_final with
              | Raised e => Raised e
              | Returned var_final =>
                  Returned {| result_prob := prob;
                              result_predictions := pred_final;
                              result_variances := var_final |}
              end
          end
      | _ => Raised (ValueError "prob must be of type boolean")
      end
  end.
End Predict.

(** ** [OrderedForest.margin] (lines 1783-1955) *)

(** The order on floats, decided by [Qle_bool], for sorting. *)
Global Instance Qle_rel_dec : RelDecision Qle.
Proof.
  refine (λ x y, match Qle_bool x y as b return Qle_bool x y = b → _ with
                 | true => λ H, left _
                 | false => λ H, right _
                 end eq_refl).
  - by apply Qle_bool_iff.
  - intros Hle. apply Qle_bool_iff in Hle. congruence.
Defined.

(** The number of distinct values of one column, as [margin] counts them:
    the column is sorted, and the unequal neighbours are counted
    ([np.sort(X_eval, axis=0)] and
    [(X_eval_sort[1:, :] != X_eval_sort[:-1, :]).sum(axis=0) + 1]). *)
Definition n_unique_col (col : vector) : nat :=
  let col_sort := merge_sort Qle col in
  length (filter (λ '(a, b), Qeqb a b = false)
            (zip (drop 1 col_sort) col_sort)) + 1.

(** [np.mean], [np.median], [np.max] and [np.min] of one column. *)
Definition mean (col : vector) : Q :=
  (Np.sum col / inject_Z (Z.of_nat (length col)))%Q.
Definition median (col : vector) : Q :=
  let s := merge_sort Qle col in
  let n := length s in
  if Nat.even n
  then ((Np.get s (n / 2 - 1) + Np.get s (n / 2)) / 2)%Q
  else Np.get s (n / 2).
Definition col_max (col : vector) : Q :=
  match col with [] => 0%Q | x :: col' => foldl Qmax x col' end.
Definition col_min (col : vector) : Q :=
  match col with [] => 0%Q | x :: col' => foldl Qmin x col' end.

(** Boolean masks in arithmetic: [True] is 1 and [False] is 0. *)
Definition mask (b : bool) : Q := if b then 1%Q else 0%Q.

(** One entry of the five arrays [X_up], [X_down], [X_sd], [X_max] and
    [X_min], which have one shape. *)
Record cell : Type := {
  up : Q;
  down : Q;
  sd : Q;
  cmax : Q;
  cmin : Q;
}.

(** Lines 1916-1935 on one entry: [X_mean ± h_std * X_sd], then the
    range checks. *)
Definition clip_cell (h_std x_mean x_sd x_max x_min : Q) : cell :=
  let X_up := (x_mean + h_std * x_sd)%Q in
  let X_down := (x_mean - h_std * x_sd)%Q in
  let X_up :=
    (mask (Qltb X_up x_max) * X_up + mask (Qleb x_max X_up) * x_max)%Q in
  let X_up :=
    (mask (Qltb x_min X_up) * X_up
     + mask (Qleb X_up x_min) * (x_min + h_std * x_sd))%Q in
  let X_down :=
    (mask (Qltb x_min X_down) * X_down + mask (Qleb X_down x_min) * x_min)%Q in
  let X_down :=
    (mask (Qltb X_down x_max) * X_down
     + mask (Qleb x_max X_down) * (x_max - h_std * x_sd))%Q in
  {| up := X_up; down := X_down; sd := x_sd; cmax := x_max; cmin := x_min |}.

(** Lines 1938-1945 on one entry: the body of
    [if (np.any(X_up == X_down)):].  The second statement reads the
    [X_up] that the first one has assigned. *)
Definition inflate_cell (h_std : Q) (c : cell) : cell :=
  let X_up := up c in
  let X_down := down c in
  let X_up :=
    (mask (Qltb X_down X_up) * X_up
     + mask (Qeqb X_up X_down) * (X_up + (1 # 2) * h_std * sd c))%Q in
  let X_down :=
    (mask (Qltb X_down X_up) * X_down
     + mask (Qeqb X_up X_down) * (X_down - (1 # 2) * h_std * sd c))%Q in
  let X_up :=
    (mask (Qltb X_up (cmax c)) * X_up
     + mask (Qleb (cmax c) X_up) * cmax c)%Q in
  let X_down :=
    (mask (Qltb (cmin c) X_down) * X_down
     + mask (Qleb X_down (cmin c)) * cmin c)%Q in
  {| up := X_up; down := X_down; sd := sd c; cmax := cmax c;
     cmin := cmin c |}.

(** [np.any(X_up == X_down)]. *)
Definition any_coincide (cells : list (list cell)) : bool :=
  existsb (existsb (λ c, Qeqb (up c) (down c))) cells.

(** Lines 1936-1945. *)
Definition inflate (h_std : Q) (cells : list (list cell)) : list (list cell) :=
  if any_coincide cells
  then fmap (M := list) (inflate_cell h_std) <$> cells
  else cells.

(** The evaluation points. *)
Inductive eval_point_kind : Type := Mean | AtMean | AtMedian.

Definition evaluation_points (ep : eval_point_kind) (X_eval : matrix)
    : matrix :=
  match ep with
  | AtMean => [mean <$> Np.transpose X_eval]
  | AtMedian => [median <$> Np.transpose X_eval]
  | Mean => X_eval
  end.

(** The stages of [margin] after its checks.  A run records the stages it
    has entered, so that the order of a failure and the computations can be
    stated. *)
Inductive stage : Type :=
  | EvaluationPoints
  | PerturbedMatrices
  | Predictions
  | MarginalEffects.

Definition traced (A : Type) : Type := (list stage * outcome A)%type.

Definition tret {A : Type} (a : A) : traced A := ([], Returned a).
Definition traise {A : Type} (e : exn) : traced A := ([], Raised e).
Definition enter (s : stage) : traced unit := ([s], Returned tt).
Definition lift {A : Type} (o : outcome A) : traced A := ([], o).
Definition tbind {A B : Type} (m : traced A) (f : A → traced B)
    : traced B :=
  match m with
  | (l, Returned a) => let '(l', r) := f a in (l ++ l', r)
  | (l, Raised e) => (l, Raised e)
  end.

Notation "' x ←ₜ m ; k" := (tbind m (λ x : _, k))
  (at level 20, x pattern, m at level 100, k at level 200, only parsing).
Notation "m ;;ₜ k" := (tbind m (λ _, k))
  (at level 100, k at level 200, only parsing, right associativity).

Definition constant_covariates : string :=
  "Some of the covariates are constant. This is not allowed for evaluation of marginal effects. Programme terminated.".

Section Margin.
(** [np.std(col, ddof=1)], whose square root leaves the rationals, and
    the rest of [margin] (predictions through the forests, effects and
    their variances) are parameters. *)
Variable np_std : vector → Q.
Variable Effects : Type.
Variable marginal_effects :
  OrderedForest → eval_point_kind → Q → matrix → matrix → matrix → Effects.

(** Lines 1809-1887: the checks of the arguments and the choice of the
    data. *)
Definition margin_checks (self : OrderedForest) (X : option matrix)
    (eval_point window verbose : pyval)
    : outcome (matrix * matrix * Q * eval_point_kind) :=
  let checked : outcome (option matrix) :=
    match X with
    | Some X =>
        match check_array X with
        | Raised e => Raised e
        | Returned X =>
            if negb (Np.width X =? n_features self)
            then Raised (ValueError
                   "Number of features (covariates) should be the same as in the fit function.")
            else if array_equal X (forest_X_fit self)
            then Returned None
            else Returned (Some X)
        end
    | None => Returned None
    end in
  match checked with
  | Raised e => Raised e
  | Returned X =>
      match verbose with
      | PyBool _ =>
          match window with
          | PyFloat window =>
              if negb (Qltb 0 window && Qleb window 1)
              then Raised (ValueError "window must be within (0,1]")
              else
                match eval_point with
                | PyStr ep =>
                    let ep :=
                      if String.eqb ep "mean" then Some Mean
                      else if String.eqb ep "atmean" then Some AtMean
                      else if String.eqb ep "atmedian" then Some AtMedian
                      else None in
                    match ep with
                    | None =>
                        Raised (ValueError
                          "eval_point must be one of 'mean', 'atmean' or 'atmedian'")
                    | Some ep =>
                        let ind_est := forest_ind_est self in
                        let X_fit := forest_X_fit self in
                        if honesty self
                        then
                          match Np.take_rows ind_est X_fit with
                          | None => Raised OtherException
                          | Some honest_rows =>
                              match X with
                              | None =>
                                  Returned (honest_rows, honest_rows,
                                            window, ep)
                              | Some X =>
                                  Returned (X, honest_rows, window, ep)
                              end
                          end
                        else
                          match X with
                          | None => Returned (X_fit, X_fit, window, ep)
                          | Some X => Returned (X, X_fit, window, ep)
                          end
                    end
                | _ =>
                    Raised (ValueError "eval_point must be of type string")
                end
          | _ => Raised (ValueError "window must be a float")
          end
      | _ => Raised (ValueError "verbose must be of type boolean")
      end
  end.

(** Lines 1913-1945: one cell per evaluation point and covariate. *)
Definition clipped_cells (h_std : Q) (X_mean X_est : matrix)
    : list (list cell) :=
  let cols := Np.transpose X_est in
  let stats := (λ col, (np_std col, col_max col, col_min col)) <$> cols in
  (λ row, zip_with (λ x_mean '(x_sd, x_max, x_min),
                      clip_cell h_std x_mean x_sd x_max x_min)
            row stats) <$> X_mean.

(** Lines 1947-1953: dummies get the two values of the column,
    categorical covariates adjacent integers. *)
Definition adjust_cell (X_eval_col : vector) (n_unique : nat) (c : cell)
    : cell :=
  let c :=
    if n_unique =? 2
    then {| up := col_max X_eval_col; down := col_min X_eval_col;
            sd := sd c; cmax := cmax c; cmin := cmin c |}
    else c in
  if (2 <? n_unique) && (n_unique <=? 10)
  then let X_up := inject_Z (Qceiling (up c)) in
       {| up := X_up; down := (X_up - 1)%Q;
          sd := sd c; cmax := cmax c; cmin := cmin c |}
  else c.

Definition perturbed (h_std : Q) (X_mean X_eval X_est : matrix)
    : matrix * matrix :=
  let n_unique := n_unique_col <$> Np.transpose X_eval in
  let cells := clipped_cells h_std X_mean X_est in
  let cells := inflate h_std cells in
  let cells :=
    (λ row, zip_with (λ c '(col, n), adjust_cell col n c) row
              (zip (Np.transpose X_eval) n_unique)) <$> cells in
  (fmap (M := list) up <$> cells, fmap (M := list) down <$> cells).

(** [margin]: the stages entered, and the outcome. *)
Definition margin (self : OrderedForest) (X : option matrix)
    (eval_point window verbose : pyval) : traced Effects :=
  '(X_eval, X_est, h_std, ep) ←ₜ
    lift (margin_checks self X eval_point window verbose);
  (* check if X is continuous, dummy or categorical *)
  let n_unique := n_unique_col <$> Np.transpose X_eval in
  if existsb (λ n, n <=? 1) n_unique
  then traise (ValueError constant_covariates)
  else
    enter EvaluationPoints ;;ₜ
    let X_mean := evaluation_points ep X_eval in
    enter PerturbedMatrices ;;ₜ
    let '(X_up, X_down) := perturbed h_std X_mean X_eval X_est in
    enter Predictions ;;ₜ
    enter MarginalEffects ;;ₜ
    tret (marginal_effects self ep h_std X_eval X_up X_down).
End Margin.

(** An instance of [np.std(col, ddof=1)] on the rationals: the square
    root is rounded down to a multiple of the denominator's inverse, and is
    exact when the variance is the square of a rational. *)
Definition Qsqrt (q : Q) : Q := Z.sqrt (Qnum q * Zpos (Qden q)) # Qden q.
Definition sample_std (col : vector) : Q :=
  let m := mean col in
  Qsqrt (Np.sum ((λ x, (x - m) * (x - m))%Q <$> col)
         / inject_Z (Z.of_nat (length col) - 1)).

(** C8 as it is stated, on the cells after the range checks: wherever the
    up and the down value coincide, the statements of the [if] block leave
    a positive gap. *)
Definition coincidence_gap_inflated (h_std : Q) (cells : list (list cell))
    : Prop :=
  Forall (Forall (λ c, (up c == down c)%Q →
                       (down (inflate_cell h_std c)
                        < up (inflate_cell h_std c))%Q)) cells.

(** A column all of whose entries are one value. *)
Definition constant_col (col : vector) : Prop :=
  ∀ x y, x ∈ col → y ∈ col → (x == y)%Q.

(** An array of [n] rows and [m] columns. *)
Definition has_shape (n m : nat) (M : matrix) : Prop :=
  length M = n ∧ Forall (λ row, length row = m) M.

(** The placeholder entries appended to the honest leaf ids: the leaves
    reached by evaluation observations only. *)
Definition extra_honest (leaf_IDs_honest leaf_IDs_all : list Z) : list Z :=
  let leaf_IDs_honest_u := Np.unique leaf_IDs_honest in
  let leaf_IDs_all_u := Np.unique leaf_IDs_all in
  if Np.array_equal leaf_IDs_honest_u leaf_IDs_all_u then []
  else Np.setdiff1d leaf_IDs_all_u leaf_IDs_honest_u.

(** ** Example inputs *)

Module Ex.

(** One tree, four honest and three evaluation observations; the leaf of
    the last evaluation observation holds no honest observation. *)
Definition forest_apply : list (list Z) := [[0]; [0]; [1]; [1]]%Z.
Definition forest_apply_all : list (list Z) := [[0]; [1]; [2]]%Z.

(** Two trees, three honest and three evaluation observations. *)
Definition forest_apply2 : list (list Z) := [[0; 1]; [0; 0]; [1; 1]]%Z.
Definition forest_apply_all2 : list (list Z) := [[0; 1]; [1; 0]; [2; 1]]%Z.

(** Three classes, two rows, three honest observations. *)
Definition probs : matrix := [[1 # 2; 3 # 4]; [0; 2 # 3]]%Q.
Definition weights : gmap nat matrix :=
  <[1 := [[1 # 2; 1 # 2; 0]; [0; 1 # 3; 2 # 3]]%Q]>
    (<[2 := [[1 # 2; 1 # 4; 1 # 4]; [1 # 3; 1 # 3; 1 # 3]]%Q]> ∅).
Definition outcome_binary : gmap nat vector :=
  <[1 := [1; 0; 0]%Q]> (<[2 := [1; 1; 0]%Q]> ∅).

(** Four observations split into the honest rows 2, 0 and the training
    rows 3, 1. *)
Definition ind_est : list nat := [2; 0].

(** A model fitted without honesty on one covariate that is constant in
    the fitted data, and new data with eleven distinct values. *)
Definition fitted_constant : OrderedForest :=
  {| n_features := 1; n_class := 3; honesty := false; inference := false;
     forest_probs :=
       [[1 # 2; 1 # 4; 1 # 4]; [1 # 4; 1 # 2; 1 # 4]; [1 # 4; 1 # 4; 1 # 2]]%Q;
     forest_variance := VarEmptyDict;
     forest_X_fit := [[5]; [5]; [5]]%Q; forest_ind_est := [];
     forest_outcome_binary_est := ∅ |}.
Definition X_new : matrix :=
  (λ z, [inject_Z z]) <$> [1; 2; 3; 4; 5; 6; 7; 8; 9; 10; 11]%Z.

(** The remainder of [margin], reduced to the two perturbed matrices. *)
Definition up_down (_ : OrderedForest) (_ : eval_point_kind) (_ : Q)
    (_ X_up X_down : matrix) : matrix * matrix := (X_up, X_down).

(** A fitted model with two covariates, and new data whose first column
    is constant. *)
Definition fitted2 : OrderedForest :=
  {| n_features := 2; n_class := 3; honesty := false; inference := false;
     forest_probs := [[1 # 2; 1 # 4; 1 # 4]; [1 # 5; 2 # 5; 2 # 5]]%Q;
     forest_variance := VarEmptyDict;
     forest_X_fit := [[1; 2]; [3; 4]]%Q; forest_ind_est := [];
     forest_outcome_binary_est := ∅ |}.
Definition X_constant : matrix := [[1; 2]; [1; 3]]%Q.

(** Prediction paths that are never meant to run. *)
Definition no_path (_ : OrderedForest) (_ : matrix) (_ : nat) : matrix := [].
Definition no_weights (_ : OrderedForest) (_ : matrix) (_ : nat)
    : matrix * gmap nat matrix := ([], ∅).

End Ex.

(** ** Honest leaf means ([honest_fit_func], lines 1104-1117;
       [honest_fit_func_out], lines 1486-1499;
       [honest_fit_numpy_func], lines 1119-1133) *)

(** [np.where(col == idx)[0]]: the positions of [idx] in [col], counted
    from [i]. *)
Fixpoint where_from (i : nat) (col : list Z) (idx : Z) : list nat :=
  match col with
  | [] => []
  | x :: col' =>
      if (x =? idx)%Z then i :: where_from (S i) col' idx
      else where_from (S i) col' idx
  end.
Definition where_eq (col : list Z) (idx : Z) : list nat :=
  where_from 0 col idx.

(** [honest_fit_func_out]: the leaf means by a loop over the leaf
    indices.  [np.empty(max_id)] is modelled by zeros, every entry is
    assigned in the loop. *)
Definition honest_fit_func_out (tree : nat) (forest_apply : list (list Z))
    (outcome_ind_est : vector) (max_id : nat) : option vector :=
  for_range 0 max_id
    (λ idx leaf_means,
       col ← Np.column tree forest_apply;
       let row_idx := where_eq col (Z.of_nat idx) in
       if length row_idx =? 0
       then Some (<[idx := 0%Q]> leaf_means)
       else
         vals ← Np.take_rows row_idx outcome_ind_est;
         Some (<[idx := mean vals]> leaf_means))
    (replicate max_id 0%Q).

(** The method [BaseOrderedForest.honest_fit_func] has the same body,
    statement for statement. *)
Definition honest_fit_func (tree : nat) (forest_apply : list (list Z))
    (outcome_ind_est : vector) (max_id : nat) : option vector :=
  for_range 0 max_id
    (λ idx leaf_means,
       col ← Np.column tree forest_apply;
       let row_idx := where_eq col (Z.of_nat idx) in
       if length row_idx =? 0
       then Some (<[idx := 0%Q]> leaf_means)
       else
         vals ← Np.take_rows row_idx outcome_ind_est;
         Some (<[idx := mean vals]> leaf_means))
    (replicate max_id 0%Q).

(** An index into an axis of length [n], as NumPy resolves it: a negative
    index counts from the end, an index outside the axis raises. *)
Definition np_index (n : nat) (i : Z) : option nat :=
  if (0 <=? i)%Z && (i <? Z.of_nat n)%Z then Some (Z.to_nat i)
  else if (- Z.of_nat n <=? i)%Z && (i <? 0)%Z
  then Some (Z.to_nat (Z.of_nat n + i))
  else None.

(** [A.dot(v)] for a 1-d [v]; raises unless every row of [A] has as many
    entries as [v]. *)
Definition dot_vec (A : matrix) (v : vector) : option vector :=
  if forallb (λ row, length row =? length v) A
  then Some ((λ row, Np.inner row v) <$> A)
  else None.

(** [a[idx] = vals] for an index array: the assignments in order. *)
Definition assign_at (idx : list nat) (vals a : vector) : vector :=
  foldl (λ a '(i, v), <[i := v]> a) a (zip idx vals).

(** [honest_fit_numpy_func]: the leaf means by the one-hot matrix of the
    leaf ids. *)
Definition honest_fit_numpy_func (tree : nat) (forest_apply : list (list Z))
    (outcome_ind_est : vector) (max_id : nat) : option vector :=
  let leaf_means := replicate max_id 0%Q in
  col ← Np.column tree forest_apply;
  onehot ← Sk.OneHotEncoder_fit_transform col;
  leaf_sums ← dot_vec (Np.transpose onehot) outcome_ind_est;
  let leaf_n := Np.sum <$> Np.transpose onehot in
  idx ← mapM (np_index max_id) (Np.unique col);
  Some (assign_at idx (zip_with Qdiv leaf_sums leaf_n) leaf_means).

(** The mean of the outcomes of the honest observations in leaf [idx],
    for a leaf that holds one: the sum of the outcomes in the leaf over
    their number. *)
Definition leaf_mean (col : list Z) (y : vector) (idx : Z) : Q :=
  (Np.inner (same_leaf idx <$> col) y / Np.sum (same_leaf idx <$> col))%Q.

(** ** The predictions of one class through the leaf means and through
       the weights ([fit], lines 691-699 and 717-728, 903-912;
       [predict_leafmeans], lines 2221-2238; [predict_weights],
       lines 2242-2285) *)

(** [pred_method == 'loop']: the leaf means of every estimator, kept as
    the list that [np.vstack(leaf_means).T] holds column by column. *)
Definition fitted_loop (n_estimators : nat) (forest_apply : list (list Z))
    (outcome_ind_est : vector) (max_id : nat) : option (list vector) :=
  mapM (λ tree, honest_fit_func tree forest_apply outcome_ind_est max_id)
       (seq 0 n_estimators).

(** [y_hat = fitted[forest_apply, grid]] and [np.mean(y_hat, axis=1)]:
    [y_hat[i, t]] is the leaf mean of estimator [t] at the leaf id
    [forest_apply[i, t]]; a leaf id outside the first axis of [fitted]
    raises.  [forest_apply] is what the forest's [apply] returns, one
    column per estimator; a row of another length is refused. *)
Definition leafmeans_predictions (fitted : list vector)
    (forest_apply : list (list Z)) : option vector :=
  mapM (λ row,
          if negb (length row =? length fitted) then None
          else
            y_hat ← mapM (λ '(leaf, leaf_means),
                            i ← np_index (length leaf_means) leaf;
                            leaf_means !! i)
                         (zip row fitted);
            Some (mean y_hat))
       forest_apply.

(** The honest predictions of one class without inference: the leaf
    means of the honest sample, read at the leaves of the observations. *)
Definition leafmeans_route (n_estimators : nat)
    (forest_apply forest_apply_all : list (list Z))
    (outcome_ind_est : vector) (max_id : nat) : option vector :=
  fitted ← fitted_loop n_estimators forest_apply outcome_ind_est max_id;
  leafmeans_predictions fitted forest_apply_all.

(** The honest predictions of one class with inference: the loop over
    the trees, [forest_out / self.n_estimators] and
    [np.dot(forest_out, outcome_ind_est)]; the weights are returned with
    the predictions. *)
Definition weights_route (n_estimators : nat)
    (forest_apply forest_apply_all : list (list Z))
    (outcome_ind_est : vector) (n_samples n_est : nat)
    : option (vector * matrix) :=
  forest_out ← forest_weights numpy_loop n_estimators forest_apply
                  forest_apply_all n_samples n_est;
  predictions ← dot_vec forest_out outcome_ind_est;
  Some (predictions, forest_out).

(** Row [i] of an array whose shape contains it. *)
Definition rowi (M : matrix) (i : nat) : vector := default [] (M !! i).

(** ** Further example inputs *)

Module Ex2.

(** The outcomes of the three honest observations of [Ex.forest_apply2],
    and two new observations that fall into leaves of the honest sample. *)
Definition outcome_ind_est : vector := [1; 0; 1]%Q.
Definition forest_apply_new : list (list Z) := [[0; 1]; [1; 0]]%Z.

End Ex2.

(** ** The outcome classes ([fit], lines 312-328 and 383-386) *)

(** [np.searchsorted(a, v)] on an ascending integer array [a]: the
    position before which [v] is inserted, which is the number of entries
    below [v]. *)
Definition searchsorted (a : list Z) (v : Z) : Z :=
  Z.of_nat (length (filter (λ x, (x < v)%Z) a)).

(** [min] and [max] of a non-empty sequence of integers. *)
Definition py_min (l : list Z) : Z :=
  match l with [] => 0%Z | x :: l' => foldl Z.min x l' end.
Definition py_max (l : list Z) : Z :=
  match l with [] => 0%Z | x :: l' => foldl Z.max x l' end.

(** [np.searchsorted(np.unique(y), y) + 1]. *)
Definition recode (y : list Z) : list Z :=
  (λ v, searchsorted (Np.unique y) v + 1)%Z <$> y.

(** Lines 312-328 for outcomes that are integers, held in an integer
    dtype ([integer_dtype]) or in a floating one: the number of classes
    and the outcomes recoded to 1, 2, ...  An outcome vector without
    entries is refused ([check_X_y] raises). *)
Definition fit_classes (integer_dtype : bool) (y : list Z)
    : option (nat * list Z) :=
  match y with
  | [] => None
  | _ =>
      let y_values := Np.unique y in
      let nclass := length y_values in
      let y :=
        if negb integer_dtype then recode y
        else if negb ((py_min y_values =? 1)%Z
                      && (py_max y_values =? Z.of_nat nclass)%Z)
        then recode y
        else y in
      Some (nclass, y)
  end.

(** [outcome_ind = (y_tr <= class_idx) * 1]; the name [outcome_ind] is
    taken by the induction principle of [outcome]. *)
Definition outcome_indicator (y_tr : list Z) (class_idx : nat) : vector :=
  (λ v, if (v <=? Z.of_nat class_idx)%Z then 1%Q else 0%Q) <$> y_tr.

(** The dictionary [outcome_binary] after the loop
    [for class_idx in range(1, nclass, 1)] of [fit]. *)
Definition outcome_binary_loop (y_tr : list Z) (nclass : nat)
    : option (gmap nat vector) :=
  for_range 1 nclass
    (λ class_idx outcome_binary,
       Some (<[class_idx := outcome_indicator y_tr class_idx]> outcome_binary))
    ∅.

(** ** The marginal effects ([margin], lines 2024-2063) *)

(** Lines 2053-2059: [np.mean(X_up - X_down, axis=0)], set to 1 for the
    dummies ([n_unique == 2]) and the categorical covariates
    ([2 < n_unique <= 10]). *)
Definition scaling_factor (X_up X_down : matrix) (n_unique : list nat)
    : vector :=
  let scaling_factor := mean <$> Np.transpose (Np.sub X_up X_down) in
  imap (λ j s,
          match n_unique !! j with
          | Some n =>
              if (n =? 2) || ((2 <? n) && (n <=? 10)) then 1%Q else s
          | None => s
          end)
       scaling_factor.


(** A floating-point value as NumPy's array division returns it: a finite
    number, or [inf] or [nan]. *)
Inductive np_float : Type :=
  | Finite (q : Q)
  | NonFinite.

(** [x / d] on NumPy arrays of floats: a zero divisor raises nothing and
    gives [inf] or [nan] (with a warning). *)
Definition np_divide (x d : Q) : np_float :=
  if Qeqb d 0 then NonFinite else Finite (x / d)%Q.

(** Lines 2024-2061 with the division as NumPy performs it. *)
Definition marginal_effects_divided (forest_pred_up forest_pred_down : matrix)
    (scaling_factor : vector) : list (list np_float) :=
  let forest_pred_up := assemble_class_probs forest_pred_up in
  let forest_pred_down := assemble_class_probs forest_pred_down in
  let forest_pred_diff_up_down := Np.sub forest_pred_up forest_pred_down in
  zip_with (λ row s, (λ x, np_divide x s) <$> row)
    forest_pred_diff_up_down scaling_factor.

(** ** The parameter checks ([input_checks], lines 80-287) *)

Module Params.

(** The constructor arguments as they are stored on [self]. *)
Record t : Type := {
  n_estimators : pyval;
  min_samples_leaf : pyval;
  max_features : pyval;
  replace : pyval;
  sample_fraction : pyval;
  honesty : pyval;
  honesty_fraction : pyval;
  inference : pyval;
  n_jobs : pyval;
  pred_method : pyval;
  weight_method : pyval;
  random_state : pyval;
}.

(** The attributes after the checks. *)
Record checked : Type := {
  ck_n_estimators : Z;
  ck_min_samples_leaf : Z;
  ck_max_features : Q;
  ck_replace : bool;
  ck_sample_fraction : Q;
  ck_honesty : bool;
  ck_honesty_fraction : Q;
  ck_inference : bool;
  ck_n_jobs : Z;
  ck_pred_method : string;
  ck_weight_method : string;
}.

(** [isinstance(v, int)]: a Python [bool] is an [int], [True] is 1 and
    [False] is 0. *)
Definition as_int (v : pyval) : option Z :=
  match v with
  | PyInt z => Some z
  | PyBool b => Some (if b then 1 else 0)%Z
  | _ => None
  end.

Definition pred_methods : list string :=
  ["cython"; "loop"; "loop_multi"; "numpy"; "numpy_loop"; "numpy_loop_multi";
   "numpy_loop_mpire"; "numpy_sparse"; "numpy_loop_ray"; "numpy_sparse2"].

Definition weight_methods : list string :=
  ["numpy_loop"; "numpy_loop_mpire"; "numpy_loop_shared_mpire";
   "numpy_loop_shared_multi"; "numpy_loop_multi"].

Definition inference_needs_subsampling : string :=
  "For conducting inference subsampling (without replacement) is required. Set replace=False and run again.".

(** [input_checks]; [cpu_count] is what [cpu_count()] returns, and
    [check_random_state] tells whether scikit-learn accepts the seed.  The
    messages are the ones of the code without the formatted value. *)
Definition input_checks (check_random_state : pyval → bool) (cpu_count : Z)
    (self : t) : outcome checked :=
  match as_int (n_estimators self) with
  | None => Raised (ValueError "n_estimators must be an integer")
  | Some n_estimators =>
  if negb (1 <=? n_estimators)%Z
  then Raised (ValueError "n_estimators must be at least 1")
  else
  match as_int (min_samples_leaf self) with
  | None => Raised (ValueError "min_samples_leaf must be an integer")
  | Some min_samples_leaf =>
  if negb (1 <=? min_samples_leaf)%Z
  then Raised (ValueError "min_samples_leaf must be at least 1")
  else
  match max_features self with
  | PyFloat max_features =>
  if negb (Qltb 0 max_features && Qleb max_features 1)
  then Raised (ValueError "max_features must be within (0,1]")
  else
  match replace self with
  | PyBool replace =>
  match sample_fraction self with
  | PyFloat sample_fraction =>
  if negb (Qltb 0 sample_fraction && Qleb sample_fraction 1)
  then Raised (ValueError "sample_fraction must be within (0,1]")
  else
  match honesty self with
  | PyBool honesty =>
  match honesty_fraction self with
  | PyFloat honesty_fraction =>
  if negb (Qltb 0 honesty_fraction && Qltb honesty_fraction 1)
  then Raised (ValueError "honesty_fraction must be within (0,1)")
  else
  if honesty && replace
  then Raised (ValueError
         "Honesty works only when sampling without replacement. Set replace=False and run again.")
  else
  match inference self with
  | PyBool inference =>
  if inference && negb honesty
  then Raised (ValueError
         "For conducting inference honesty is required. Set honesty=True and run again.")
  else
  if inference && replace
  then Raised (ValueError inference_needs_subsampling)
  else
  match as_int (n_jobs self) with
  | None => Raised (ValueError "n_jobs must be of type integer")
  | Some n_jobs =>
  let max_jobs := cpu_count in
  let checked_jobs :=
    if (n_jobs =? -1)%Z then Some (max_jobs - 1)%Z
    else if (1 <=? n_jobs)%Z && (n_jobs <=? max_jobs)%Z then Some n_jobs
    else None in
  match checked_jobs with
  | None =>
      Raised (ValueError
        "n_jobs must be greater than 0 and less thanavailable cores")
  | Some n_jobs =>
  match pred_method self with
  | PyStr pred_method =>
  if negb (bool_decide (pred_method ∈ pred_methods))
  then Raised (ValueError "pred_method must be of cython, loop or numpy")
  else
  match weight_method self with
  | PyStr weight_method =>
  if negb (bool_decide (weight_method ∈ weight_methods))
  then Raised (ValueError
         "weight_method must be of numpy_loop, numpy_loop_mpire, numpy_loop_shared_mpire, numpy_loop_shared_multi or numpy_loop_multi")
  else
  if negb (check_random_state (random_state self))
  then Raised (ValueError
         "cannot be used to seed a numpy.random.RandomState instance")
  else
  Returned {| ck_n_estimators := n_estimators;
              ck_min_samples_leaf := min_samples_leaf;
              ck_max_features := max_features;
              ck_replace := replace;
              ck_sample_fraction := sample_fraction;
              ck_honesty := honesty;
              ck_honesty_fraction := honesty_fraction;
              ck_inference := inference;
              ck_n_jobs := n_jobs;
              ck_pred_method := pred_method;
              ck_weight_method := weight_method |}
  | _ =>
      Raised (ValueError
        "weight_method must be of numpy_loop, numpy_loop_mpire, numpy_loop_shared_mpire, numpy_loop_shared_multi or numpy_loop_multi")
  end
  | _ => Raised (ValueError "pred_method must be of cython, loop or numpy")
  end
  end
  end
  | _ => Raised (ValueError "inference must be of type boolean")
  end
  | _ => Raised (ValueError "honesty_fraction must be a float")
  end
  | _ => Raised (ValueError "honesty must be of type boolean")
  end
  | _ => Raised (ValueError "sample_fraction must be a float")
  end
  | _ => Raised (ValueError "replace must be of type boolean")
  end
  | _ => Raised (ValueError "max_features must be a float")
  end
  end
  end.

(** The defaults of the constructor. *)
Definition defaults : t :=
  {| n_estimators := PyInt 1000;
     min_samples_leaf := PyInt 5;
     max_features := PyFloat (3 # 10);
     replace := PyBool true;
     sample_fraction := PyFloat (1 # 2);
     honesty := PyBool false;
     honesty_fraction := PyFloat (1 # 2);
     inference := PyBool false;
     n_jobs := PyInt (-1);
     pred_method := PyStr "numpy_loop_mpire";
     weight_method := PyStr "numpy_loop_shared_mpire";
     random_state := PyNone |}.

End Params.

(** ** The aggregation strategy ['numpy_loop_multi'] ([fit],
       lines 507-524 and 691-692) *)

(** [c + M] for a Python number [c]. *)
Definition add_scalar (c : Q) (M : matrix) : matrix :=
  fmap (M := list) (λ x, c + x)%Q <$> M.

(** Python's [sum] of a list of arrays: the integer 0 for the empty list,
    and [0 + a_0 + a_1 + ...] from the left otherwise. *)
Inductive py_sum_value : Type :=
  | PyZero
  | PyArray (M : matrix).

Definition py_sum (tree_out : list matrix) : py_sum_value :=
  match tree_out with
  | [] => PyZero
  | M0 :: rest => PyArray (foldl Np.add (add_scalar 0 M0) rest)
  end.

(** [multiprocessing.Pool(processes)] for an integer: the pool refuses
    fewer than one process and raises its [ValueError]. *)
Definition Pool (processes : Z) : option unit :=
  if (processes <? 1)%Z then None else Some tt.

(** [pool = Pool(self.n_jobs)],
    [pool.starmap(honest_weight_numpy_out, args_iter)], [sum(tree_out)]
    and [forest_out / self.n_estimators]; without trees the division is
    [0 / 0] on Python integers, which raises. *)
Definition forest_weights_numpy_loop_multi (n_jobs : Z) (n_estimators : nat)
    (forest_apply forest_apply_all : list (list Z))
    (n_samples n_est : nat) : option matrix :=
  pool ← Pool n_jobs;
  tree_out ← mapM (λ tree, honest_weight_numpy_out tree forest_apply
                             forest_apply_all n_samples n_est)
                  (seq 0 n_estimators);
  match py_sum tree_out with
  | PyZero => None
  | PyArray forest_out =>
      Some (Np.div_scalar forest_out (inject_Z (Z.of_nat n_estimators)))
  end.

(** ** The confusion matrix ([__performance], lines 1027-1040) *)

Definition shape_mismatch : string :=
  "Shape of passed values does not match the shape the indices imply".

(** [pd.DataFrame(data, index=labels, columns=labels)] on a 2-d array:
    pandas refuses data whose shape is not
    [(len(index), len(columns))]. *)
Definition pd_DataFrame {L : Type} (data : matrix) (index columns : list L)
    : outcome matrix :=
  if (length data =? length index)
     && forallb (λ row, length row =? length columns) data
  then Returned data
  else Raised (ValueError shape_mismatch).

(** [class_pred = predictions.argmax(axis=1) + 1]. *)
Definition class_pred (predictions : matrix) : list Z :=
  (λ row, Z.of_nat (argmax1 row)) <$> predictions.

(** Lines 1033-1040: the one-hot matrices of the outcomes and of the
    predicted classes, their product, and the labelled frame; the labels
    are made of [y_values], one per class. *)
Definition confusion (y : list Z) (predictions : matrix) (y_values : list Z)
    : outcome matrix :=
  match Sk.OneHotEncoder_fit_transform y,
        Sk.OneHotEncoder_fit_transform (class_pred predictions) with
  | Some y_onehot, Some class_pred_onehot =>
      match Np.dot (Np.transpose y_onehot) class_pred_onehot with
      | Some confusion_mat =>
          let labels := y_values in
          pd_DataFrame confusion_mat labels labels
      | None => Raised (ValueError "shapes not aligned")
      end
  | _, _ => Raised (ValueError "Found array with 0 sample(s)")
  end.


(* ================================================================== *)
(** * Proofs *)

(** ** Facts about sums *)

Lemma sum_nil : Np.sum [] = 0%Q.
Proof. reflexivity. Qed.

Lemma sum_cons (x : Q) (v : vector) : Np.sum (x :: v) = (x + Np.sum v)%Q.
Proof. reflexivity. Qed.

Lemma sum_div (v : vector) (d : Q) :
  (Np.sum ((λ x, x / d) <$> v) == Np.sum v / d)%Q.
Proof.
  induction v as [|x v IH]; csimpl.
  - rewrite sum_nil. unfold Qdiv. ring.
  - rewrite !sum_cons, IH. unfold Qdiv. ring.
Qed.

Lemma sum_nonneg (v : vector) : Forall (λ x, 0 <= x)%Q v → (0 <= Np.sum v)%Q.
Proof.
  induction 1 as [|x v Hx _ IH]; [rewrite sum_nil; lra|].
  rewrite sum_cons. lra.
Qed.

Lemma ltb0_spec (x : Q) : Np.ltb0 x = true ↔ (x < 0)%Q.
Proof.
  unfold Np.ltb0. rewrite negb_true_iff. split.
  - intros H. apply Qnot_le_lt. intros Hle.
    apply Qle_bool_iff in Hle. congruence.
  - intros H. destruct (Qle_bool 0 x) eqn:E; [|done].
    apply Qle_bool_iff in E. lra.
Qed.

Lemma clip_nonneg (x : Q) : (0 <= Np.clip x)%Q.
Proof.
  unfold Np.clip. destruct (Np.ltb0 x) eqn:E; [lra|].
  apply Qnot_lt_le. intros H. apply ltb0_spec in H. congruence.
Qed.

Lemma clip_ge (x : Q) : (x <= Np.clip x)%Q.
Proof.
  unfold Np.clip. destruct (Np.ltb0 x) eqn:E; [|lra].
  apply ltb0_spec in E. lra.
Qed.

(** The first differences of a row between the sentinels [a] and [b]
    telescope. *)
Lemma sum_diffs_telescope (row : vector) (a b : Q) :
  (Np.sum (zip_with Qminus (row ++ [b]) (a :: row)) == b - a)%Q.
Proof.
  revert a. induction row as [|x row IH]; intros a; simpl.
  - rewrite sum_cons, sum_nil. ring.
  - rewrite sum_cons, IH. ring.
Qed.

Lemma sum_clip_ge (v : vector) : (Np.sum v <= Np.sum (Np.clip <$> v))%Q.
Proof.
  induction v as [|x v IH]; csimpl; [lra|].
  rewrite !sum_cons. pose proof (clip_ge x). lra.
Qed.

Lemma clipped_diffs_rows (probs : matrix) :
  clipped_diffs probs = clipped_row <$> probs.
Proof.
  unfold clipped_diffs, first_differences, Np.clip_negative, Np.sub,
    Np.hstack_ones, Np.hstack_zeros.
  induction probs as [|row probs IH]; simpl; [done|].
  f_equal. apply IH.
Qed.

Lemma clipped_row_sum_ge_1 (row : vector) : (1 <= Np.sum (clipped_row row))%Q.
Proof.
  unfold clipped_row.
  pose proof (sum_clip_ge (zip_with Qminus (row ++ [1%Q]) (0%Q :: row))) as H.
  rewrite sum_diffs_telescope in H. lra.
Qed.

Lemma assemble_rows (probs : matrix) :
  assemble_class_probs probs =
  (λ row, (λ x, x / Np.sum (clipped_row row))%Q <$> clipped_row row) <$> probs.
Proof.
  unfold assemble_class_probs, Np.div_rows, Np.sum_axis1.
  rewrite clipped_diffs_rows.
  induction probs as [|row probs IH]; simpl; [done|].
  f_equal. apply IH.
Qed.

(** ** ProbabilityAssembler: the claims *)

Lemma normalized_row_ok (row : vector) :
  let out := (λ x, x / Np.sum (clipped_row row))%Q <$> clipped_row row in
  (Np.sum out == 1)%Q ∧ Forall (λ x, 0 <= x)%Q out.
Proof.
  pose proof (clipped_row_sum_ge_1 row) as Hs. split.
  - rewrite sum_div. field. lra.
  - apply Forall_fmap, Forall_forall. intros x Hx. simpl.
    assert (0 <= x)%Q as H0.
    { unfold clipped_row in Hx. apply list_elem_of_fmap in Hx as (y & -> & _).
      apply clip_nonneg. }
    apply Qle_shift_div_l; lra.
Qed.

(** C3. Whatever the cumulative probabilities are, monotone or not, every
    row of the assembled class probabilities sums to 1 (so it is within
    1e-9 of 1) and has no negative entry. *)
Theorem class_probs_rows_sum_to_one (probs : matrix) :
  Forall (λ row, (Np.sum row == 1)%Q
                 ∧ (Qabs (Np.sum row - 1) <= 1 # 1000000000)%Q
                 ∧ Forall (λ x, 0 <= x)%Q row)
         (assemble_class_probs probs).
Proof.
  rewrite assemble_rows. apply Forall_fmap, Forall_forall.
  intros row _. cbv beta.
  destruct (normalized_row_ok row) as [Hsum Hpos].
  split; [exact Hsum|]. split; [|exact Hpos].
  apply Qabs_case; intros; lra.
Qed.

Lemma normalizers_ge_1 (probs : matrix) :
  Forall (λ s, 1 <= s)%Q (normalizers probs).
Proof.
  unfold normalizers, Np.sum_axis1. rewrite clipped_diffs_rows.
  rewrite <- list_fmap_compose. apply Forall_fmap, Forall_forall.
  intros row _. simpl. apply clipped_row_sum_ge_1.
Qed.

(** C4. The assembly step raises exactly when some row of the differenced
    and clipped matrix sums to zero, returns normally whenever all these
    row sums are positive, and never divides by a zero row sum.  On the
    code neither side of the equivalence ever holds: the step has no
    raising statement, and the clipped differences of a row sum to at
    least 1. *)
Theorem class_probs_step_raises_iff_zero_row (probs : matrix) :
  ((∃ e, class_probs_step probs = Raised e)
     ↔ Exists (λ s, s == 0)%Q (normalizers probs))
  ∧ (Forall (λ s, 0 < s)%Q (normalizers probs)
     → class_probs_step probs = Returned (assemble_class_probs probs))
  ∧ Forall (λ s, ¬ (s == 0)%Q) (normalizers probs).
Proof.
  pose proof (normalizers_ge_1 probs) as Hge.
  assert (Forall (λ s, ¬ (s == 0)%Q) (normalizers probs)) as Hnz.
  { eapply Forall_impl; [exact Hge|]. intros s Hs Hz. simpl in Hs.
    rewrite Hz in Hs. lra. }
  split; [|split; [reflexivity|exact Hnz]].
  split.
  - intros [e He]. discriminate He.
  - intros Hex. exfalso. apply Exists_exists in Hex as (s & Hin & Hz).
    rewrite Forall_forall in Hnz. exact (Hnz s Hin Hz).
Qed.

Ltac mat_eq_compute :=
  repeat (first [apply Forall2_nil_2 | apply Forall2_cons_2]);
  vm_compute; reflexivity.

(** C7. For the cumulative row [0.9, 0.3] (three classes) the first
    differences are [0.9, -0.6, 0.7], the middle one is clipped to 0, the
    row sum is 1.6 and the class probabilities are
    [0.9/1.6, 0, 0.7/1.6]. *)
Theorem class_probs_scenario_nonmonotone :
  let probs := [[9 # 10; 3 # 10]]%Q in
  mat_eq (first_differences probs) [[9 # 10; - (6 # 10); 7 # 10]]%Q
  ∧ mat_eq (clipped_diffs probs) [[9 # 10; 0; 7 # 10]]%Q
  ∧ vec_eq (normalizers probs) [16 # 10]%Q
  ∧ mat_eq (assemble_class_probs probs)
           [[(9 # 10) / (16 # 10); 0; (7 # 10) / (16 # 10)]]%Q.
Proof.
  unfold mat_eq, vec_eq. repeat split; mat_eq_compute.
Qed.

(** ** NumPy set operations *)

Lemma unique_elem_of (l : list Z) (x : Z) : x ∈ Np.unique l ↔ x ∈ l.
Proof.
  unfold Np.unique. rewrite merge_sort_Permutation. apply elem_of_remove_dups.
Qed.

Lemma unique_NoDup (l : list Z) : NoDup (Np.unique l).
Proof.
  unfold Np.unique. rewrite merge_sort_Permutation. apply NoDup_remove_dups.
Qed.

Lemma unique_ext (l k : list Z) :
  (∀ x, x ∈ l ↔ x ∈ k) → Np.unique l = Np.unique k.
Proof.
  intros Hlk. apply (Sorted_unique Z.le).
  - apply Sorted_merge_sort; apply _.
  - apply Sorted_merge_sort; apply _.
  - apply NoDup_Permutation; [apply unique_NoDup..|].
    intros x. rewrite !unique_elem_of. apply Hlk.
Qed.

Lemma setdiff1d_elem_of (a b : list Z) (x : Z) :
  x ∈ Np.setdiff1d a b ↔ x ∈ a ∧ x ∉ b.
Proof.
  unfold Np.setdiff1d. rewrite unique_elem_of, list_elem_of_filter. tauto.
Qed.

(** ** One-hot rows and their inner products *)

Lemma inner_cons (a b : Q) (u v : vector) :
  Np.inner (a :: u) (b :: v) = (a * b + Np.inner u v)%Q.
Proof. reflexivity. Qed.

Lemma onehot_row_cons (c : Z) (cats : list Z) (x : Z) :
  Sk.onehot_row (c :: cats) x
  = (if (x =? c)%Z then 1%Q else 0%Q) :: Sk.onehot_row cats x.
Proof. reflexivity. Qed.

Lemma inner_onehot_notin (cats : list Z) (x y : Z) :
  x ∉ cats → Np.inner (Sk.onehot_row cats x) (Sk.onehot_row cats y) = 0%Q.
Proof.
  induction cats as [|c cats IH]; intros Hx; [reflexivity|].
  apply not_elem_of_cons in Hx as [Hxc Hx].
  rewrite !onehot_row_cons, inner_cons, (IH Hx).
  apply Z.eqb_neq in Hxc. rewrite Hxc.
  destruct (y =? c)%Z; reflexivity.
Qed.

Lemma inner_onehot (cats : list Z) (x y : Z) :
  NoDup cats → x ∈ cats →
  Np.inner (Sk.onehot_row cats x) (Sk.onehot_row cats y)
  = if (x =? y)%Z then 1%Q else 0%Q.
Proof.
  induction 1 as [|c cats Hc Hnd IH]; intros Hx; [by apply elem_of_nil in Hx|].
  rewrite !onehot_row_cons, inner_cons.
  destruct (decide (x = c)) as [->|Hxc].
  - rewrite (inner_onehot_notin cats c y Hc), Z.eqb_refl.
    rewrite (Z.eqb_sym y c). destruct (c =? y)%Z; reflexivity.
  - apply elem_of_cons in Hx as [?|Hx]; [done|]. rewrite (IH Hx).
    apply Z.eqb_neq in Hxc. rewrite Hxc.
    destruct (y =? c)%Z eqn:Hyc.
    + apply Z.eqb_eq in Hyc as ->. rewrite Hxc. reflexivity.
    + destruct (x =? y)%Z; reflexivity.
Qed.

Lemma sum_same_leaf_notin (x : Z) (l : list Z) :
  x ∉ l → Forall (λ w, w = 0%Q) (same_leaf x <$> l)
          ∧ (Np.sum (same_leaf x <$> l) == 0)%Q.
Proof.
  induction l as [|y l IH]; intros Hx; csimpl.
  - split; [constructor|reflexivity].
  - apply not_elem_of_cons in Hx as [Hxy Hx]. destruct (IH Hx) as [IH1 IH2].
    assert (same_leaf x y = 0%Q) as Hy.
    { unfold same_leaf. apply Z.eqb_neq in Hxy. by rewrite Hxy. }
    split; [by constructor|]. rewrite sum_cons, Hy, IH2. reflexivity.
Qed.

Lemma sum_same_leaf_nonneg (x : Z) (l : list Z) :
  (0 <= Np.sum (same_leaf x <$> l))%Q.
Proof.
  apply sum_nonneg, Forall_fmap, Forall_forall. intros y _. simpl.
  unfold same_leaf. destruct (x =? y)%Z; lra.
Qed.

Lemma sum_same_leaf_in (x : Z) (l : list Z) :
  x ∈ l → (1 <= Np.sum (same_leaf x <$> l))%Q.
Proof.
  induction l as [|y l IH]; intros Hx; [by apply elem_of_nil in Hx|].
  csimpl. rewrite sum_cons.
  pose proof (sum_same_leaf_nonneg x l) as Hge.
  destruct (decide (x = y)) as [->|Hxy].
  - unfold same_leaf at 1. rewrite Z.eqb_refl. lra.
  - apply elem_of_cons in Hx as [?|Hx]; [done|]. specialize (IH Hx).
    unfold same_leaf at 1. destruct (x =? y)%Z; lra.
Qed.

Lemma sum_const_zero (l : list nat) : (Np.sum ((λ _, 0%Q) <$> l) == 0)%Q.
Proof.
  induction l as [|x l IH]; csimpl; [reflexivity|].
  rewrite sum_cons, IH. ring.
Qed.

Lemma sum_app (u v : vector) : (Np.sum (u ++ v) == Np.sum u + Np.sum v)%Q.
Proof.
  induction u as [|x u IH]; csimpl.
  - rewrite sum_nil. ring.
  - rewrite !sum_cons, IH. ring.
Qed.

(** ** Transposition and product *)

Lemma fmap_get_seq (row : vector) :
  (λ c, Np.get row c) <$> seq 0 (length row) = row.
Proof.
  apply list_eq. intros i. rewrite list_lookup_fmap.
  destruct (decide (i < length row)) as [Hi|Hi].
  - rewrite lookup_seq_lt by done. simpl. unfold Np.get.
    destruct (lookup_lt_is_Some_2 row i Hi) as [x ->]. reflexivity.
  - rewrite (lookup_ge_None_2 (seq 0 _)) by (rewrite length_seq; lia).
    rewrite lookup_ge_None_2 by lia. reflexivity.
Qed.

Lemma width_rect (M : matrix) (L : nat) :
  M ≠ [] → Forall (λ r, length r = L) M → Np.width M = L.
Proof. destruct M as [|r M]; [done|]. intros _ H. by inversion H. Qed.

Lemma length_transpose (M : matrix) : length (Np.transpose M) = Np.width M.
Proof. unfold Np.transpose. by rewrite length_fmap, length_seq. Qed.

Lemma width_transpose (M : matrix) :
  0 < Np.width M → Np.width (Np.transpose M) = length M.
Proof.
  unfold Np.transpose. destruct (Np.width M) as [|n]; [lia|]. intros _.
  simpl. unfold Np.col. by rewrite length_fmap.
Qed.

Lemma col_transpose (M : matrix) (j : nat) (row : vector) :
  Forall (λ r, length r = Np.width M) M → M !! j = Some row →
  Np.col j (Np.transpose M) = row.
Proof.
  intros Hrect Hj. unfold Np.transpose, Np.col at 1.
  rewrite <- list_fmap_compose.
  assert (length row = Np.width M) as <-.
  { rewrite Forall_forall in Hrect. apply Hrect.
    by eapply list_elem_of_lookup_2. }
  rewrite <- (fmap_get_seq row) at 2. apply list_fmap_ext.
  intros i c _. simpl. unfold Np.col, Np.get at 1.
  rewrite list_lookup_fmap, Hj. reflexivity.
Qed.

Lemma dot_transpose (A H : matrix) (L : nat) :
  H ≠ [] → 0 < L →
  Forall (λ r, length r = L) H → Forall (λ r, length r = L) A →
  Np.dot A (Np.transpose H) = Some ((λ rowA, Np.inner rowA <$> H) <$> A).
Proof.
  intros Hne HL HH HA. pose proof (width_rect H L Hne HH) as Hw.
  unfold Np.dot. rewrite length_transpose, Hw.
  assert (forallb (λ row, length row =? L) A = true) as ->.
  { apply forallb_forall. intros r Hr. apply Nat.eqb_eq.
    rewrite Forall_forall in HA. apply HA. by apply list_elem_of_In. }
  f_equal. apply list_fmap_ext. intros _ rowA _.
  rewrite width_transpose by lia.
  apply list_eq. intros j. rewrite !list_lookup_fmap.
  destruct (H !! j) as [row|] eqn:Hj.
  - rewrite lookup_seq_lt by (by eapply lookup_lt_Some). simpl.
    rewrite (col_transpose H j row); [done| |done]. by rewrite Hw.
  - rewrite (lookup_ge_None_2 (seq 0 _)); [done|].
    rewrite length_seq. by apply lookup_ge_None.
Qed.

(** ** The product of the two one-hot matrices *)

Lemma onehot_Some (col : list Z) :
  col ≠ [] →
  Sk.OneHotEncoder_fit_transform col
  = Some (Sk.onehot_row (Np.unique col) <$> col).
Proof. by destruct col. Qed.

Lemma unique_nonempty (l : list Z) : l ≠ [] → 0 < length (Np.unique l).
Proof.
  destruct l as [|x l]; [done|]. intros _.
  assert (x ∈ Np.unique (x :: l)) as Hx by (apply unique_elem_of; left).
  destruct (Np.unique (x :: l)); [by apply elem_of_nil in Hx|simpl; lia].
Qed.

Lemma onehot_product (hext aext : list Z) (n : nat) :
  hext ≠ [] → aext ≠ [] → Np.unique hext = Np.unique aext →
  (onehot_honest ← Np.transpose <$> Sk.OneHotEncoder_fit_transform hext;
   onehot_all ← Sk.OneHotEncoder_fit_transform aext;
   Np.dot (take n onehot_all) onehot_honest)
  = Some ((λ x, same_leaf x <$> hext) <$> take n aext).
Proof.
  intros Hh Ha Hcats. rewrite !onehot_Some by done. simpl.
  rewrite <- Hcats. set (cats := Np.unique hext).
  rewrite (dot_transpose _ _ (length cats)).
  - f_equal. rewrite <- fmap_take, <- list_fmap_compose.
    apply list_fmap_ext. intros i x Hx. simpl.
    rewrite <- list_fmap_compose. apply list_fmap_ext. intros _ y _. simpl.
    apply inner_onehot; [apply unique_NoDup|].
    unfold cats. rewrite Hcats. apply unique_elem_of.
    apply list_elem_of_lookup_2 in Hx. by eapply subseteq_take.
  - by destruct hext.
  - by apply unique_nonempty.
  - apply Forall_fmap, Forall_forall. intros x _. simpl.
    unfold Sk.onehot_row. by rewrite length_fmap.
  - apply Forall_take, Forall_fmap, Forall_forall. intros x _. simpl.
    unfold Sk.onehot_row. by rewrite length_fmap.
Qed.

Lemma extra_honest_spec (honest all : list Z) (x : Z) :
  x ∈ all → (x ∈ honest ∧ x ∉ extra_honest honest all)
            ∨ ((x ∉ honest) ∧ x ∈ extra_honest honest all).
Proof.
  intros Hx. unfold extra_honest, Np.array_equal. case_bool_decide as Heq.
  - left. split; [|apply not_elem_of_nil].
    apply unique_elem_of. rewrite Heq. by apply unique_elem_of.
  - destruct (decide (x ∈ honest)) as [Hh|Hh].
    + left. split; [done|]. rewrite setdiff1d_elem_of, !unique_elem_of. tauto.
    + right. split; [done|]. rewrite setdiff1d_elem_of, !unique_elem_of. tauto.
Qed.

(** What [honest_weight_numpy_out] divides, and by what: row [i] holds the
    co-occupation indicators of evaluation observation [i] with the honest
    observations, and its divisor counts the honest observations and
    placeholders in its leaf. *)
Lemma tree_weight_parts_spec (honest all : list Z) :
  all ≠ [] →
  tree_weight_parts honest all (length all) (length honest)
  = Some ((λ x, same_leaf x <$> honest) <$> all,
          (λ x, Np.sum (same_leaf x <$> honest ++ extra_honest honest all))
            <$> all).
Proof.
  intros Hall. unfold tree_weight_parts, extra_honest, Np.array_equal.
  case_bool_decide as Heq; simpl.
  - assert (honest ≠ []) as Hh.
    { intros ->. destruct all as [|x all]; [done|].
      assert (x ∈ Np.unique (x :: all)) as Hx by (apply unique_elem_of; left).
      rewrite <- Heq in Hx. apply unique_elem_of in Hx.
      by apply elem_of_nil in Hx. }
    pose proof (onehot_product honest all (length all) Hh Hall Heq) as Hp.
    rewrite firstn_all in Hp. simpl in Hp.
    destruct (Np.transpose <$> Sk.OneHotEncoder_fit_transform honest)
      as [oh|]; [|done]. simpl in *.
    destruct (Sk.OneHotEncoder_fit_transform all) as [oa|]; [|done].
    simpl in *. rewrite Hp. simpl. rewrite app_nil_r. f_equal. f_equal.
    unfold Np.sum_axis1. by rewrite <- list_fmap_compose.
  - set (eh := Np.setdiff1d (Np.unique all) (Np.unique honest)).
    set (ea := Np.setdiff1d (Np.unique honest) (Np.unique all)).
    assert (honest ++ eh ≠ []) as Hh.
    { destruct all as [|x all]; [done|]. intros Hnil.
      apply app_eq_nil in Hnil as [-> Hnil].
      assert (x ∈ eh) as Hx.
      { unfold eh. rewrite setdiff1d_elem_of, !unique_elem_of.
        split; [left|apply not_elem_of_nil]. }
      rewrite Hnil in Hx. by apply elem_of_nil in Hx. }
    assert (all ++ ea ≠ []) as Ha by (by destruct all).
    assert (Np.unique (honest ++ eh) = Np.unique (all ++ ea)) as Hcats.
    { apply unique_ext. intros x. unfold eh, ea.
      rewrite !elem_of_app, !setdiff1d_elem_of, !unique_elem_of.
      destruct (decide (x ∈ honest)), (decide (x ∈ all)); tauto. }
    pose proof (onehot_product _ _ (length all) Hh Ha Hcats) as Hp.
    rewrite take_app_length in Hp.
    destruct (Np.transpose <$> Sk.OneHotEncoder_fit_transform (honest ++ eh))
      as [oh|]; [|done]. simpl in *.
    destruct (Sk.OneHotEncoder_fit_transform (all ++ ea)) as [oa|]; [|done].
    simpl in *. rewrite Hp. simpl. f_equal. f_equal.
    + rewrite take_ge by (by rewrite length_fmap).
      rewrite <- list_fmap_compose. apply list_fmap_ext. intros _ x _. simpl.
      by rewrite fmap_app, take_app_length' by (by rewrite length_fmap).
    + unfold Np.sum_axis1. by rewrite <- list_fmap_compose.
Qed.

Lemma tree_weight_spec (honest all : list Z) :
  all ≠ [] →
  tree_weight honest all (length all) (length honest)
  = Some ((λ x, (λ w, w / Np.sum (same_leaf x <$> honest
                                     ++ extra_honest honest all))%Q
                <$> (same_leaf x <$> honest)) <$> all).
Proof.
  intros Hall. unfold tree_weight.
  rewrite (tree_weight_parts_spec honest all Hall). simpl. f_equal.
  unfold Np.div_rows. generalize (extra_honest honest all). intros eh.
  induction all as [|x all' IH]; [done|]. csimpl. f_equal.
  destruct all' as [|y all'']; [done|]. by apply IH.
Qed.

(** ** TreeWeighter: the claim *)

(** C1. For the honest and evaluation leaf-id columns of one tree,
    [honest_weight_numpy_out] (and the method [honest_weight_numpy], the
    same code) returns a matrix whose row for an evaluation observation
    sums to 1 when its leaf holds an honest observation and is all zeros
    when it holds none; the divisor of every such row is not zero. *)
Theorem tree_weight_row_sums (tree : nat)
    (forest_apply forest_apply_all : list (list Z))
    (honest all : list Z) (i : nat) (x : Z) :
  Np.column tree forest_apply = Some honest →
  Np.column tree forest_apply_all = Some all →
  all !! i = Some x →
  ∃ (tree_out : matrix) (leaf_size : vector) (M : matrix) (row : vector)
    (size : Q),
    tree_weight_parts honest all (length all) (length honest)
      = Some (tree_out, leaf_size)
    ∧ honest_weight_numpy_out tree forest_apply forest_apply_all
        (length all) (length honest) = Some M
    ∧ honest_weight_numpy tree forest_apply forest_apply_all
        (length all) (length honest) = Some M
    ∧ M = Np.div_rows tree_out leaf_size
    ∧ M !! i = Some row
    ∧ leaf_size !! i = Some size
    ∧ ¬ (size == 0)%Q
    ∧ length row = length honest
    ∧ (x ∈ honest → (Np.sum row == 1)%Q)
    ∧ (x ∉ honest → Forall (λ w, w == 0)%Q row ∧ (Np.sum row == 0)%Q).
Proof.
  intros Hh Ha Hi.
  assert (all ≠ []) as Hall by (intros ->; by rewrite lookup_nil in Hi).
  set (eh := extra_honest honest all).
  set (size := Np.sum (same_leaf x <$> honest ++ eh)).
  assert (x ∈ all) as Hx by (by eapply list_elem_of_lookup_2).
  assert (1 <= size)%Q as Hsize.
  { unfold size. apply sum_same_leaf_in. rewrite elem_of_app.
    destruct (extra_honest_spec honest all x Hx) as [[? _]|[_ ?]]; auto. }
  eexists _, _, _, ((λ w, w / size)%Q <$> (same_leaf x <$> honest)), size.
  split; [apply (tree_weight_parts_spec honest all Hall)|].
  assert (tree_weight honest all (length all) (length honest)
          = Some (Np.div_rows ((λ x, same_leaf x <$> honest) <$> all)
                    ((λ x, Np.sum (same_leaf x <$> honest ++ eh)) <$> all)))
    as Htw.
  { unfold tree_weight. by rewrite (tree_weight_parts_spec honest all Hall). }
  split; [unfold honest_weight_numpy_out; by rewrite Hh, Ha|].
  split; [unfold honest_weight_numpy; by rewrite Hh, Ha|].
  split; [reflexivity|].
  split.
  { unfold Np.div_rows. rewrite lookup_zip_with, !list_lookup_fmap, Hi.
    reflexivity. }
  split; [by rewrite list_lookup_fmap, Hi|].
  split; [intros Hz; rewrite Hz in Hsize; lra|].
  split; [by rewrite !length_fmap|].
  split.
  - intros Hin. rewrite sum_div.
    destruct (extra_honest_spec honest all x Hx) as [[_ Hne]|[Hno _]];
      [|done].
    assert (Np.sum (same_leaf x <$> honest) == size)%Q as ->.
    { unfold size. rewrite fmap_app, sum_app.
      destruct (sum_same_leaf_notin x eh Hne) as [_ ->]. ring. }
    field. intros Hz. rewrite Hz in Hsize. lra.
  - intros Hno. destruct (sum_same_leaf_notin x honest Hno) as [Hall0 Hsum0].
    split.
    + apply Forall_fmap. eapply Forall_impl; [exact Hall0|].
      intros w ->. simpl. unfold Qdiv. ring.
    + rewrite sum_div, Hsum0. unfold Qdiv. ring.
Qed.

(** ** Shapes and entries *)

Lemma entry_lookup (M : matrix) (i j : nat) (row : vector) (x : Q) :
  M !! i = Some row → row !! j = Some x → Np.entry M i j = x.
Proof. intros Hi Hj. unfold Np.entry. rewrite Hi. simpl. by rewrite Hj. Qed.

Lemma has_shape_lookup (n m : nat) (M : matrix) (i j : nat) :
  has_shape n m M → i < n → j < m →
  ∃ row, M !! i = Some row ∧ row !! j = Some (Np.entry M i j).
Proof.
  intros [Hn Hm] Hi Hj.
  destruct (lookup_lt_is_Some_2 M i) as [row Hrow]; [lia|].
  assert (length row = m) as Hlen.
  { rewrite Forall_forall in Hm. apply Hm. by eapply list_elem_of_lookup_2. }
  destruct (lookup_lt_is_Some_2 row j) as [x Hx]; [lia|].
  exists row. split; [done|]. by rewrite (entry_lookup M i j row x).
Qed.

Lemma mat_eq_entries (n m : nat) (A B : matrix) :
  has_shape n m A → has_shape n m B →
  (∀ i j, i < n → j < m → (Np.entry A i j == Np.entry B i j)%Q) →
  mat_eq A B.
Proof.
  intros HA HB Hent. unfold mat_eq.
  apply Forall2_same_length_lookup_2; [destruct HA, HB; congruence|].
  intros i ra rb Hra Hrb.
  assert (i < n) as Hi by (destruct HA as [<- _]; by eapply lookup_lt_Some).
  assert (length ra = m) as Hla.
  { destruct HA as [_ HA]. rewrite Forall_forall in HA. apply HA.
    by eapply list_elem_of_lookup_2. }
  assert (length rb = m) as Hlb.
  { destruct HB as [_ HB]. rewrite Forall_forall in HB. apply HB.
    by eapply list_elem_of_lookup_2. }
  unfold vec_eq. apply Forall2_same_length_lookup_2; [congruence|].
  intros j x y Hx Hy.
  assert (j < m) as Hj by (rewrite <- Hla; by eapply lookup_lt_Some).
  rewrite <- (entry_lookup A i j ra x), <- (entry_lookup B i j rb y) by done.
  by apply Hent.
Qed.

Lemma zeros_shape (n m : nat) : has_shape n m (Np.zeros n m).
Proof.
  unfold Np.zeros. split; [by rewrite length_replicate|].
  apply Forall_replicate. by rewrite length_replicate.
Qed.

Lemma entry_zeros (n m i j : nat) : Np.entry (Np.zeros n m) i j = 0%Q.
Proof.
  unfold Np.entry, Np.zeros.
  destruct (decide (i < n)) as [Hi|Hi].
  - rewrite lookup_replicate_2 by done. simpl.
    destruct (decide (j < m)) as [Hj|Hj].
    + by rewrite lookup_replicate_2.
    + by rewrite lookup_ge_None_2 by (rewrite length_replicate; lia).
  - by rewrite lookup_ge_None_2 by (rewrite length_replicate; lia).
Qed.

Lemma add_shape (n m : nat) (A B : matrix) :
  has_shape n m A → has_shape n m B → has_shape n m (Np.add A B).
Proof.
  intros [HA1 HA2] [HB1 HB2]. unfold Np.add. split.
  - rewrite length_zip_with. lia.
  - apply Forall_forall. intros row Hrow.
    apply list_elem_of_lookup in Hrow as [i Hrow].
    apply lookup_zip_with_Some in Hrow as (ra & rb & -> & Hra & Hrb).
    rewrite Forall_forall in HA2, HB2.
    rewrite length_zip_with, (HA2 ra), (HB2 rb);
      [lia|by eapply list_elem_of_lookup_2..].
Qed.

Lemma entry_add (n m : nat) (A B : matrix) (i j : nat) :
  has_shape n m A → has_shape n m B → i < n → j < m →
  Np.entry (Np.add A B) i j = (Np.entry A i j + Np.entry B i j)%Q.
Proof.
  intros HA HB Hi Hj.
  destruct (has_shape_lookup n m A i j HA Hi Hj) as (ra & Hra & Hxa).
  destruct (has_shape_lookup n m B i j HB Hi Hj) as (rb & Hrb & Hxb).
  apply (entry_lookup _ i j (zip_with Qplus ra rb)).
  - unfold Np.add. by rewrite lookup_zip_with, Hra, Hrb.
  - by rewrite lookup_zip_with, Hxa, Hxb.
Qed.

Lemma foldl_add_spec (n m : nat) (Ms : list matrix) (acc : matrix) :
  Forall (has_shape n m) Ms → has_shape n m acc →
  has_shape n m (foldl Np.add acc Ms)
  ∧ ∀ i j, i < n → j < m →
      (Np.entry (foldl Np.add acc Ms) i j
       == Np.entry acc i j + Np.sum ((λ M, Np.entry M i j) <$> Ms))%Q.
Proof.
  intros HMs. revert acc. induction HMs as [|M Ms HM _ IH]; intros acc Hacc.
  - split; [done|]. intros i j _ _. csimpl. rewrite sum_nil. ring.
  - destruct (IH (Np.add acc M) (add_shape n m acc M Hacc HM)) as [IH1 IH2].
    split; [exact IH1|]. intros i j Hi Hj. csimpl.
    rewrite (IH2 i j Hi Hj), (entry_add n m acc M i j), sum_cons by done.
    ring.
Qed.

Lemma sum_axis0_spec (n m : nat) (Ms : list matrix) :
  Ms ≠ [] → Forall (has_shape n m) Ms →
  has_shape n m (Np.sum_axis0 Ms)
  ∧ ∀ i j, i < n → j < m →
      Np.entry (Np.sum_axis0 Ms) i j = Np.sum ((λ M, Np.entry M i j) <$> Ms).
Proof.
  destruct Ms as [|M0 Ms]; [done|]. intros _ HMs.
  assert (has_shape n m M0) as H0 by (by inversion HMs).
  unfold Np.sum_axis0. split.
  - destruct H0 as [H01 H02]. split; [by rewrite length_imap|].
    apply Forall_forall. intros row Hrow.
    apply list_elem_of_lookup in Hrow as [i Hrow].
    rewrite list_lookup_imap in Hrow.
    destruct (M0 !! i) as [row0|] eqn:Hrow0; [|done].
    simpl in Hrow. injection Hrow as <-. rewrite length_imap.
    rewrite Forall_forall in H02. apply H02. by eapply list_elem_of_lookup_2.
  - intros i j Hi Hj.
    destruct (has_shape_lookup n m M0 i j H0 Hi Hj) as (row0 & Hrow0 & Hx0).
    eapply entry_lookup.
    + by rewrite list_lookup_imap, Hrow0.
    + by rewrite list_lookup_imap, Hx0.
Qed.

Lemma div_scalar_mat_eq (A B : matrix) (c : Q) :
  mat_eq A B → mat_eq (Np.div_scalar A c) (Np.div_scalar B c).
Proof.
  unfold mat_eq, vec_eq, Np.div_scalar. intros HAB.
  apply Forall2_fmap. eapply Forall2_impl; [exact HAB|].
  intros ra rb Hr. apply Forall2_fmap. eapply Forall2_impl; [exact Hr|].
  intros x y Hxy. simpl. by rewrite Hxy.
Qed.

(** ** ForestAggregator: the claim *)

Lemma tree_weight_shape (honest all : list Z) (M : matrix) :
  tree_weight honest all (length all) (length honest) = Some M →
  has_shape (length all) (length honest) M.
Proof.
  destruct (decide (all = [])) as [->|Hall].
  - unfold tree_weight, tree_weight_parts. simpl.
    destruct (Np.transpose <$> _) as [oh|]; [|done]. simpl.
    destruct (Sk.OneHotEncoder_fit_transform _) as [oa|]; [|done]. simpl.
    destruct (negb _); simpl; intros [= <-]; by split.
  - rewrite (tree_weight_spec honest all Hall). intros [= <-]. split.
    + by rewrite length_fmap.
    + apply Forall_fmap, Forall_forall. intros x _. simpl.
      by rewrite !length_fmap.
Qed.

Lemma column_length {A : Type} (j : nat) (M : list (list A)) (c : list A) :
  Np.column j M = Some c → length c = length M.
Proof. intros H. symmetry. by eapply length_mapM. Qed.

Lemma honest_weight_shape (tree : nat)
    (forest_apply forest_apply_all : list (list Z)) (M : matrix) :
  honest_weight_numpy_out tree forest_apply forest_apply_all
    (length forest_apply_all) (length forest_apply) = Some M →
  has_shape (length forest_apply_all) (length forest_apply) M.
Proof.
  unfold honest_weight_numpy_out.
  destruct (Np.column tree forest_apply) as [honest|] eqn:Hh; [|done].
  destruct (Np.column tree forest_apply_all) as [all|] eqn:Ha; [|done].
  simpl. rewrite <- (column_length _ _ _ Hh), <- (column_length _ _ _ Ha).
  apply tree_weight_shape.
Qed.

Lemma column_Some {A : Type} (j : nat) (M : list (list A)) :
  Forall (λ row, j < length row) M → is_Some (Np.column j M).
Proof.
  intros HM. unfold Np.column. apply mapM_is_Some.
  eapply Forall_impl; [exact HM|]. intros row Hrow. simpl.
  by apply lookup_lt_is_Some_2.
Qed.

Lemma honest_weight_returns (tree : nat)
    (forest_apply forest_apply_all : list (list Z)) :
  forest_apply_all ≠ [] →
  Forall (λ row, tree < length row) forest_apply →
  Forall (λ row, tree < length row) forest_apply_all →
  is_Some (honest_weight_numpy_out tree forest_apply forest_apply_all
             (length forest_apply_all) (length forest_apply)).
Proof.
  intros Hne Hfa Hfaa. unfold honest_weight_numpy_out.
  destruct (column_Some tree forest_apply Hfa) as [honest Hh].
  destruct (column_Some tree forest_apply_all Hfaa) as [all Ha].
  rewrite Hh, Ha. simpl.
  rewrite <- (column_length _ _ _ Hh), <- (column_length _ _ _ Ha).
  rewrite tree_weight_spec; [by eexists|].
  intros ->. apply column_length in Ha. by destruct forest_apply_all.
Qed.

Section Aggregation.
Variables (forest_apply forest_apply_all : list (list Z)).
Variables (n_samples n_est : nat).

Let per_tree (tree : nat) : option matrix :=
  honest_weight_numpy_out tree forest_apply forest_apply_all n_samples n_est.

Let step (forest_out : option matrix) (tree : nat) : option matrix :=
  forest_out ← forest_out;
  tree_out ← per_tree tree;
  Some (Np.add forest_out tree_out).

Lemma loop_raised (trees : list nat) : foldl step None trees = None.
Proof. induction trees as [|t trees IH]; [done|]. exact IH. Qed.

(** The sequential loop adds up, from the left, what the pool
    collects. *)
Lemma loop_as_map (trees : list nat) (acc : matrix) :
  foldl step (Some acc) trees
  = (trees_out ← mapM per_tree trees; Some (foldl Np.add acc trees_out)).
Proof.
  revert acc. induction trees as [|t trees IH]; intros acc; [done|].
  csimpl. destruct (per_tree t) as [M|]; simpl; [|apply loop_raised].
  rewrite IH. by destruct (mapM per_tree trees).
Qed.
End Aggregation.

(** C5. On the same leaf-id matrices and tree count, the sequential
    strategy [numpy_loop] and the map-then-reduce strategy
    [numpy_loop_mpire] give equal forest weights over exact arithmetic:
    both raise, or both return the sum of the same per-tree matrices
    divided by the number of trees; and they return when every tree has
    its leaf-id column. *)
Theorem aggregation_strategies_agree (n_estimators : nat)
    (forest_apply forest_apply_all : list (list Z)) :
  0 < n_estimators →
  let n_samples := length forest_apply_all in
  let n_est := length forest_apply in
  option_Forall2 mat_eq
    (forest_weights numpy_loop n_estimators forest_apply forest_apply_all
       n_samples n_est)
    (forest_weights numpy_loop_mpire n_estimators forest_apply
       forest_apply_all n_samples n_est)
  ∧ (forest_apply_all ≠ [] →
     Forall (λ row, n_estimators ≤ length row) forest_apply →
     Forall (λ row, n_estimators ≤ length row) forest_apply_all →
     is_Some (forest_weights numpy_loop n_estimators forest_apply
                forest_apply_all n_samples n_est)).
Proof.
  intros Hn n_samples n_est.
  set (f := λ tree, honest_weight_numpy_out tree forest_apply
                      forest_apply_all n_samples n_est).
  assert (forest_out_numpy_loop n_estimators forest_apply forest_apply_all
            n_samples n_est
          = (trees_out ← mapM f (seq 0 n_estimators);
             Some (foldl Np.add (Np.zeros n_samples n_est) trees_out)))
    as Hloop by apply loop_as_map.
  split.
  - unfold forest_weights. rewrite Hloop. unfold forest_out_numpy_loop_mpire.
    change (mapM _ (seq 0 n_estimators)) with (mapM f (seq 0 n_estimators)).
    destruct (mapM f (seq 0 n_estimators)) as [Ms|] eqn:HMs; simpl;
      [|constructor].
    constructor. apply div_scalar_mat_eq.
    assert (Forall (has_shape n_samples n_est) Ms) as Hshape.
    { apply mapM_Some in HMs. apply Forall_forall. intros M HM.
      apply list_elem_of_lookup in HM as [t HM].
      destruct (Forall2_lookup_r _ _ _ _ _ HMs HM) as (tree & _ & Htree).
      by apply honest_weight_shape in Htree. }
    assert (Ms ≠ []) as Hne.
    { apply length_mapM in HMs. rewrite length_seq in HMs.
      destruct Ms; [simpl in HMs; lia|done]. }
    destruct (foldl_add_spec n_samples n_est Ms _ Hshape
                (zeros_shape n_samples n_est)) as [Hs1 He1].
    destruct (sum_axis0_spec n_samples n_est Ms Hne Hshape) as [Hs2 He2].
    apply (mat_eq_entries n_samples n_est); [done..|].
    intros i j Hi Hj. rewrite (He1 i j Hi Hj), (He2 i j Hi Hj), entry_zeros.
    ring.
  - intros Hne Hfa Hfaa. unfold forest_weights. rewrite Hloop.
    assert (is_Some (mapM f (seq 0 n_estimators))) as [Ms ->];
      [|by eexists].
    apply mapM_is_Some, Forall_forall. intros tree Htree.
    apply elem_of_seq in Htree. apply honest_weight_returns; [done|..].
    + eapply Forall_impl; [exact Hfa|]. intros row Hrow. simpl in *. lia.
    + eapply Forall_impl; [exact Hfaa|]. intros row Hrow. simpl in *. lia.
Qed.

(** ** Loops *)

Lemma for_range_raised {St : Type} (body : nat → St → option St) (l : list nat) :
  foldl (λ acc i, acc ≫= body i) None l = None.
Proof. induction l as [|i l IH]; [done|]. exact IH. Qed.

(** The invariant rule of [for i in range(lo, hi)]. *)
Lemma for_range_inv {St : Type} (Inv : nat → St → Prop) (lo hi : nat)
    (body : nat → St → option St) (s : St) :
  lo ≤ hi → Inv lo s →
  (∀ k s, lo ≤ k < hi → Inv k s → ∃ s', body k s = Some s' ∧ Inv (k + 1) s') →
  ∃ s', for_range lo hi body s = Some s' ∧ Inv hi s'.
Proof.
  unfold for_range. intros Hle. remember (hi - lo) as d eqn:Hd.
  revert lo s Hle Hd. induction d as [|d IH]; intros lo s Hle Hd Hinv Hbody.
  - exists s. assert (hi = lo) as -> by lia. done.
  - destruct (Hbody lo s) as (s1 & Hs1 & Hinv1); [lia|done|].
    simpl. rewrite Hs1. replace (lo + 1) with (S lo) in Hinv1 by lia.
    apply (IH (S lo) s1); [lia|lia|done|].
    intros k s2 Hk. apply Hbody. lia.
Qed.

(** A loop that stores [G k] under the key [key k] for every [k] of the
    range. *)
Lemma for_range_insert {V : Type} (key : nat → nat) (G : nat → V)
    (lo hi : nat) (body : nat → gmap nat V → option (gmap nat V))
    (m0 : gmap nat V) :
  lo ≤ hi →
  (∀ k k', key k = key k' → k = k') →
  (∀ k m, lo ≤ k < hi → body k m = Some (<[key k := G k]> m)) →
  ∃ m, for_range lo hi body m0 = Some m
       ∧ (∀ k, lo ≤ k < hi → m !! key k = Some (G k))
       ∧ (∀ c, (∀ k, lo ≤ k < hi → c ≠ key k) → m !! c = m0 !! c).
Proof.
  intros Hle Hinj Hbody.
  destruct (for_range_inv
    (λ n m, (∀ k, lo ≤ k < n → m !! key k = Some (G k))
            ∧ (∀ c, (∀ k, lo ≤ k < n → c ≠ key k) → m !! c = m0 !! c))
    lo hi body m0 Hle) as (m & Hm & Hinv).
  - split; [intros k Hk; lia|done].
  - intros n m Hn [H1 H2]. exists (<[key n := G n]> m).
    split; [by apply Hbody|]. split.
    + intros k Hk. destruct (decide (k = n)) as [->|Hkn].
      * by rewrite lookup_insert_eq.
      * rewrite lookup_insert_ne; [apply H1; lia|].
        intros Heq. apply Hinj in Heq. lia.
    + intros c Hc. rewrite lookup_insert_ne; [|intros Heq; eapply Hc; [|done]; lia].
      apply H2. intros k Hk. apply Hc. lia.
  - by exists m.
Qed.

(** ** VarianceEstimator: the phases *)

Lemma column_col (j : nat) (M : matrix) (m : nat) :
  Forall (λ row, length row = m) M → j < m →
  Np.column j M = Some (Np.col j M).
Proof.
  intros HM Hj. unfold Np.column, Np.col. apply mapM_Some.
  apply Forall2_fmap_r, Forall_Forall2_diag.
  eapply Forall_impl; [exact HM|]. intros row Hrow. simpl in *.
  destruct (lookup_lt_is_Some_2 row j) as [x Hx]; [lia|].
  unfold Np.get. by rewrite Hx.
Qed.

Lemma postpend_zeros_spec {V : Type} (z : V → V) (nclass : nat)
    (d : gmap nat V) (d1 : V) :
  d !! 1 = Some d1 → postpend_zeros z nclass d = Some (<[nclass := z d1]> d).
Proof. intros H. unfold postpend_zeros. by rewrite H. Qed.

Lemma prepend_zeros_spec {V : Type} (z : V → V) (nclass : nat)
    (d : gmap nat V) (G : nat → V) :
  2 ≤ nclass → (∀ k, 1 ≤ k < nclass → d !! k = Some (G k)) →
  ∃ d_first, prepend_zeros z nclass d = Some d_first
    ∧ d_first !! 1 = Some (z (G 1))
    ∧ ∀ k, 1 ≤ k < nclass → d_first !! (k + 1) = Some (G k).
Proof.
  intros Hn Hd. unfold prepend_zeros. rewrite (Hd 1) by lia. simpl.
  match goal with |- context [for_range 1 nclass ?b ?m0] =>
    destruct (for_range_insert (λ k, k + 1) G 1 nclass b m0)
      as (m & Hm & Hin & Hout)
  end.
  - lia.
  - intros k k'. lia.
  - intros k m Hk. simpl. by rewrite (Hd k Hk).
  - exists m. split; [done|]. split; [|done].
    rewrite Hout; [by rewrite lookup_insert_eq|]. intros k Hk. lia.
Qed.

Section VariancePhases.
Variables (probs : matrix) (weights : gmap nat matrix).
Variables (outcome_binary : gmap nat vector).
Variables (nclass n_honest rows : nat) (n : Z).
Hypothesis Hnclass : 2 ≤ nclass.
Hypothesis Hn : (1 < n)%Z.
Hypothesis Hprobs : has_shape rows (nclass - 1) probs.
Hypothesis Hdicts : ∀ k, 1 ≤ k < nclass →
  ∃ W y, weights !! k = Some W ∧ outcome_binary !! k = Some y
         ∧ has_shape rows n_honest W ∧ length y = n_honest.

Let D := demeaned_at probs weights outcome_binary n.
Let Vv := variance_at probs weights outcome_binary n.

Lemma variance_loop_spec :
  ∃ dm var,
    variance_loop probs weights outcome_binary nclass n = Some (dm, var)
    ∧ (∀ c, dm !! c = if decide (1 ≤ c < nclass) then Some (D c) else None)
    ∧ (∀ c, var !! c = if decide (1 ≤ c < nclass) then Some (Vv c) else None).
Proof.
  unfold variance_loop.
  match goal with |- context [for_range 1 nclass ?b ?s0] =>
    destruct (for_range_inv
      (λ k '(dm, var),
         (∀ c, dm !! c = if decide (1 ≤ c < k) then Some (D c) else None)
         ∧ (∀ c : nat, var !! c = if decide (1 ≤ c < k) then Some (Vv c) else None))
      1 nclass b s0) as ([dm var] & Hs & Hinv)
  end.
  - lia.
  - split; intros c; rewrite lookup_empty; case_decide; [lia|done|lia|done].
  - intros k [dm var] Hk [Hdm Hvar].
    destruct (Hdicts k Hk) as (W & y & HW & Hy & HWs & Hys).
    destruct Hprobs as [_ Hp].
    rewrite (column_col (k - 1) probs (nclass - 1) Hp) by lia.
    simpl. rewrite HW, Hy. simpl.
    unfold py_truediv. rewrite decide_False by lia. simpl.
    eexists. split; [reflexivity|].
    split; intros c; (destruct (decide (c = k)) as [->|Hck];
      [rewrite lookup_insert_eq, decide_True by lia
      |rewrite lookup_insert_ne by done]).
    + unfold D, demeaned_at. by rewrite HW, Hy.
    + rewrite Hdm. repeat case_decide; (done || lia).
    + unfold Vv, variance_at, demeaned_at. by rewrite HW, Hy.
    + rewrite Hvar. repeat case_decide; (done || lia).
  - exists dm, var. done.
Qed.

End VariancePhases.

Lemma covariance_loop_spec (nclass : nat) (n : Z)
    (d_first d_last : gmap nat matrix) (F L : nat → matrix) :
  (1 < n)%Z →
  (∀ k, 1 ≤ k < nclass + 1 → d_first !! k = Some (F k)) →
  (∀ k, 1 ≤ k < nclass + 1 → d_last !! k = Some (L k)) →
  ∃ cov, covariance_loop nclass n d_first d_last = Some cov
    ∧ ∀ k, 1 ≤ k < nclass + 1 →
        cov !! k = Some ((λ s, s * 2 * (inject_Z n / inject_Z (n - 1)))%Q
                           <$> Np.sum_axis1 (Np.mul (F k) (L k))).
Proof.
  intros Hn HF HL. unfold covariance_loop.
  match goal with |- context [for_range 1 (nclass + 1) ?b ?m0] =>
    destruct (for_range_insert (λ k, k)
      (λ k, (λ s, s * 2 * (inject_Z n / inject_Z (n - 1)))%Q
              <$> Np.sum_axis1 (Np.mul (F k) (L k)))
      1 (nclass + 1) b m0) as (m & Hm & Hin & _)
  end.
  - lia.
  - done.
  - intros k m Hk. simpl. rewrite (HF k Hk), (HL k Hk). simpl.
    unfold py_truediv. by rewrite decide_False by lia.
  - by exists m.
Qed.

Lemma set_column_shape (n m j : nat) (c : vector) (M : matrix) :
  has_shape n m M → length c = n → has_shape n m (Np.set_column j c M).
Proof.
  intros [H1 H2] Hc. unfold Np.set_column. split.
  - rewrite length_zip_with. lia.
  - apply Forall_forall. intros row Hrow.
    apply list_elem_of_lookup in Hrow as [i Hrow].
    apply lookup_zip_with_Some in Hrow as (r & ci & -> & Hr & _).
    rewrite length_insert. rewrite Forall_forall in H2. apply H2.
    by eapply list_elem_of_lookup_2.
Qed.

Lemma entry_set_column (n m j : nat) (c : vector) (M : matrix) (i j' : nat) :
  has_shape n m M → length c = n → i < n → j < m → j' < m →
  Np.entry (Np.set_column j c M) i j'
  = if decide (j' = j) then Np.get c i else Np.entry M i j'.
Proof.
  intros HM Hc Hi Hj Hj'.
  destruct (has_shape_lookup n m M i j' HM Hi Hj') as (row & Hrow & Hx).
  destruct (lookup_lt_is_Some_2 c i) as [ci Hci]; [lia|].
  assert (length row = m) as Hlen.
  { destruct HM as [_ HM]. rewrite Forall_forall in HM. apply HM.
    by eapply list_elem_of_lookup_2. }
  apply (entry_lookup _ i j' (<[j := ci]> row)).
  - unfold Np.set_column. by rewrite lookup_zip_with, Hrow, Hci.
  - case_decide as Hjj.
    + subst j'. unfold Np.get. rewrite Hci. simpl.
      apply list_lookup_insert_eq. lia.
    + by rewrite list_lookup_insert_ne.
Qed.

Lemma variance_final_spec (n_rows nclass : nat)
    (var_last var_first cov : gmap nat vector) (L F C : nat → vector) :
  (∀ k, 1 ≤ k < nclass + 1 →
     var_last !! k = Some (L k) ∧ var_first !! k = Some (F k)
     ∧ cov !! k = Some (C k)
     ∧ length (L k) = n_rows ∧ length (F k) = n_rows
     ∧ length (C k) = n_rows) →
  ∃ V, variance_final n_rows nclass var_last var_first cov = Some V
    ∧ has_shape n_rows nclass V
    ∧ ∀ i k, i < n_rows → 1 ≤ k < nclass + 1 →
        Np.entry V i (k - 1)
        = (Np.get (L k) i + Np.get (F k) i - Np.get (C k) i)%Q.
Proof.
  intros Hk. unfold variance_final.
  match goal with |- context [for_range 1 (nclass + 1) ?b ?s0] =>
    destruct (for_range_inv
      (λ c M, has_shape n_rows nclass M
              ∧ ∀ i k, i < n_rows → 1 ≤ k < c →
                  Np.entry M i (k - 1)
                  = (Np.get (L k) i + Np.get (F k) i - Np.get (C k) i)%Q)
      1 (nclass + 1) b s0) as (V & HV & Hinv)
  end.
  - lia.
  - split; [apply zeros_shape|]. intros i k _ ?. lia.
  - intros c M Hc [HM Hent].
    destruct (Hk c Hc) as (Hl & Hf & Hcv & HlL & HlF & HlC).
    rewrite Hl, Hf, Hcv. simpl. eexists. split; [reflexivity|].
    assert (length (zip_with Qminus (zip_with Qplus (L c) (F c)) (C c))
            = n_rows) as Hlen by (rewrite !length_zip_with; lia).
    split; [by apply set_column_shape|].
    intros i k Hi Hkc.
    rewrite (entry_set_column n_rows nclass) by (done || lia).
    case_decide as Hkk.
    + assert (k = c) as -> by lia.
      destruct (lookup_lt_is_Some_2 (L c) i) as [l Hli]; [lia|].
      destruct (lookup_lt_is_Some_2 (F c) i) as [f Hfi]; [lia|].
      destruct (lookup_lt_is_Some_2 (C c) i) as [cv Hci]; [lia|].
      unfold Np.get. rewrite !lookup_zip_with, Hli, Hfi, Hci. reflexivity.
    + apply Hent; [done|lia].
  - exists V. done.
Qed.

(** ** VarianceEstimator: entries *)

Lemma row_as_seq (n m : nat) (M : matrix) (i : nat) (row : vector) :
  has_shape n m M → M !! i = Some row →
  row = (λ j, Np.entry M i j) <$> seq 0 m.
Proof.
  intros [_ HM] Hrow.
  assert (length row = m) as <-.
  { rewrite Forall_forall in HM. apply HM. by eapply list_elem_of_lookup_2. }
  rewrite <- (fmap_get_seq row) at 1. apply list_fmap_ext. intros _ j _.
  unfold Np.entry, Np.get. by rewrite Hrow.
Qed.

Lemma sum_fmap_seq_ext (f g : nat → Q) (m : nat) :
  (∀ j, j < m → (f j == g j)%Q) →
  (Np.sum (f <$> seq 0 m) == Np.sum (g <$> seq 0 m))%Q.
Proof.
  intros Hfg. assert (∀ lo, (∀ j, lo ≤ j < lo + m → (f j == g j)%Q) →
    (Np.sum (f <$> seq lo m) == Np.sum (g <$> seq lo m))%Q) as Hgen.
  { clear Hfg. induction m as [|m IH]; intros lo H; csimpl; [reflexivity|].
    rewrite !sum_cons. rewrite (H lo) by lia.
    rewrite (IH (S lo)); [reflexivity|]. intros j Hj. apply H. lia. }
  apply Hgen. intros j Hj. apply Hfg. lia.
Qed.

Lemma zeros_like_shape (n m : nat) (M : matrix) :
  has_shape n m M → has_shape n m (Np.zeros_like M).
Proof.
  intros [H1 H2]. unfold Np.zeros_like. split; [by rewrite length_fmap|].
  apply Forall_fmap. eapply Forall_impl; [exact H2|].
  intros row Hrow. simpl. by rewrite length_fmap.
Qed.

Lemma entry_zeros_like (M : matrix) (i j : nat) :
  Np.entry (Np.zeros_like M) i j = 0%Q.
Proof.
  unfold Np.entry, Np.zeros_like. rewrite list_lookup_fmap.
  destruct (M !! i) as [row|]; [|done]. simpl. rewrite list_lookup_fmap.
  by destruct (row !! j).
Qed.

Lemma get_zeros_like1 (v : vector) (i : nat) :
  Np.get (Np.zeros_like1 v) i = 0%Q.
Proof.
  unfold Np.get, Np.zeros_like1. rewrite list_lookup_fmap.
  by destruct (v !! i).
Qed.

(** Row sums of an element-wise product, by index. *)
Lemma get_sum_mul (n m : nat) (A B : matrix) (f : Q → Q) (i : nat) :
  has_shape n m A → has_shape n m B → i < n →
  Np.get (f <$> Np.sum_axis1 (Np.mul A B)) i
  = f (Np.sum ((λ j, Np.entry A i j * Np.entry B i j)%Q <$> seq 0 m)).
Proof.
  intros HA HB Hi.
  destruct (lookup_lt_is_Some_2 A i) as [ra Hra]; [destruct HA; lia|].
  destruct (lookup_lt_is_Some_2 B i) as [rb Hrb]; [destruct HB; lia|].
  unfold Np.get, Np.sum_axis1, Np.mul.
  rewrite !list_lookup_fmap, lookup_zip_with, Hra, Hrb. simpl.
  rewrite (row_as_seq n m A i ra HA Hra) at 1.
  rewrite (row_as_seq n m B i rb HB Hrb) at 1.
  do 2 f_equal. rewrite zip_with_fmap_l, zip_with_fmap_r, zip_with_diag.
  reflexivity.
Qed.

Lemma get_sum_square (n m : nat) (A : matrix) (f : Q → Q) (i : nat) :
  has_shape n m A → i < n →
  Np.get (f <$> Np.sum_axis1 (Np.square A)) i
  = f (Np.sum ((λ j, Np.entry A i j * Np.entry A i j)%Q <$> seq 0 m)).
Proof.
  intros HA Hi.
  destruct (lookup_lt_is_Some_2 A i) as [ra Hra]; [destruct HA; lia|].
  unfold Np.get, Np.sum_axis1, Np.square.
  rewrite !list_lookup_fmap, Hra. simpl.
  rewrite (row_as_seq n m A i ra HA Hra) at 1.
  do 2 f_equal. by rewrite <- list_fmap_compose.
Qed.

Section VarianceEntries.
Variables (probs : matrix) (weights : gmap nat matrix).
Variables (outcome_binary : gmap nat vector).
Variables (nclass n_honest rows : nat) (n : Z).
Hypothesis Hnclass : 2 ≤ nclass.
Hypothesis Hn : (1 < n)%Z.
Hypothesis Hprobs : has_shape rows (nclass - 1) probs.
Hypothesis Hdicts : ∀ k, 1 ≤ k < nclass →
  ∃ W y, weights !! k = Some W ∧ outcome_binary !! k = Some y
         ∧ has_shape rows n_honest W ∧ length y = n_honest.

Let D := demeaned_at probs weights outcome_binary n.
Let Vv := variance_at probs weights outcome_binary n.
Let d := d_ probs weights outcome_binary nclass n.

Lemma demeaned_shape (k : nat) :
  1 ≤ k < nclass → has_shape rows n_honest (D k).
Proof.
  intros Hk. destruct (Hdicts k Hk) as (W & y & HW & Hy & [HW1 HW2] & Hys).
  destruct Hprobs as [Hp1 Hp2].
  unfold D, demeaned_at, Np.sub_col, Np.mul_row, Np.col.
  rewrite HW, Hy. simpl. split.
  - rewrite length_zip_with, !length_fmap. lia.
  - apply Forall_forall. intros row Hrow.
    apply list_elem_of_lookup in Hrow as [i Hrow].
    apply lookup_zip_with_Some in Hrow as (r & ci & -> & Hr & _).
    rewrite list_lookup_fmap in Hr.
    destruct (W !! i) as [w|] eqn:Hw; [|done]. simpl in Hr.
    injection Hr as <-. rewrite length_fmap, length_zip_with.
    rewrite Forall_forall in HW2. rewrite (HW2 w); [lia|].
    by eapply list_elem_of_lookup_2.
Qed.

Lemma demeaned_entry (k i j : nat) :
  1 ≤ k < nclass → i < rows → j < n_honest →
  Np.entry (D k) i j = d k i j.
Proof.
  intros Hk Hi Hj.
  destruct (Hdicts k Hk) as (W & y & HW & Hy & HWs & Hys).
  destruct (has_shape_lookup rows n_honest W i j HWs Hi Hj)
    as (w & Hw & Hwj).
  destruct (lookup_lt_is_Some_2 y j) as [yj Hyj]; [lia|].
  destruct (lookup_lt_is_Some_2 probs i) as [pr Hpr];
    [destruct Hprobs; lia|].
  unfold d, d_, W_, y_, p_. rewrite decide_True by done.
  rewrite HW, Hy. simpl.
  eapply entry_lookup.
  - unfold D, demeaned_at, Np.sub_col, Np.mul_row, Np.col.
    rewrite HW, Hy. simpl.
    by rewrite lookup_zip_with, !list_lookup_fmap, Hw, Hpr.
  - rewrite list_lookup_fmap, lookup_zip_with, Hwj, Hyj. simpl.
    unfold Np.get, Np.entry. rewrite Hyj, Hpr. reflexivity.
Qed.
End VarianceEntries.

(** ** VarianceEstimator: the formula *)

Section VarianceFormulaProof.
Variables (probs : matrix) (weights : gmap nat matrix).
Variables (outcome_binary : gmap nat vector).
Variables (nclass n_honest rows : nat) (n : Z).
Hypothesis Hnclass : 2 ≤ nclass.
Hypothesis Hn : (1 < n)%Z.
Hypothesis Hprobs : has_shape rows (nclass - 1) probs.
Hypothesis Hdicts : ∀ k, 1 ≤ k < nclass →
  ∃ W y, weights !! k = Some W ∧ outcome_binary !! k = Some y
         ∧ has_shape rows n_honest W ∧ length y = n_honest.

Let D := demeaned_at probs weights outcome_binary n.
Let Vv := variance_at probs weights outcome_binary n.
Let d := d_ probs weights outcome_binary nclass n.
Let Var := Var_ probs weights outcome_binary nclass n_honest n.
Let Cov := Cov_ probs weights outcome_binary nclass n_honest n.
Let ratio : Q := (inject_Z n / inject_Z (n - 1))%Q.

(** The values of the shifted dictionaries at the key [k]. *)
Let Ld (k : nat) : matrix :=
  if decide (k < nclass) then D k else Np.zeros_like (D 1).
Let Fd (k : nat) : matrix :=
  if decide (k = 1) then Np.zeros_like (D 1) else D (k - 1).
Let Lv (k : nat) : vector :=
  if decide (k < nclass) then Vv k else Np.zeros_like1 (Vv 1).
Let Fv (k : nat) : vector :=
  if decide (k = 1) then Np.zeros_like1 (Vv 1) else Vv (k - 1).
Let Cv (k : nat) : vector :=
  (λ s, s * 2 * ratio)%Q <$> Np.sum_axis1 (Np.mul (Fd k) (Ld k)).

Local Lemma D_shape k : 1 ≤ k < nclass → has_shape rows n_honest (D k).
Proof. by apply demeaned_shape. Qed.

Local Lemma D_entry k i j :
  1 ≤ k < nclass → i < rows → j < n_honest → Np.entry (D k) i j = d k i j.
Proof. by apply demeaned_entry. Qed.

Local Lemma Vv_length k : 1 ≤ k < nclass → length (Vv k) = rows.
Proof.
  intros Hk. destruct (D_shape k Hk) as [H1 _].
  unfold Vv, variance_at, Np.sum_axis1, Np.square.
  by rewrite !length_fmap.
Qed.

Local Lemma Vv_entry k i :
  1 ≤ k < nclass → i < rows → (Np.get (Vv k) i == Var k i)%Q.
Proof.
  intros Hk Hi. unfold Vv, variance_at.
  rewrite (get_sum_square rows n_honest) by (done || by apply D_shape).
  unfold Var, Var_. rewrite decide_True by done. cbv beta. fold D d.
  rewrite (sum_fmap_seq_ext
             (λ j, Np.entry (D k) i j * Np.entry (D k) i j)%Q
             (λ j, d k i j * d k i j)%Q).
  - unfold scale. ring.
  - intros j Hj. simpl. by rewrite D_entry.
Qed.

Local Lemma Ld_shape k : 1 ≤ k < nclass + 1 → has_shape rows n_honest (Ld k).
Proof.
  intros Hk. unfold Ld. case_decide; [apply D_shape; lia|].
  apply zeros_like_shape, D_shape. lia.
Qed.

Local Lemma Fd_shape k : 1 ≤ k < nclass + 1 → has_shape rows n_honest (Fd k).
Proof.
  intros Hk. unfold Fd. case_decide; [|apply D_shape; lia].
  apply zeros_like_shape, D_shape. lia.
Qed.

Local Lemma Ld_entry k i j :
  1 ≤ k < nclass + 1 → i < rows → j < n_honest →
  Np.entry (Ld k) i j = d k i j.
Proof.
  intros Hk Hi Hj. unfold Ld. case_decide; [apply D_entry; lia|].
  rewrite entry_zeros_like. unfold d, d_. by rewrite decide_False by lia.
Qed.

Local Lemma Fd_entry k i j :
  1 ≤ k < nclass + 1 → i < rows → j < n_honest →
  Np.entry (Fd k) i j = d (k - 1) i j.
Proof.
  intros Hk Hi Hj. unfold Fd. case_decide; [|apply D_entry; lia].
  rewrite entry_zeros_like. unfold d, d_. by rewrite decide_False by lia.
Qed.

Local Lemma Lv_entry k i :
  1 ≤ k < nclass + 1 → i < rows → (Np.get (Lv k) i == Var k i)%Q.
Proof.
  intros Hk Hi. unfold Lv. case_decide; [apply Vv_entry; lia|].
  rewrite get_zeros_like1. unfold Var, Var_.
  by rewrite decide_False by lia.
Qed.

Local Lemma Fv_entry k i :
  1 ≤ k < nclass + 1 → i < rows → (Np.get (Fv k) i == Var (k - 1) i)%Q.
Proof.
  intros Hk Hi. unfold Fv. case_decide; [|apply Vv_entry; lia].
  rewrite get_zeros_like1. unfold Var, Var_.
  by rewrite decide_False by lia.
Qed.

Local Lemma Cv_entry k i :
  1 ≤ k < nclass + 1 → i < rows → (Np.get (Cv k) i == Cov k i)%Q.
Proof.
  intros Hk Hi. unfold Cv.
  rewrite (get_sum_mul rows n_honest)
    by (done || by apply Fd_shape || by apply Ld_shape).
  unfold Cov, Cov_. cbv beta. fold d.
  rewrite (sum_fmap_seq_ext
             (λ j, Np.entry (Fd k) i j * Np.entry (Ld k) i j)%Q
             (λ j, d (k - 1) i j * d k i j)%Q).
  - unfold scale, ratio. ring.
  - intros j Hj. simpl. by rewrite Fd_entry, Ld_entry.
Qed.

(** The closed form of [honest_variance] on well-shaped inputs. *)
Lemma honest_variance_formula :
  ∃ V, honest_variance probs weights outcome_binary nclass n = Some V
    ∧ has_shape rows nclass V
    ∧ ∀ i k, i < rows → 1 ≤ k ≤ nclass →
        (Np.entry V i (k - 1) == Var k i + Var (k - 1) i - Cov k i)%Q.
Proof.
  destruct (variance_loop_spec probs weights outcome_binary nclass
              n_honest rows n Hnclass Hn Hprobs Hdicts)
    as (dm & var & Hloop & Hdm & Hvar).
  fold D in Hdm. fold Vv in Hvar.
  unfold honest_variance. rewrite Hloop. simpl.
  rewrite (postpend_zeros_spec _ _ dm (D 1))
    by (by rewrite Hdm, decide_True by lia). simpl.
  set (dm_last := <[nclass := Np.zeros_like (D 1)]> dm).
  assert (∀ k, 1 ≤ k < nclass + 1 → dm_last !! k = Some (Ld k)) as HLd.
  { intros k Hk. unfold dm_last, Ld. case_decide.
    - rewrite lookup_insert_ne by lia. by rewrite Hdm, decide_True by lia.
    - assert (k = nclass) as -> by lia. by rewrite lookup_insert_eq. }
  destruct (prepend_zeros_spec Np.zeros_like nclass dm_last Ld Hnclass)
    as (dm_first & Hpf & Hf1 & Hfk); [intros k Hk; apply HLd; lia|].
  rewrite Hpf. simpl.
  assert (∀ k, 1 ≤ k < nclass + 1 → dm_first !! k = Some (Fd k)) as HFd.
  { intros k Hk. unfold Fd. case_decide as Hk1.
    - subst k. rewrite Hf1. unfold Ld. by rewrite decide_True by lia.
    - replace k with (k - 1 + 1) at 1 by lia. rewrite Hfk by lia.
      unfold Ld. by rewrite decide_True by lia. }
  destruct (covariance_loop_spec nclass n dm_first dm_last Fd Ld Hn HFd HLd)
    as (cov & Hcov & Hcovk).
  rewrite Hcov. simpl.
  rewrite (postpend_zeros_spec _ _ var (Vv 1))
    by (by rewrite Hvar, decide_True by lia). simpl.
  set (var_last := <[nclass := Np.zeros_like1 (Vv 1)]> var).
  assert (∀ k, 1 ≤ k < nclass + 1 → var_last !! k = Some (Lv k)) as HLv.
  { intros k Hk. unfold var_last, Lv. case_decide.
    - rewrite lookup_insert_ne by lia. by rewrite Hvar, decide_True by lia.
    - assert (k = nclass) as -> by lia. by rewrite lookup_insert_eq. }
  destruct (prepend_zeros_spec Np.zeros_like1 nclass var_last Lv Hnclass)
    as (var_first & Hvf & Hv1 & Hvk); [intros k Hk; apply HLv; lia|].
  rewrite Hvf. simpl.
  assert (∀ k, 1 ≤ k < nclass + 1 → var_first !! k = Some (Fv k)) as HFv.
  { intros k Hk. unfold Fv. case_decide as Hk1.
    - subst k. rewrite Hv1. unfold Lv. by rewrite decide_True by lia.
    - replace k with (k - 1 + 1) at 1 by lia. rewrite Hvk by lia.
      unfold Lv. by rewrite decide_True by lia. }
  assert (length (Np.zeros_like1 (Vv 1)) = rows) as Hz.
  { unfold Np.zeros_like1. rewrite length_fmap. apply Vv_length. lia. }
  destruct (variance_final_spec rows nclass var_last var_first cov Lv Fv Cv)
    as (V & HV & HVs & HVe).
  { intros k Hk. split; [by apply HLv|]. split; [by apply HFv|].
    split; [by apply Hcovk|]. split; [|split].
    - unfold Lv. case_decide; [apply Vv_length; lia|done].
    - unfold Fv. case_decide; [done|apply Vv_length; lia].
    - unfold Cv, Np.sum_axis1, Np.mul.
      destruct (Fd_shape k Hk) as [HF1 _], (Ld_shape k Hk) as [HL1 _].
      rewrite !length_fmap, length_zip_with. lia. }
  destruct Hprobs as [-> _]. exists V. split; [exact HV|]. split; [done|].
  intros i k Hi Hk. rewrite HVe by (done || lia).
  rewrite Lv_entry, Fv_entry, Cv_entry by (done || lia). reflexivity.
Qed.
End VarianceFormulaProof.

(** ** VarianceEstimator: the claim *)

(** C2. For weight matrices [W_k], honest outcomes [y_k], predictions [p_k]
    and an honest sample size [n > 1], [honest_variance] returns, for every
    row [i] and class [k], [Var_k + Var_{k-1} - Cov_k] with
    [Var_k = n/(n-1) * sum_j d_k[i,j]^2] and
    [Cov_k = 2 * n/(n-1) * sum_j d_{k-1}[i,j] * d_k[i,j]], where
    [d_k = W_k∘y_k - p_k/n]; the boundary cut-points 0 and [nclass] add no
    variance and no covariance, so the first and the last class have the
    variance of their one inner cut-point. *)
Theorem honest_variance_identity (probs : matrix)
    (weights : gmap nat matrix) (outcome_binary : gmap nat vector)
    (nclass n_honest rows : nat) (n : Z) :
  2 ≤ nclass → (1 < n)%Z →
  has_shape rows (nclass - 1) probs →
  (∀ k, 1 ≤ k < nclass →
     ∃ W y, weights !! k = Some W ∧ outcome_binary !! k = Some y
            ∧ has_shape rows n_honest W ∧ length y = n_honest) →
  let Var := Var_ probs weights outcome_binary nclass n_honest n in
  let Cov := Cov_ probs weights outcome_binary nclass n_honest n in
  ∃ V, honest_variance probs weights outcome_binary nclass n = Some V
    ∧ has_shape rows nclass V
    ∧ (∀ i k, i < rows → 1 ≤ k ≤ nclass →
         (Np.entry V i (k - 1) == Var k i + Var (k - 1)%nat i - Cov k i)%Q)
    ∧ (∀ i, Var 0 i = 0%Q ∧ Var nclass i = 0%Q
            ∧ (Cov 1%nat i == 0)%Q ∧ (Cov nclass i == 0)%Q)
    ∧ (∀ i, i < rows →
         (Np.entry V i 0 == Var 1%nat i)%Q
         ∧ (Np.entry V i (nclass - 1) == Var (nclass - 1)%nat i)%Q).
Proof.
  intros Hnclass Hn Hprobs Hdicts Var Cov.
  destruct (honest_variance_formula probs weights outcome_binary nclass
              n_honest rows n Hnclass Hn Hprobs Hdicts)
    as (V & HV & HVs & HVe).
  assert (∀ i, Var 0 i = 0%Q ∧ Var nclass i = 0%Q
               ∧ (Cov 1%nat i == 0)%Q ∧ (Cov nclass i == 0)%Q) as Hb.
  { intros i. unfold Var, Cov, Var_, Cov_.
    rewrite !decide_False by lia. split; [done|]. split; [done|]. split.
    - rewrite (sum_fmap_seq_ext _ (λ _, 0%Q)).
      + rewrite sum_const_zero. ring.
      + intros j _. simpl. unfold d_ at 1. rewrite decide_False by lia. ring.
    - rewrite (sum_fmap_seq_ext _ (λ _, 0%Q)).
      + rewrite sum_const_zero. ring.
      + intros j _. simpl. unfold d_ at 2. rewrite decide_False by lia. ring. }
  exists V. split; [exact HV|]. split; [exact HVs|]. split; [exact HVe|].
  split; [exact Hb|]. intros i Hi. split.
  - change 0 with (1 - 1) at 1. rewrite (HVe i 1) by (done || lia).
    destruct (Hb i) as (Hv0 & _ & Hc1 & _). fold Var Cov.
    change (1 - 1) with 0. rewrite Hv0, Hc1. ring.
  - rewrite (HVe i nclass) by (done || lia).
    destruct (Hb i) as (_ & Hvn & _ & Hcn). fold Var Cov.
    rewrite Hvn, Hcn. ring.
Qed.

(** ** Reordering by [argsort] *)

Global Instance key_le_total : Total Np.key_le.
Proof. intros a b. unfold Np.key_le. lia. Qed.









(** ** The variance of the fitted values: the claim *)


(** ** [margin]: counting the distinct values of a column *)

Lemma Qeqb_true (x y : Q) : Qeqb x y = true ↔ (x == y)%Q.
Proof. apply Qeq_bool_iff. Qed.

Lemma Qeqb_false (x y : Q) : Qeqb x y = false ↔ ¬ (x == y)%Q.
Proof.
  rewrite <- Qeqb_true. destruct (Qeqb x y); split; (done || congruence).
Qed.

Lemma Qltb_true (x y : Q) : Qltb x y = true ↔ (x < y)%Q.
Proof.
  unfold Qltb. rewrite negb_true_iff. split.
  - intros H. apply Qnot_le_lt. intros Hle.
    apply Qle_bool_iff in Hle. congruence.
  - intros H. destruct (Qle_bool y x) eqn:E; [|done].
    apply Qle_bool_iff in E. lra.
Qed.

Lemma Qltb_false (x y : Q) : Qltb x y = false ↔ (y <= x)%Q.
Proof.
  unfold Qltb. rewrite negb_false_iff. apply Qle_bool_iff.
Qed.

Lemma Qleb_true (x y : Q) : Qleb x y = true ↔ (x <= y)%Q.
Proof. apply Qle_bool_iff. Qed.

Lemma Qleb_false (x y : Q) : Qleb x y = false ↔ (y < x)%Q.
Proof.
  unfold Qleb. split.
  - intros H. apply Qnot_le_lt. intros Hle.
    apply Qle_bool_iff in Hle. congruence.
  - intros H. destruct (Qle_bool x y) eqn:E; [|done].
    apply Qle_bool_iff in E. lra.
Qed.

Lemma filter_none {A : Type} (P : A → Prop) `{!∀ x, Decision (P x)}
    (l : list A) :
  Forall (λ x, ¬ P x) l → filter P l = [].
Proof.
  induction 1 as [|x l Hx _ IH]; [done|].
  by rewrite filter_cons_False.
Qed.

Lemma constant_col_perm (u v : vector) :
  u ≡ₚ v → constant_col u → constant_col v.
Proof.
  intros Hp Hc x y Hx Hy. apply Hc; by rewrite Hp.
Qed.

(** Equal neighbours all along a list make it constant. *)
Lemma neighbours_equal_constant (s : vector) :
  Forall (λ '(a, b), a == b)%Q (zip (drop 1 s) s) → constant_col s.
Proof.
  induction s as [|x [|y r] IH]; intros Hadj.
  - intros a b Ha. by apply elem_of_nil in Ha.
  - intros a b Ha Hb. apply list_elem_of_singleton in Ha, Hb. by subst.
  - simpl in Hadj. apply Forall_cons in Hadj as [Hyx Hrest].
    specialize (IH Hrest).
    assert (∀ a, a ∈ x :: y :: r → (a == x)%Q) as Hx.
    { intros a Ha. apply elem_of_cons in Ha as [->|Ha]; [reflexivity|].
      rewrite <- Hyx. apply IH; [done|left]. }
    intros a b Ha Hb. rewrite (Hx a Ha), (Hx b Hb). reflexivity.
Qed.

Lemma n_unique_col_constant (col : vector) :
  n_unique_col col ≤ 1 ↔ constant_col col.
Proof.
  unfold n_unique_col. set (s := merge_sort Qle col).
  assert (s ≡ₚ col) as Hs by apply merge_sort_Permutation.
  split.
  - intros Hn. apply (constant_col_perm s col Hs).
    apply neighbours_equal_constant, Forall_forall. intros [a b] Hab.
    apply Qeqb_true. destruct (Qeqb a b) eqn:E; [done|].
    assert (length (filter (λ '(a, b), Qeqb a b = false)
                      (zip (drop 1 s) s)) = 0) as Hlen by lia.
    apply nil_length_inv in Hlen.
    by destruct (filter_nil_not_elem_of _ _ (a, b) Hlen E).
  - intros Hc. apply (constant_col_perm col s) in Hc; [|done].
    assert (filter (λ '(a, b), Qeqb a b = false) (zip (drop 1 s) s) = [])
      as ->; [|simpl; lia].
    apply filter_none, Forall_forall. intros [a b] Hab.
    apply elem_of_zip_l in Hab as Ha. apply elem_of_zip_r in Hab as Hb.
    apply subseteq_drop in Ha.
    rewrite (proj2 (Qeqb_true a b) (Hc a b Ha Hb)). done.
Qed.

Lemma constant_check_spec (X_eval : matrix) :
  existsb (λ n, n <=? 1) (n_unique_col <$> Np.transpose X_eval) = true
  ↔ Exists constant_col (Np.transpose X_eval).
Proof.
  rewrite existsb_exists, Exists_exists. split.
  - intros (n & Hn & Hle). apply list_elem_of_In, list_elem_of_fmap in Hn
      as (col & -> & Hcol).
    exists col. split; [done|]. apply n_unique_col_constant.
    by apply Nat.leb_le.
  - intros (col & Hcol & Hc). exists (n_unique_col col). split.
    + apply list_elem_of_In, list_elem_of_fmap. by exists col.
    + by apply Nat.leb_le, n_unique_col_constant.
Qed.

(** ** [margin]: the range checks and the inflation of a zero gap *)

Lemma mask_min (a b : Q) :
  (mask (Qltb a b) * a + mask (Qleb b a) * b == Qmin a b)%Q.
Proof.
  destruct (Q.min_spec a b) as [[Hlt ->]|[Hle ->]].
  - rewrite (proj2 (Qltb_true a b) Hlt), (proj2 (Qleb_false b a) Hlt).
    unfold mask. ring.
  - rewrite (proj2 (Qltb_false a b) Hle), (proj2 (Qleb_true b a) Hle).
    unfold mask. ring.
Qed.

Lemma mask_max (a b : Q) :
  (mask (Qltb b a) * a + mask (Qleb a b) * b == Qmax a b)%Q.
Proof.
  destruct (Q.max_spec a b) as [[Hlt ->]|[Hle ->]].
  - rewrite (proj2 (Qltb_false b a)), (proj2 (Qleb_true a b)) by lra.
    unfold mask. ring.
  - destruct (Qlt_le_dec b a) as [Hlt|Hge].
    + rewrite (proj2 (Qltb_true b a) Hlt), (proj2 (Qleb_false a b) Hlt).
      unfold mask. ring.
    + rewrite (proj2 (Qltb_false b a) Hge), (proj2 (Qleb_true a b)) by lra.
      unfold mask. lra.
Qed.

(** The two assignments of the [if] block before the range is checked
    again, on an entry whose values coincide. *)
Lemma inflate_cell_coincident (h : Q) (c : cell) :
  (up c == down c)%Q →
  let c' := inflate_cell h c in
  ((0 < h * sd c)%Q →
     (up c' == Qmin (up c + (1 # 2) * h * sd c) (cmax c))%Q
     ∧ (down c' == Qmax (down c) (cmin c))%Q)
  ∧ ((h * sd c == 0)%Q →
     (up c' == Qmin (up c) (cmax c))%Q
     ∧ (down c' == Qmax (down c) (cmin c))%Q).
Proof.
  intros Hud. destruct c as [u d s mx mn]. simpl in *.
  assert (Qltb d u = false) as E1 by (apply Qltb_false; lra).
  assert (Qeqb u d = true) as E2 by (by apply Qeqb_true).
  unfold inflate_cell. simpl. rewrite E1, E2.
  set (u1 := (mask false * u + mask true * (u + (1 # 2) * h * s))%Q).
  assert (u1 == u + (1 # 2) * (h * s))%Q as Hu1
    by (unfold u1, mask; ring).
  split.
  - intros Hpos.
    assert (Qltb d u1 = true) as E3 by (apply Qltb_true; lra).
    assert (Qeqb u1 d = false) as E4 by (apply Qeqb_false; lra).
    rewrite E3, E4. rewrite mask_min, mask_max. split.
    + apply Q.min_compat; [|reflexivity]. rewrite Hu1. ring.
    + apply Q.max_compat; [|reflexivity]. unfold mask. ring.
  - intros Hzero.
    assert (Qltb d u1 = false) as E3 by (apply Qltb_false; lra).
    assert (Qeqb u1 d = true) as E4 by (apply Qeqb_true; lra).
    rewrite E3, E4. rewrite mask_min, mask_max. split.
    + apply Q.min_compat; [|reflexivity]. rewrite Hu1, Hzero, Hud. ring.
    + apply Q.max_compat; [|reflexivity]. unfold mask.
      assert ((1 # 2) * h * s == (1 # 2) * (h * s))%Q as -> by ring.
      rewrite Hzero. ring.
Qed.

Section MarginClaims.
Variable np_std : vector → Q.
Variable Effects : Type.
Variable marginal_effects :
  OrderedForest → eval_point_kind → Q → matrix → matrix → matrix → Effects.

Lemma margin_after_checks (self : OrderedForest) (X : option matrix)
    (eval_point window verbose : pyval) (X_eval X_est : matrix) (h : Q)
    (ep : eval_point_kind) :
  margin_checks self X eval_point window verbose
  = Returned (X_eval, X_est, h, ep) →
  margin np_std Effects marginal_effects self X eval_point window verbose
  = if existsb (λ n, n <=? 1) (n_unique_col <$> Np.transpose X_eval)
    then ([], Raised (ValueError constant_covariates))
    else
      let X_mean := evaluation_points ep X_eval in
      let XX := perturbed np_std h X_mean X_eval X_est in
      ([EvaluationPoints; PerturbedMatrices; Predictions; MarginalEffects],
       Returned (marginal_effects self ep h X_eval XX.1 XX.2)).
Proof.
  intros Hchecks. unfold margin. rewrite Hchecks.
  unfold tbind, lift, enter, tret, traise.
  destruct (existsb _ _); [done|].
  by destruct (perturbed np_std h _ X_eval X_est).
Qed.

(** C9. When a column of the evaluation covariates has at most one
    distinct value, [margin] raises the [ValueError] on constant
    covariates, and it does so before it enters any stage: no evaluation
    point, perturbed matrix, prediction or effect is computed. *)
Theorem margin_constant_covariate_raises_first (self : OrderedForest)
    (X : option matrix) (eval_point window verbose : pyval)
    (X_eval X_est : matrix) (h : Q) (ep : eval_point_kind) :
  margin_checks self X eval_point window verbose
  = Returned (X_eval, X_est, h, ep) →
  Exists constant_col (Np.transpose X_eval) →
  margin np_std Effects marginal_effects self X eval_point window verbose
  = ([], Raised (ValueError constant_covariates)).
Proof.
  intros Hchecks Hconst.
  rewrite (margin_after_checks _ _ _ _ _ _ _ _ _ Hchecks).
  apply constant_check_spec in Hconst. by rewrite Hconst.
Qed.

End MarginClaims.

(** ** [predict] on the covariates of [fit] *)

Lemma array_equal_rows (A B : matrix) :
  array_equal A B = true → Forall2 (λ u v, length u = length v) A B.
Proof.
  unfold array_equal. rewrite andb_true_iff, Nat.eqb_eq. intros [Hlen Hrows].
  revert B Hlen Hrows. induction A as [|u A IH]; intros [|v B] Hlen Hrows;
    simpl in *; [constructor|lia|lia|].
  apply andb_true_iff in Hrows as [Huv Hrows]. constructor.
  - unfold vec_eqb in Huv. apply andb_true_iff in Huv as [Huv _].
    by apply Nat.eqb_eq.
  - apply IH; [lia|done].
Qed.

Lemma check_array_Returned (X : matrix) :
  check_array X = Returned X
  ↔ 0 < length X ∧ 0 < Np.width X
    ∧ Forall (λ row, length row = Np.width X) X.
Proof.
  unfold check_array.
  destruct (0 <? length X) eqn:E1; simpl;
    [apply Nat.ltb_lt in E1|apply Nat.ltb_ge in E1; split; [done|lia]].
  destruct (0 <? Np.width X) eqn:E2; simpl;
    [apply Nat.ltb_lt in E2|apply Nat.ltb_ge in E2; split; [done|lia]].
  destruct (forallb _ X) eqn:E3.
  - split; [|done]. intros _. split; [done|]. split; [done|].
    apply Forall_forall. intros row Hrow. apply Nat.eqb_eq.
    rewrite forallb_forall in E3. apply E3. by apply list_elem_of_In.
  - split; [done|]. intros (_ & _ & Hall). exfalso.
    assert (forallb (λ row, length row =? Np.width X) X = true) as E;
      [|congruence].
    apply forallb_forall. intros row Hrow. apply Nat.eqb_eq.
    rewrite Forall_forall in Hall. apply Hall. by apply list_elem_of_In.
Qed.

Lemma check_array_equal (X Y : matrix) :
  array_equal X Y = true → check_array Y = Returned Y →
  check_array X = Returned X ∧ Np.width X = Np.width Y.
Proof.
  intros Heq HY. apply array_equal_rows in Heq.
  apply check_array_Returned in HY as (HY1 & HY2 & HY3).
  assert (Np.width X = Np.width Y) as Hw.
  { destruct Heq as [|u v X' Y' Huv _]; [done|]. exact Huv. }
  split; [|exact Hw]. apply check_array_Returned.
  split; [by rewrite (Forall2_length _ _ _ Heq)|]. split; [lia|].
  rewrite Hw. clear Hw HY1 HY2. generalize dependent (Np.width Y).
  intros w Hw. induction Heq as [|u v X' Y' Huv _ IH]; [constructor|].
  apply Forall_cons in Hw as [Hv Hw]. constructor; [lia|by apply IH].
Qed.

(** C10. On a fitted model, [predict] with covariates equal, entry by
    entry, to those of [fit] returns what [predict] with [X=None] returns:
    the stored class probabilities and variances (or the classes of the
    stored probabilities); the result does not depend on the prediction
    paths for new data, which are not run. *)
Theorem predict_fit_covariates_is_in_sample
    (predict_default predict_leafmeans : OrderedForest → matrix → nat → matrix)
    (predict_weights :
       OrderedForest → matrix → nat → matrix * gmap nat matrix)
    (predict_default' predict_leafmeans' :
       OrderedForest → matrix → nat → matrix)
    (predict_weights' :
       OrderedForest → matrix → nat → matrix * gmap nat matrix)
    (self : OrderedForest) (X : matrix) (prob : pyval) :
  check_array (forest_X_fit self) = Returned (forest_X_fit self) →
  Np.width (forest_X_fit self) = n_features self →
  array_equal X (forest_X_fit self) = true →
  predict predict_default predict_leafmeans predict_weights self (Some X) prob
  = predict predict_default' predict_leafmeans' predict_weights' self None
      prob
  ∧ (prob = PyBool true →
     predict predict_default predict_leafmeans predict_weights self (Some X)
       prob
     = Returned {| result_prob := true;
                   result_predictions := Probabilities (forest_probs self);
                   result_variances := forest_variance self |}).
Proof.
  intros Hfit Hfeat Heq.
  destruct (check_array_equal X _ Heq Hfit) as [HX Hw].
  unfold predict. rewrite HX, Hw, Hfeat, Nat.eqb_refl, Heq. simpl.
  split; [by destruct prob as [| [|] | | |]|]. by intros ->.
Qed.

(** ** Instances of the theorems on the example inputs *)

Lemma tree_weight_row_sums_witness :
  Np.column 0 Ex.forest_apply = Some [0; 0; 1; 1]%Z
  ∧ Np.column 0 Ex.forest_apply_all = Some [0; 1; 2]%Z
  ∧ ∃ (tree_out : matrix) (leaf_size : vector) (M : matrix) (row : vector)
      (size : Q),
      tree_weight_parts [0; 0; 1; 1]%Z [0; 1; 2]%Z 3 4
        = Some (tree_out, leaf_size)
      ∧ honest_weight_numpy_out 0 Ex.forest_apply Ex.forest_apply_all 3 4
        = Some M
      ∧ honest_weight_numpy 0 Ex.forest_apply Ex.forest_apply_all 3 4
        = Some M
      ∧ M = Np.div_rows tree_out leaf_size
      ∧ M !! 2 = Some row
      ∧ leaf_size !! 2 = Some size
      ∧ ¬ (size == 0)%Q
      ∧ length row = 4
      ∧ (2%Z ∈ [0; 0; 1; 1]%Z → (Np.sum row == 1)%Q)
      ∧ (2%Z ∉ [0; 0; 1; 1]%Z
         → Forall (λ w, w == 0)%Q row ∧ (Np.sum row == 0)%Q).
Proof.
  split; [reflexivity|]. split; [reflexivity|].
  apply (tree_weight_row_sums 0 Ex.forest_apply Ex.forest_apply_all
           [0; 0; 1; 1]%Z [0; 1; 2]%Z 2 2%Z); reflexivity.
Defined.

Lemma example_dicts :
  ∀ k, 1 ≤ k < 3 →
    ∃ W y, Ex.weights !! k = Some W ∧ Ex.outcome_binary !! k = Some y
           ∧ has_shape 2 3 W ∧ length y = 3.
Proof.
  intros k Hk. assert (k = 1 ∨ k = 2) as [-> | ->] by lia.
  - exists [[1 # 2; 1 # 2; 0]; [0; 1 # 3; 2 # 3]]%Q, [1; 0; 0]%Q.
    repeat split; repeat constructor.
  - exists [[1 # 2; 1 # 4; 1 # 4]; [1 # 3; 1 # 3; 1 # 3]]%Q, [1; 1; 0]%Q.
    repeat split; repeat constructor.
Defined.

Lemma honest_variance_identity_witness :
  let Var := Var_ Ex.probs Ex.weights Ex.outcome_binary 3 3 3 in
  let Cov := Cov_ Ex.probs Ex.weights Ex.outcome_binary 3 3 3 in
  ∃ V, honest_variance Ex.probs Ex.weights Ex.outcome_binary 3 3 = Some V
    ∧ has_shape 2 3 V
    ∧ (∀ i k, i < 2 → 1 ≤ k ≤ 3 →
         (Np.entry V i (k - 1) == Var k i + Var (k - 1)%nat i - Cov k i)%Q)
    ∧ (∀ i, Var 0 i = 0%Q ∧ Var 3 i = 0%Q
            ∧ (Cov 1%nat i == 0)%Q ∧ (Cov 3%nat i == 0)%Q)
    ∧ (∀ i, i < 2 →
         (Np.entry V i 0 == Var 1%nat i)%Q
         ∧ (Np.entry V i (3 - 1) == Var (3 - 1)%nat i)%Q).
Proof.
  apply (honest_variance_identity Ex.probs Ex.weights Ex.outcome_binary
           3 3 2 3).
  - lia.
  - lia.
  - split; repeat constructor.
  - exact example_dicts.
Defined.

Lemma aggregation_strategies_agree_witness :
  option_Forall2 mat_eq
    (forest_weights numpy_loop 2 Ex.forest_apply2 Ex.forest_apply_all2 3 3)
    (forest_weights numpy_loop_mpire 2 Ex.forest_apply2 Ex.forest_apply_all2
       3 3)
  ∧ (Ex.forest_apply_all2 ≠ [] →
     Forall (λ row, 2 ≤ length row) Ex.forest_apply2 →
     Forall (λ row, 2 ≤ length row) Ex.forest_apply_all2 →
     is_Some (forest_weights numpy_loop 2 Ex.forest_apply2
                Ex.forest_apply_all2 3 3)).
Proof.
  apply (aggregation_strategies_agree 2 Ex.forest_apply2
           Ex.forest_apply_all2). lia.
Defined.



(** ** [margin] on a covariate that is constant in the fitted data *)

(** A scaling factor of zero makes every effect of its covariate
    non-finite, whatever the predictions are. *)
Lemma zero_scaling_non_finite (forest_pred_up forest_pred_down : matrix)
    (sf : vector) :
  Forall (λ s, s == 0)%Q sf →
  Forall (Forall (λ e, e = NonFinite))
    (marginal_effects_divided forest_pred_up forest_pred_down sf).
Proof.
  intros Hsf. unfold marginal_effects_divided.
  apply Forall_lookup. intros i row Hi.
  apply lookup_zip_with_Some in Hi as (diff & s & -> & _ & Hs).
  apply Forall_fmap, Forall_forall. intros x _. simpl.
  unfold np_divide.
  rewrite (proj2 (Qeqb_true s 0)); [done|].
  exact (Forall_lookup_1 _ _ _ _ Hsf Hs).
Qed.

(** C8. The code does not do what C8 says when a covariate is constant
    in the fitted data and not in the new data.  The model is fitted on
    [X_fit = [[5], [5], [5]]] ([X_sd = 0], minimum = maximum = 5), and
    [margin] is called with eleven distinct new values, [eval_point='mean']
    and [window=0.1].  The check on constant covariates looks at the
    evaluation data only and passes, while the same call with [X=None]
    raises its error.  Every up and down value is 5 after the range
    checks; the [if] block runs, adds [0.5 * h_std * 0], and the values
    still coincide: no gap is inflated and no failure is raised.  The
    scaling factor [np.mean(X_up - X_down, axis=0)] of the covariate is 0,
    and the division of the effects by it gives non-finite values for any
    predictions. *)
Theorem margin_constant_fitted_covariate :
  let h := (1 # 10)%Q in
  let X_fit := forest_X_fit Ex.fitted_constant in
  let cells :=
    clipped_cells sample_std h (evaluation_points Mean Ex.X_new) X_fit in
  let n_unique := n_unique_col <$> Np.transpose Ex.X_new in
  margin_checks Ex.fitted_constant (Some Ex.X_new) (PyStr "mean")
    (PyFloat h) (PyBool true)
  = Returned (Ex.X_new, X_fit, h, Mean)
  ∧ existsb (λ n, n <=? 1) n_unique = false
  ∧ margin sample_std _ Ex.up_down Ex.fitted_constant None (PyStr "mean")
      (PyFloat h) (PyBool true)
    = ([], Raised (ValueError constant_covariates))
  ∧ any_coincide cells = true
  ∧ ¬ coincidence_gap_inflated h cells
  ∧ Forall (Forall (λ c, up c == down c)%Q) (inflate h cells)
  ∧ ∃ X_up X_down,
      margin sample_std _ Ex.up_down Ex.fitted_constant (Some Ex.X_new)
        (PyStr "mean") (PyFloat h) (PyBool true)
      = ([EvaluationPoints; PerturbedMatrices; Predictions; MarginalEffects],
         Returned (X_up, X_down))
      ∧ mat_eq X_up X_down
      ∧ Forall (λ s, s == 0)%Q (scaling_factor X_up X_down n_unique)
      ∧ ∀ forest_pred_up forest_pred_down,
          Forall (Forall (λ e, e = NonFinite))
            (marginal_effects_divided forest_pred_up forest_pred_down
               (scaling_factor X_up X_down n_unique)).
Proof.
  intros h X_fit cells n_unique.
  split; [reflexivity|]. split; [reflexivity|]. split; [reflexivity|].
  split; [reflexivity|]. split; [|split].
  - intros H. unfold coincidence_gap_inflated in H.
    assert (∃ row c, cells !! 0 = Some row ∧ row !! 0 = Some c
              ∧ (up c == down c)%Q
              ∧ ¬ (down (inflate_cell h c) < up (inflate_cell h c))%Q)
      as (row & c & Hrow & Hc & Heq & Hgap).
    { eexists _, _. split; [vm_compute; reflexivity|].
      split; [reflexivity|]. split; [vm_compute; reflexivity|].
      vm_compute. discriminate. }
    apply Hgap.
    exact (Forall_lookup_1 _ _ _ _ (Forall_lookup_1 _ _ _ _ H Hrow) Hc Heq).
  - vm_compute. repeat constructor.
  - set (XX := perturbed sample_std h (evaluation_points Mean Ex.X_new)
                 Ex.X_new X_fit).
    assert (Forall (λ s, s == 0)%Q (scaling_factor XX.1 XX.2 n_unique))
      as Hzero by (vm_compute; repeat constructor).
    exists XX.1, XX.2. split; [vm_compute; reflexivity|].
    split; [unfold mat_eq, vec_eq; vm_compute; repeat constructor|].
    split; [exact Hzero|].
    intros forest_pred_up forest_pred_down.
    by apply zero_scaling_non_finite.
Qed.

Lemma margin_constant_covariate_raises_first_witness :
  margin_checks Ex.fitted2 (Some Ex.X_constant) (PyStr "atmean")
    (PyFloat (1 # 10)) (PyBool false)
  = Returned (Ex.X_constant, forest_X_fit Ex.fitted2, 1 # 10, AtMean)
  ∧ Exists constant_col (Np.transpose Ex.X_constant)
  ∧ margin sample_std _ Ex.up_down Ex.fitted2 (Some Ex.X_constant)
      (PyStr "atmean") (PyFloat (1 # 10)) (PyBool false)
    = ([], Raised (ValueError constant_covariates)).
Proof.
  assert (Exists constant_col (Np.transpose Ex.X_constant)) as Hconst.
  { apply Exists_cons_hd. intros x y Hx Hy.
    apply elem_of_cons in Hx as [->|Hx];
      [|apply list_elem_of_singleton in Hx as ->];
      (apply elem_of_cons in Hy as [->|Hy];
         [|apply list_elem_of_singleton in Hy as ->]); reflexivity. }
  split; [reflexivity|]. split; [exact Hconst|].
  apply (margin_constant_covariate_raises_first sample_std _ Ex.up_down
           Ex.fitted2 (Some Ex.X_constant) (PyStr "atmean")
           (PyFloat (1 # 10)) (PyBool false) Ex.X_constant
           (forest_X_fit Ex.fitted2) (1 # 10) AtMean eq_refl Hconst).
Defined.

Lemma predict_fit_covariates_is_in_sample_witness :
  let X := [[2 # 2; 2]; [3; 8 # 2]]%Q in
  check_array (forest_X_fit Ex.fitted2) = Returned (forest_X_fit Ex.fitted2)
  ∧ array_equal X (forest_X_fit Ex.fitted2) = true
  ∧ predict Ex.no_path Ex.no_path Ex.no_weights Ex.fitted2 (Some X)
      (PyBool true)
    = predict Ex.no_path Ex.no_path Ex.no_weights Ex.fitted2 None
        (PyBool true)
  ∧ (PyBool true = PyBool true →
     predict Ex.no_path Ex.no_path Ex.no_weights Ex.fitted2 (Some X)
       (PyBool true)
     = Returned {| result_prob := true;
                   result_predictions :=
                     Probabilities (forest_probs Ex.fitted2);
                   result_variances := forest_variance Ex.fitted2 |}).
Proof.
  intros X. split; [reflexivity|]. split; [reflexivity|].
  apply (predict_fit_covariates_is_in_sample Ex.no_path Ex.no_path
           Ex.no_weights Ex.no_path Ex.no_path Ex.no_weights Ex.fitted2 X
           (PyBool true)); reflexivity.
Defined.

(* ================================================================== *)
(** * Further properties of the code *)

(** ** [honest_variance]: sign and failures *)

Lemma sum_fmap_seq_square_diff (a b : nat → Q) (m : nat) :
  (Np.sum ((λ j, (a j - b j) * (a j - b j)) <$> seq 0 m)
   == Np.sum ((λ j, a j * a j) <$> seq 0 m)
      + Np.sum ((λ j, b j * b j) <$> seq 0 m)
      - 2 * Np.sum ((λ j, b j * a j) <$> seq 0 m))%Q.
Proof.
  generalize 0 at 1 2 3 4. induction m as [|m IH]; intros lo; csimpl.
  - rewrite sum_nil. ring.
  - rewrite !sum_cons, IH. ring.
Qed.

Lemma sum_fmap_seq_square_nonneg (f : nat → Q) (lo m : nat) :
  (0 <= Np.sum ((λ j, f j * f j) <$> seq lo m))%Q.
Proof.
  apply sum_nonneg, Forall_fmap, Forall_forall. intros j _. simpl.
  nra.
Qed.

(** X1. Over exact arithmetic (the rationals that stand for the floats):
    on well-shaped inputs with [n > 1], the value [honest_variance]
    computes for every entry, [Var_k + Var_(k-1) - Cov_k], is [n/(n-1)]
    times a sum of squares, the squared differences of the de-meaned
    products of the two adjacent cut-points, and so is not negative as a
    rational.  The code adds and subtracts the three terms in floating
    point, where rounding can leave an entry slightly below zero: the
    statement is about the quantity computed, not about its rounded
    value. *)
Theorem honest_variance_nonneg (probs : matrix)
    (weights : gmap nat matrix) (outcome_binary : gmap nat vector)
    (nclass n_honest rows : nat) (n : Z) :
  2 ≤ nclass → (1 < n)%Z →
  has_shape rows (nclass - 1) probs →
  (∀ k, 1 ≤ k < nclass →
     ∃ W y, weights !! k = Some W ∧ outcome_binary !! k = Some y
            ∧ has_shape rows n_honest W ∧ length y = n_honest) →
  let d := d_ probs weights outcome_binary nclass n in
  ∃ V, honest_variance probs weights outcome_binary nclass n = Some V
    ∧ ∀ i k, i < rows → 1 ≤ k ≤ nclass →
        (Np.entry V i (k - 1)
         == scale n
            * Np.sum ((λ j, (d k i j - d (k - 1)%nat i j)
                            * (d k i j - d (k - 1)%nat i j))
                        <$> seq 0 n_honest))%Q
        ∧ (0 <= Np.entry V i (k - 1))%Q.
Proof.
  intros Hnclass Hn Hprobs Hdicts d.
  destruct (honest_variance_formula probs weights outcome_binary nclass
              n_honest rows n Hnclass Hn Hprobs Hdicts)
    as (V & HV & _ & HVe).
  exists V. split; [exact HV|]. intros i k Hi Hk.
  assert (∀ c, (Var_ probs weights outcome_binary nclass n_honest n c i
                == scale n * Np.sum ((λ j, d c i j * d c i j)
                                       <$> seq 0 n_honest))%Q) as HVar.
  { intros c. unfold Var_. case_decide as Hc; [reflexivity|].
    rewrite (sum_fmap_seq_ext _ (λ _, 0%Q)).
    - rewrite sum_const_zero. ring.
    - intros j _. simpl. unfold d, d_. rewrite decide_False by done. ring. }
  assert (Np.entry V i (k - 1)
          == scale n
             * Np.sum ((λ j, (d k i j - d (k - 1)%nat i j)
                             * (d k i j - d (k - 1)%nat i j))
                         <$> seq 0 n_honest))%Q as Heq.
  { rewrite (HVe i k Hi Hk), !HVar. unfold Cov_. fold d.
    rewrite sum_fmap_seq_square_diff. ring. }
  split; [exact Heq|]. rewrite Heq.
  assert (0 < scale n)%Q as Hs.
  { unfold scale. apply Qlt_shift_div_l.
    - replace 0%Q with (inject_Z 0) by done. rewrite <- Zlt_Qlt. lia.
    - rewrite Qmult_0_l. replace 0%Q with (inject_Z 0) by done.
      rewrite <- Zlt_Qlt. lia. }
  pose proof (sum_fmap_seq_square_nonneg
                (λ j, d k i j - d (k - 1)%nat i j)%Q 0 n_honest) as Hsq.
  simpl in Hsq. nra.
Qed.

(** X2. [honest_variance] raises on a sample of one observation (the
    factor [n_est/(n_est-1)] divides by zero in the first pass of the
    loop) and for fewer than two classes (no dictionary has the key 1). *)
Theorem honest_variance_raises (probs : matrix)
    (weights : gmap nat matrix) (outcome_binary : gmap nat vector)
    (nclass : nat) (n_est : Z) :
  (2 ≤ nclass ∧ n_est = 1%Z) ∨ nclass ≤ 1 →
  honest_variance probs weights outcome_binary nclass n_est = None.
Proof.
  intros [[Hn ->]|Hn]; unfold honest_variance.
  - assert (variance_loop probs weights outcome_binary nclass 1 = None)
      as ->; [|done].
    unfold variance_loop, for_range.
    destruct nclass as [|[|nclass]]; [lia|lia|]. simpl.
    destruct (Np.column 0 probs) as [c|]; simpl; [|apply for_range_raised].
    destruct (weights !! 1) as [W|]; simpl; [|apply for_range_raised].
    destruct (outcome_binary !! 1) as [y|]; simpl; apply for_range_raised.
  - assert (variance_loop probs weights outcome_binary nclass n_est
            = Some (∅, ∅)) as ->.
    { unfold variance_loop, for_range.
      by replace (nclass - 1) with 0 by lia. }
    done.
Qed.

(** ** ProbabilityAssembler on monotone input *)




(** ** [margin]: the perturbed values after the range checks *)

Lemma mask_pick (a b x y : Q) :
  ∃ r, (mask (Qltb a b) * x + mask (Qleb b a) * y)%Q = r
       ∧ (((a < b)%Q ∧ (r == x)%Q) ∨ ((b <= a)%Q ∧ (r == y)%Q)).
Proof.
  eexists. split; [reflexivity|].
  destruct (Qlt_le_dec a b) as [Hlt|Hle].
  - left. split; [done|].
    rewrite (proj2 (Qltb_true a b) Hlt), (proj2 (Qleb_false b a) Hlt).
    unfold mask. ring.
  - right. split; [done|].
    rewrite (proj2 (Qltb_false a b) Hle), (proj2 (Qleb_true b a) Hle).
    unfold mask. ring.
Qed.

(** Lines 1916-1935 on one entry, for a column with [x_min <= x_max] and a
    half window [h_std * x_sd] that is not negative. *)
Lemma clip_cell_order (h m s mx mn : Q) :
  (mn <= mx)%Q → (0 <= h * s)%Q →
  let c := clip_cell h m s mx mn in
  (down c <= up c)%Q
  ∧ ((0 < h * s)%Q → (down c < up c)%Q)
  ∧ ((h * s == 0)%Q → (up c == down c)%Q)
  ∧ ((h * s <= mx - mn)%Q → (mn <= down c)%Q ∧ (up c <= mx)%Q).
Proof.
  intros Hrange Hhs. unfold clip_cell. simpl.
  set (hs := (h * s)%Q) in *.
  destruct (mask_pick (m + hs) mx (m + hs) mx) as (u1 & -> & Hu1).
  destruct (mask_pick mn u1 u1 (mn + hs)) as (u2 & -> & Hu2).
  destruct (mask_pick mn (m - hs) (m - hs) mn) as (d1 & -> & Hd1).
  destruct (mask_pick d1 mx d1 (mx - hs)) as (d2 & -> & Hd2).
  destruct Hu1 as [[? ?]|[? ?]], Hu2 as [[? ?]|[? ?]],
    Hd1 as [[? ?]|[? ?]], Hd2 as [[? ?]|[? ?]];
    repeat split; intros; lra.
Qed.

Lemma foldl_Qmax_ge (x : Q) (l : vector) :
  (x <= foldl Qmax x l)%Q
  ∧ Forall (λ y, y <= foldl Qmax x l)%Q l.
Proof.
  revert x. induction l as [|y l IH]; intros x; simpl.
  - split; [lra|constructor].
  - destruct (IH (Qmax x y)) as [H1 H2].
    pose proof (Q.le_max_l x y). pose proof (Q.le_max_r x y).
    split; [lra|]. constructor; [lra|done].
Qed.

Lemma foldl_Qmin_le (x : Q) (l : vector) :
  (foldl Qmin x l <= x)%Q
  ∧ Forall (λ y, foldl Qmin x l <= y)%Q l.
Proof.
  revert x. induction l as [|y l IH]; intros x; simpl.
  - split; [lra|constructor].
  - destruct (IH (Qmin x y)) as [H1 H2].
    pose proof (Q.le_min_l x y). pose proof (Q.le_min_r x y).
    split; [lra|]. constructor; [lra|done].
Qed.

Lemma col_min_le_max (col : vector) : (col_min col <= col_max col)%Q.
Proof.
  destruct col as [|x col]; simpl; [lra|].
  pose proof (proj1 (foldl_Qmax_ge x col)).
  pose proof (proj1 (foldl_Qmin_le x col)). lra.
Qed.

Lemma clipped_cells_cell (np_std : vector → Q) (h : Q)
    (X_mean X_est : matrix) (row : list cell) (c : cell) :
  row ∈ clipped_cells np_std h X_mean X_est → c ∈ row →
  ∃ m col, col ∈ Np.transpose X_est
    ∧ c = clip_cell h m (np_std col) (col_max col) (col_min col).
Proof.
  unfold clipped_cells. intros Hrow Hc.
  apply list_elem_of_fmap in Hrow as (means & -> & _).
  apply list_elem_of_lookup in Hc as [j Hc].
  apply lookup_zip_with_Some in Hc as (m & [[sd mx] mn] & -> & _ & Hst).
  rewrite list_lookup_fmap in Hst.
  destruct (Np.transpose X_est !! j) as [col|] eqn:Hcol; [|done].
  simpl in Hst. injection Hst as <- <- <-.
  exists m, col. split; [by eapply list_elem_of_lookup_2|done].
Qed.

(** With a positive half window in every fitted covariate, every down
    value is below its up value after the range checks. *)
Lemma clipped_cells_gap (np_std : vector → Q) (h : Q) (X_mean X_est : matrix) :
  Forall (λ col, 0 < h * np_std col)%Q (Np.transpose X_est) →
  Forall (Forall (λ c, down c < up c)%Q) (clipped_cells np_std h X_mean X_est).
Proof.
  intros Hsd.
  apply Forall_forall. intros row Hrow. apply Forall_forall. intros c Hc.
  destruct (clipped_cells_cell _ _ _ _ _ _ Hrow Hc) as (m & col & Hcol & ->).
  rewrite Forall_forall in Hsd. specialize (Hsd col Hcol). simpl in Hsd.
  apply clip_cell_order; [apply col_min_le_max|lra|done].
Qed.

Lemma gap_no_coincide (cells : list (list cell)) :
  Forall (Forall (λ c, down c < up c)%Q) cells → any_coincide cells = false.
Proof.
  intros Hlt. unfold any_coincide. apply not_true_is_false. intros Hex.
  apply existsb_exists in Hex as (row & Hrow & Hex).
  apply existsb_exists in Hex as (c & Hc & Heq).
  apply Qeqb_true in Heq. apply list_elem_of_In in Hrow, Hc.
  rewrite Forall_forall in Hlt. specialize (Hlt row Hrow).
  rewrite Forall_forall in Hlt. specialize (Hlt c Hc). simpl in Hlt. lra.
Qed.

(** X4. Over exact arithmetic (the rationals that stand for the floats):
    for half windows [h_std * X_sd] that are not negative, an up value
    equals its down value after the range checks exactly when the half
    window of its covariate is zero; on such an entry the block under
    [if (np.any(X_up == X_down)):] adds [0.5 * h_std * X_sd = 0] and
    leaves both values as they are, so the block widens no gap; with every
    half window positive no entry coincides and the block does not run.
    In floating point a positive half window that rounding absorbs makes
    the two values equal as well. *)
Theorem margin_coincidence_iff_zero_window (np_std : vector → Q) (h : Q)
    (X_mean X_est : matrix) :
  Forall (λ col, 0 <= h * np_std col)%Q (Np.transpose X_est) →
  let cells := clipped_cells np_std h X_mean X_est in
  Forall (Forall (λ c,
      ((up c == down c)%Q ↔ (h * sd c == 0)%Q)
      ∧ ((up c == down c)%Q →
         (up (inflate_cell h c) == up c)%Q
         ∧ (down (inflate_cell h c) == down c)%Q))) cells
  ∧ (Forall (λ col, 0 < h * np_std col)%Q (Np.transpose X_est) →
     any_coincide cells = false ∧ inflate h cells = cells).
Proof.
  intros Hsd cells. split.
  - apply Forall_forall. intros row Hrow. apply Forall_forall. intros c Hc.
    destruct (clipped_cells_cell _ _ _ _ _ _ Hrow Hc)
      as (m & col & Hcol & ->).
    rewrite Forall_forall in Hsd. specialize (Hsd col Hcol). simpl in Hsd.
    pose proof (col_min_le_max col) as Hrange.
    destruct (clip_cell_order h m (np_std col) (col_max col) (col_min col)
                Hrange Hsd) as (H1 & H2 & H3 & H4).
    assert ((up (clip_cell h m (np_std col) (col_max col) (col_min col))
             == down (clip_cell h m (np_std col) (col_max col) (col_min col)))%Q
            ↔ (h * np_std col == 0)%Q) as Hiff.
    { split; [|exact H3]. intros Heq.
      destruct (Qlt_le_dec 0 (h * np_std col)) as [Hpos|Hle].
      - specialize (H2 Hpos). lra.
      - lra. }
    split; [exact Hiff|]. intros Heq.
    pose proof (proj1 Hiff Heq) as Hz.
    destruct (inflate_cell_coincident h _ Heq) as [_ Hzero].
    destruct (Hzero Hz) as [Hu Hd].
    destruct H4 as [Hmn Hmx]; [lra|].
    split.
    + etransitivity; [exact Hu|]. apply Q.min_l. exact Hmx.
    + etransitivity; [exact Hd|]. apply Q.max_l. exact Hmn.
  - intros Hpos.
    pose proof (clipped_cells_gap np_std h X_mean X_est Hpos) as Hlt.
    pose proof (gap_no_coincide cells Hlt) as Hany.
    split; [exact Hany|]. unfold inflate. by rewrite Hany.
Qed.

(** X5. When the half window of every fitted covariate is not negative
    and not wider than the observed range, the up and down values lie in
    the observed range of their covariate, the down value not above the up
    value; where the half window is zero the two coincide. *)
Theorem margin_values_in_range (np_std : vector → Q) (h : Q)
    (X_mean X_est : matrix) :
  Forall (λ col, 0 <= h * np_std col
                 ∧ h * np_std col <= col_max col - col_min col)%Q
         (Np.transpose X_est) →
  Forall (Forall (λ c,
      (cmin c <= down c)%Q ∧ (down c <= up c)%Q ∧ (up c <= cmax c)%Q
      ∧ ((h * sd c == 0)%Q → (up c == down c)%Q)))
    (clipped_cells np_std h X_mean X_est).
Proof.
  intros Hsd. apply Forall_forall. intros row Hrow.
  apply Forall_forall. intros c Hc.
  destruct (clipped_cells_cell _ _ _ _ _ _ Hrow Hc) as (m & col & Hcol & ->).
  rewrite Forall_forall in Hsd. destruct (Hsd col Hcol) as [H0 Hw].
  destruct (clip_cell_order h m (np_std col) (col_max col) (col_min col)
              (col_min_le_max col) H0) as (H1 & _ & H3 & H4).
  destruct (H4 Hw) as [H5 H6]. simpl in *. repeat split; done.
Qed.

(** ** Instances of the further properties *)

Lemma honest_variance_nonneg_witness :
  ∃ V, honest_variance Ex.probs Ex.weights Ex.outcome_binary 3 3 = Some V
    ∧ ∀ i k, i < 2 → 1 ≤ k ≤ 3 → (0 <= Np.entry V i (k - 1))%Q.
Proof.
  assert (has_shape 2 (3 - 1) Ex.probs) as Hshape
    by (split; repeat constructor).
  destruct (honest_variance_nonneg Ex.probs Ex.weights Ex.outcome_binary
              3 3 2 3 ltac:(lia) ltac:(lia) Hshape example_dicts)
    as (V & HV & Hent).
  exists V. split; [exact HV|]. intros i k Hi Hk. apply (Hent i k Hi Hk).
Defined.

Lemma honest_variance_raises_witness :
  honest_variance Ex.probs Ex.weights Ex.outcome_binary 3 1 = None.
Proof.
  apply (honest_variance_raises Ex.probs Ex.weights Ex.outcome_binary 3 1).
  left. split; [lia|reflexivity].
Defined.


Lemma margin_coincidence_iff_zero_window_witness :
  let X_fit := [[5]; [5]; [5]]%Q in
  let cells := clipped_cells sample_std (1 # 10) Ex.X_new X_fit in
  Forall (Forall (λ c,
      ((up c == down c)%Q ↔ ((1 # 10) * sd c == 0)%Q)
      ∧ ((up c == down c)%Q →
         (up (inflate_cell (1 # 10) c) == up c)%Q
         ∧ (down (inflate_cell (1 # 10) c) == down c)%Q))) cells.
Proof.
  intros X_fit.
  apply (margin_coincidence_iff_zero_window sample_std (1 # 10) Ex.X_new
           X_fit).
  repeat (constructor; try (by vm_compute)).
Defined.

Lemma margin_values_in_range_witness :
  let X_est := [[1; 2]; [3; 4]]%Q in
  Forall (Forall (λ c,
      (cmin c <= down c)%Q ∧ (down c <= up c)%Q ∧ (up c <= cmax c)%Q
      ∧ (((1 # 10) * sd c == 0)%Q → (up c == down c)%Q)))
    (clipped_cells sample_std (1 # 10) X_est X_est).
Proof.
  intros X_est.
  apply (margin_values_in_range sample_std (1 # 10) X_est X_est).
  repeat (constructor; try (by vm_compute)).
Defined.

(** ** Honest leaf means *)

Lemma inner_nil_l (v : vector) : Np.inner [] v = 0%Q.
Proof. reflexivity. Qed.

Lemma take_rows_cons {A : Type} (i : nat) (ind : list nat) (M : list A) :
  Np.take_rows (i :: ind) M
  = (x ← M !! i; k ← Np.take_rows ind M; Some (x :: k)).
Proof. reflexivity. Qed.

Lemma where_from_take (col : list Z) (idx : Z) (pre y : vector) (i : nat) :
  i = length pre → length y = length col →
  ∃ vals, Np.take_rows (where_from i col idx) (pre ++ y) = Some vals
    ∧ length vals = length (where_from i col idx)
    ∧ (Np.sum vals == Np.inner (same_leaf idx <$> col) y)%Q
    ∧ (inject_Z (Z.of_nat (length vals))
       == Np.sum (same_leaf idx <$> col))%Q
    ∧ Forall (λ v, v ∈ y) vals.
Proof.
  revert pre y i. induction col as [|x col IH]; intros pre y i Hi Hlen.
  - exists []. destruct y; [|done]. repeat split; try reflexivity.
    constructor.
  - destruct y as [|y0 y]; [done|]. simpl in Hlen.
    destruct (IH (pre ++ [y0]) y (S i)) as (vals & Hv & Hl & Hs & Hn & Hin).
    { rewrite length_app. simpl. lia. }
    { lia. }
    rewrite <- app_assoc in Hv. simpl in Hv.
    assert (Forall (λ v, v ∈ y0 :: y) vals) as Hin'.
    { eapply Forall_impl; [exact Hin|]. intros v Hvin. simpl in *.
      by right. }
    csimpl. rewrite inner_cons, sum_cons. unfold same_leaf at 1 3.
    rewrite (Z.eqb_sym idx x).
    destruct (x =? idx)%Z eqn:Hx.
    + exists (y0 :: vals). rewrite take_rows_cons, Hv.
      rewrite list_lookup_middle by done. csimpl. split; [done|]. split; [by rewrite Hl|].
      split; [rewrite sum_cons, Hs; ring|].
      split.
      * rewrite Nat2Z.inj_succ, <- Z.add_1_r, inject_Z_plus, Hn.
        simpl. ring.
      * constructor; [by left|done].
    + exists vals. split; [done|]. split; [done|].
      split; [rewrite Hs; ring|]. split; [rewrite Hn; ring|done].
Qed.

Lemma where_eq_take (col : list Z) (idx : Z) (y : vector) :
  length y = length col →
  ∃ vals, Np.take_rows (where_eq col idx) y = Some vals
    ∧ length vals = length (where_eq col idx)
    ∧ (Np.sum vals == Np.inner (same_leaf idx <$> col) y)%Q
    ∧ (inject_Z (Z.of_nat (length vals))
       == Np.sum (same_leaf idx <$> col))%Q
    ∧ Forall (λ v, v ∈ y) vals.
Proof. intros Hlen. by apply (where_from_take col idx [] y 0). Qed.

Lemma where_from_nil (col : list Z) (idx : Z) (i : nat) :
  length (where_from i col idx) = 0 ↔ idx ∉ col.
Proof.
  revert i. induction col as [|x col IH]; intros i; simpl.
  - split; [intros _; apply not_elem_of_nil|done].
  - rewrite not_elem_of_cons. destruct (x =? idx)%Z eqn:Hx.
    + apply Z.eqb_eq in Hx. simpl. split; [lia|]. intros [? _]. congruence.
    + apply Z.eqb_neq in Hx. rewrite IH. split; [|tauto].
      intros ?. split; [congruence|done].
Qed.

Lemma inner_zero_l (u v : vector) :
  Forall (λ w, w = 0%Q) u → (Np.inner u v == 0)%Q.
Proof.
  intros Hu. revert v. induction Hu as [|w u -> _ IH]; intros v.
  - reflexivity.
  - destruct v as [|b v]; [reflexivity|]. rewrite inner_cons, IH. ring.
Qed.

(** What the loop of [honest_fit_func_out] leaves in [leaf_means]. *)
Lemma honest_fit_loop_spec (tree : nat) (forest_apply : list (list Z))
    (col : list Z) (y : vector) (max_id : nat) :
  Np.column tree forest_apply = Some col → length y = length col →
  ∃ lm, honest_fit_func_out tree forest_apply y max_id = Some lm
    ∧ length lm = max_id
    ∧ ∀ idx, idx < max_id →
        (Z.of_nat idx ∉ col → lm !! idx = Some 0%Q)
        ∧ (Z.of_nat idx ∈ col →
           ∃ v, lm !! idx = Some v ∧ (v == leaf_mean col y (Z.of_nat idx))%Q).
Proof.
  intros Hcol Hlen. unfold honest_fit_func_out.
  destruct (for_range_inv
    (λ n lm, length lm = max_id
       ∧ ∀ idx, idx < n →
           (Z.of_nat idx ∉ col → lm !! idx = Some 0%Q)
           ∧ (Z.of_nat idx ∈ col →
              ∃ v, lm !! idx = Some v
                   ∧ (v == leaf_mean col y (Z.of_nat idx))%Q))
    0 max_id
    (λ idx leaf_means,
       col ← Np.column tree forest_apply;
       let row_idx := where_eq col (Z.of_nat idx) in
       if length row_idx =? 0
       then Some (<[idx := 0%Q]> leaf_means)
       else
         vals ← Np.take_rows row_idx y;
         Some (<[idx := mean vals]> leaf_means))
    (replicate max_id 0%Q)) as (lm & Hlm & Hinv).
  - lia.
  - split; [by rewrite length_replicate|]. intros idx Hidx. lia.
  - intros k lm Hk [Hl Hprev]. rewrite Hcol. csimpl.
    destruct (where_eq_take col (Z.of_nat k) y Hlen)
      as (vals & Hv & Hlv & Hs & Hn & _).
    assert (∀ v idx, idx < k → <[k:=v]> lm !! idx = lm !! idx) as Hne.
    { intros v idx Hidx. apply list_lookup_insert_ne. lia. }
    destruct (length (where_eq col (Z.of_nat k)) =? 0) eqn:Hz.
    + apply Nat.eqb_eq in Hz. pose proof Hz as Hnot.
      unfold where_eq in Hnot. apply where_from_nil in Hnot.
      eexists. split; [reflexivity|]. split; [by rewrite length_insert|].
      intros idx Hidx. destruct (decide (idx = k)) as [->|Hik].
      * split; [|done]. intros _. apply list_lookup_insert_eq. lia.
      * rewrite Hne by lia. apply Hprev. lia.
    + apply Nat.eqb_neq in Hz. rewrite Hv. csimpl.
      eexists. split; [reflexivity|]. split; [by rewrite length_insert|].
      intros idx Hidx. destruct (decide (idx = k)) as [->|Hik].
      * split.
        { intros Hnot. apply where_from_nil with (i := 0) in Hnot.
          unfold where_eq in Hz. lia. }
        intros _. exists (mean vals).
        split; [apply list_lookup_insert_eq; lia|].
        unfold mean, leaf_mean. by rewrite Hs, Hn.
      * rewrite Hne by lia. apply Hprev. lia.
  - exists lm. split; [exact Hlm|]. destruct Hinv as [Hl Hall].
    split; [exact Hl|exact Hall].
Qed.

Lemma fmap_seq_lookup {A B : Type} (f : nat → B) (g : A → B) (l : list A) :
  (∀ j x, l !! j = Some x → f j = g x) →
  f <$> seq 0 (length l) = g <$> l.
Proof.
  intros H. apply list_eq. intros j. rewrite !list_lookup_fmap.
  destruct (l !! j) as [x|] eqn:Hj.
  - rewrite lookup_seq_lt by (by eapply lookup_lt_Some). simpl.
    by rewrite (H j x Hj).
  - rewrite (lookup_ge_None_2 (seq 0 _)); [done|].
    rewrite length_seq. by apply lookup_ge_None.
Qed.

(** The transposed one-hot matrix of a column has one row per leaf id:
    the indicators of the observations in the leaf. *)
Lemma transpose_onehot (col : list Z) :
  col ≠ [] →
  Np.transpose (Sk.onehot_row (Np.unique col) <$> col)
  = (λ c, same_leaf c <$> col) <$> Np.unique col.
Proof.
  intros Hne. unfold Np.transpose.
  assert (Np.width (Sk.onehot_row (Np.unique col) <$> col)
          = length (Np.unique col)) as ->.
  { destruct col as [|x col]; [done|]. simpl. unfold Sk.onehot_row.
    by rewrite length_fmap. }
  apply fmap_seq_lookup. intros j c Hj. unfold Np.col.
  rewrite <- list_fmap_compose. apply list_fmap_ext. intros _ x _. simpl.
  unfold Np.get, Sk.onehot_row. rewrite list_lookup_fmap, Hj. simpl.
  unfold same_leaf. by rewrite Z.eqb_sym.
Qed.

Lemma assign_at_cons (k : nat) (ks : list nat) (v : Q) (vs a : vector) :
  assign_at (k :: ks) (v :: vs) a = assign_at ks vs (<[k := v]> a).
Proof. reflexivity. Qed.

Lemma assign_at_lookup (ks : list nat) (vs a : vector) :
  NoDup ks → length vs = length ks → Forall (λ k, k < length a) ks →
  length (assign_at ks vs a) = length a
  ∧ (∀ j k v, ks !! j = Some k → vs !! j = Some v →
       assign_at ks vs a !! k = Some v)
  ∧ (∀ k, k ∉ ks → assign_at ks vs a !! k = a !! k).
Proof.
  intros Hnd. revert vs a.
  induction Hnd as [|k ks Hk Hnd IH]; intros vs a Hlen Hlt.
  - destruct vs; [|done]. split; [done|]. split; [|done].
    intros j k v Hj. by rewrite lookup_nil in Hj.
  - destruct vs as [|v vs]; [done|]. rewrite assign_at_cons.
    apply Forall_cons in Hlt as [Hka Hlt].
    destruct (IH vs (<[k := v]> a)) as (H1 & H2 & H3).
    { simpl in Hlen. lia. }
    { by rewrite length_insert. }
    rewrite length_insert in H1. split; [done|]. split.
    + intros j k' v' Hj Hv. destruct j as [|j]; simpl in *.
      * injection Hj as <-. injection Hv as <-.
        rewrite (H3 k Hk). by apply list_lookup_insert_eq.
      * by apply (H2 j).
    + intros k' Hk'. apply not_elem_of_cons in Hk' as [Hne Hk'].
      rewrite (H3 k' Hk'). by apply list_lookup_insert_ne.
Qed.

Lemma np_index_in_range (n : nat) (i : Z) :
  (0 ≤ i < Z.of_nat n)%Z → np_index n i = Some (Z.to_nat i).
Proof.
  intros Hi. unfold np_index.
  assert ((0 <=? i)%Z && (i <? Z.of_nat n)%Z = true) as ->; [|done].
  apply andb_true_iff. split; [apply Z.leb_le|apply Z.ltb_lt]; lia.
Qed.

Lemma mapM_np_index (n : nat) (l : list Z) :
  Forall (λ i, (0 ≤ i < Z.of_nat n)%Z) l →
  mapM (np_index n) l = Some (Z.to_nat <$> l).
Proof.
  intros Hl. apply mapM_Some. induction Hl as [|i l Hi _ IH]; csimpl.
  - constructor.
  - constructor; [by apply np_index_in_range|done].
Qed.

(** What [honest_fit_numpy_func] returns. *)
Lemma honest_fit_numpy_spec (tree : nat) (forest_apply : list (list Z))
    (col : list Z) (y : vector) (max_id : nat) :
  Np.column tree forest_apply = Some col → col ≠ [] →
  length y = length col →
  Forall (λ x, (0 ≤ x < Z.of_nat max_id)%Z) col →
  ∃ lm, honest_fit_numpy_func tree forest_apply y max_id = Some lm
    ∧ length lm = max_id
    ∧ ∀ idx, idx < max_id →
        (Z.of_nat idx ∉ col → lm !! idx = Some 0%Q)
        ∧ (Z.of_nat idx ∈ col →
           lm !! idx = Some (leaf_mean col y (Z.of_nat idx))).
Proof.
  intros Hcol Hne Hlen Hrange. unfold honest_fit_numpy_func.
  rewrite Hcol. cbn [mbind option_bind].
  rewrite onehot_Some by done. cbn [mbind option_bind].
  rewrite transpose_onehot by done.
  set (cats := Np.unique col).
  assert (Forall (λ x, (0 ≤ x < Z.of_nat max_id)%Z) cats) as Hcats.
  { apply Forall_forall. intros x Hx. unfold cats in Hx.
    rewrite unique_elem_of in Hx.
    rewrite Forall_forall in Hrange. by apply Hrange. }
  unfold dot_vec.
  assert (forallb (λ row, length row =? length y)
            ((λ c, same_leaf c <$> col) <$> cats) = true) as ->.
  { apply forallb_forall. intros row Hrow. apply list_elem_of_In in Hrow.
    apply list_elem_of_fmap in Hrow as (c & -> & _).
    rewrite length_fmap. apply Nat.eqb_eq. lia. }
  cbn [mbind option_bind].
  rewrite (mapM_np_index max_id cats Hcats). cbn [mbind option_bind].
  rewrite <- !list_fmap_compose.
  rewrite zip_with_fmap_l, zip_with_fmap_r, zip_with_diag.
  destruct (assign_at_lookup (Z.to_nat <$> cats)
              ((λ c, leaf_mean col y c) <$> cats) (replicate max_id 0%Q))
    as (H1 & H2 & H3).
  { apply NoDup_fmap_2_strong; [|apply unique_NoDup].
    intros a b Ha Hb Hab. rewrite Forall_forall in Hcats.
    pose proof (Hcats a Ha). pose proof (Hcats b Hb). lia. }
  { by rewrite !length_fmap. }
  { apply Forall_fmap, Forall_forall. intros c Hc. simpl.
    rewrite length_replicate. rewrite Forall_forall in Hcats.
    pose proof (Hcats c Hc). lia. }
  eexists. split; [reflexivity|].
  rewrite length_replicate in H1. split; [exact H1|].
  intros idx Hidx. split.
  - intros Hnot. rewrite H3.
    + by apply lookup_replicate_2.
    + intros Hin. apply list_elem_of_fmap in Hin as (c & Hc & Hin).
      apply Hnot. unfold cats in Hin. rewrite unique_elem_of in Hin.
      rewrite Forall_forall in Hrange. pose proof (Hrange c Hin).
      replace (Z.of_nat idx) with c by lia. done.
  - intros Hin. rewrite <- unique_elem_of in Hin. fold cats in Hin.
    apply list_elem_of_lookup in Hin as [j Hj].
    apply (H2 j).
    + rewrite list_lookup_fmap, Hj. simpl. by rewrite Nat2Z.id.
    + by rewrite list_lookup_fmap, Hj.
Qed.

(** X6. On a non-empty honest sample whose leaf ids of the tree lie in
    [0, max_id), with one outcome per honest observation, the loop of
    [honest_fit_func] (and [honest_fit_func_out], the same code) and the
    one-hot computation of [honest_fit_numpy_func] both return, and they
    return the same [max_id] leaf means. *)
Theorem honest_fit_implementations_agree (tree : nat)
    (forest_apply : list (list Z)) (col : list Z) (y : vector)
    (max_id : nat) :
  Np.column tree forest_apply = Some col → col ≠ [] →
  length y = length col →
  Forall (λ x, (0 ≤ x < Z.of_nat max_id)%Z) col →
  ∃ lm lm',
    honest_fit_func tree forest_apply y max_id = Some lm
    ∧ honest_fit_func_out tree forest_apply y max_id = Some lm
    ∧ honest_fit_numpy_func tree forest_apply y max_id = Some lm'
    ∧ length lm = max_id
    ∧ vec_eq lm lm'.
Proof.
  intros Hcol Hne Hlen Hrange.
  destruct (honest_fit_loop_spec tree forest_apply col y max_id Hcol Hlen)
    as (lm & Hlm & Hl & Hloop).
  destruct (honest_fit_numpy_spec tree forest_apply col y max_id Hcol Hne
              Hlen Hrange) as (lm' & Hlm' & Hl' & Hnp).
  exists lm, lm'. split; [exact Hlm|]. split; [exact Hlm|].
  split; [exact Hlm'|]. split; [exact Hl|].
  unfold vec_eq. apply Forall2_same_length_lookup_2; [lia|].
  intros idx v v' Hv Hv'.
  assert (idx < max_id) as Hidx.
  { rewrite <- Hl. by eapply lookup_lt_Some. }
  destruct (Hloop idx Hidx) as [Hl0 Hl1]. destruct (Hnp idx Hidx) as [Hn0 Hn1].
  destruct (decide (Z.of_nat idx ∈ col)) as [Hin|Hnot].
  - destruct (Hl1 Hin) as (w & Hw & Heq). rewrite (Hn1 Hin) in Hv'.
    rewrite Hw in Hv. injection Hv as <-. injection Hv' as <-. exact Heq.
  - rewrite (Hl0 Hnot) in Hv. rewrite (Hn0 Hnot) in Hv'.
    injection Hv as <-. injection Hv' as <-. reflexivity.
Qed.

Lemma inner_same_leaf_bounds (idx : Z) (col : list Z) (y : vector)
    (lo hi : Q) :
  length y = length col → Forall (λ v, lo <= v <= hi)%Q y →
  (lo * Np.sum (same_leaf idx <$> col)
   <= Np.inner (same_leaf idx <$> col) y)%Q
  ∧ (Np.inner (same_leaf idx <$> col) y
     <= hi * Np.sum (same_leaf idx <$> col))%Q.
Proof.
  revert y. induction col as [|x col IH]; intros y Hlen Hy.
  - csimpl. rewrite inner_nil_l, sum_nil. lra.
  - destruct y as [|v y]; [done|]. apply Forall_cons in Hy as [Hv Hy].
    destruct (IH y) as [IH1 IH2]; [simpl in Hlen; lia|done|].
    csimpl. rewrite inner_cons, sum_cons. simpl in Hv.
    assert (same_leaf idx x = 0%Q ∨ same_leaf idx x = 1%Q) as [-> | ->]
      by (unfold same_leaf; destruct (idx =? x)%Z; auto);
      lra.
Qed.

(** X7. The leaf means of [honest_fit_func]: the entry of a leaf index
    that no honest observation of the tree falls into is 0, the entry of
    any other leaf index below [max_id] is the sum of the honest outcomes
    in the leaf over their number (which is at least 1); if the outcomes
    lie in [lo, hi] with [lo <= 0 <= hi] (binary outcomes: [0, 1]), so do
    all leaf means. *)
Theorem honest_fit_leaf_means (tree : nat) (forest_apply : list (list Z))
    (col : list Z) (y : vector) (max_id : nat) (lo hi : Q) :
  Np.column tree forest_apply = Some col → length y = length col →
  (lo <= 0)%Q → (0 <= hi)%Q → Forall (λ v, lo <= v <= hi)%Q y →
  ∃ lm, honest_fit_func tree forest_apply y max_id = Some lm
    ∧ length lm = max_id
    ∧ (∀ idx, idx < max_id → Z.of_nat idx ∉ col → lm !! idx = Some 0%Q)
    ∧ (∀ idx, idx < max_id → Z.of_nat idx ∈ col →
         (1 <= Np.sum (same_leaf (Z.of_nat idx) <$> col))%Q
         ∧ (Np.get lm idx
            == Np.inner (same_leaf (Z.of_nat idx) <$> col) y
               / Np.sum (same_leaf (Z.of_nat idx) <$> col))%Q)
    ∧ Forall (λ v, lo <= v <= hi)%Q lm.
Proof.
  intros Hcol Hlen Hlo Hhi Hy.
  destruct (honest_fit_loop_spec tree forest_apply col y max_id Hcol Hlen)
    as (lm & Hlm & Hl & Hloop).
  exists lm. split; [exact Hlm|]. split; [exact Hl|]. split; [|split].
  - intros idx Hidx Hnot. by apply (Hloop idx Hidx).
  - intros idx Hidx Hin. split; [by apply sum_same_leaf_in|].
    destruct (Hloop idx Hidx) as [_ H1]. destruct (H1 Hin) as (v & Hv & Heq).
    unfold Np.get. rewrite Hv. simpl. exact Heq.
  - apply Forall_lookup. intros idx v Hv.
    assert (idx < max_id) as Hidx.
    { rewrite <- Hl. by eapply lookup_lt_Some. }
    destruct (Hloop idx Hidx) as [H0 H1].
    destruct (decide (Z.of_nat idx ∈ col)) as [Hin|Hnot].
    + destruct (H1 Hin) as (w & Hw & Heq). rewrite Hw in Hv.
      injection Hv as <-. rewrite Heq. unfold leaf_mean.
      pose proof (sum_same_leaf_in _ _ Hin) as Hpos.
      destruct (inner_same_leaf_bounds (Z.of_nat idx) col y lo hi Hlen Hy)
        as [Hb1 Hb2].
      split.
      * apply Qle_shift_div_l; lra.
      * apply Qle_shift_div_r; lra.
    + rewrite (H0 Hnot) in Hv. injection Hv as <-. lra.
Qed.

Lemma inner_div_l (u v : vector) (s : Q) :
  (Np.inner ((λ w, w / s) <$> u) v == Np.inner u v / s)%Q.
Proof.
  revert v. induction u as [|a u IH]; intros v; csimpl.
  - rewrite !inner_nil_l. unfold Qdiv. ring.
  - destruct v as [|b v].
    + unfold Np.inner. simpl. rewrite !sum_nil. unfold Qdiv. ring.
    + rewrite !inner_cons, IH. unfold Qdiv. ring.
Qed.

(** One tree's weights reproduce its honest leaf means: for an
    evaluation observation whose leaf id lies in [0, max_id), the inner
    product of its row of [honest_weight_numpy_out] with the honest
    outcomes equals the entry of [honest_fit_func_out] for its leaf; for an
    evaluation observation whose leaf holds no honest observation the
    inner product is 0. *)
Lemma tree_weights_give_leaf_means (tree : nat)
    (forest_apply forest_apply_all : list (list Z)) (honest all : list Z)
    (y : vector) (max_id : nat) :
  Np.column tree forest_apply = Some honest →
  Np.column tree forest_apply_all = Some all →
  all ≠ [] → length y = length honest →
  ∃ W lm,
    honest_weight_numpy_out tree forest_apply forest_apply_all
      (length forest_apply_all) (length forest_apply) = Some W
    ∧ honest_fit_func_out tree forest_apply y max_id = Some lm
    ∧ length W = length all
    ∧ ∀ i leaf w, all !! i = Some leaf → W !! i = Some w →
        ((0 ≤ leaf < Z.of_nat max_id)%Z →
         (Np.inner w y == Np.get lm (Z.to_nat leaf))%Q)
        ∧ (leaf ∉ honest → (Np.inner w y == 0)%Q).
Proof.
  intros Hh Ha Hne Hlen.
  destruct (honest_fit_loop_spec tree forest_apply honest y max_id Hh Hlen)
    as (lm & Hlm & Hl & Hloop).
  unfold honest_weight_numpy_out. rewrite Hh, Ha. cbn [mbind option_bind].
  rewrite <- (column_length _ _ _ Hh), <- (column_length _ _ _ Ha).
  rewrite (tree_weight_spec honest all Hne).
  eexists _, lm. split; [reflexivity|]. split; [exact Hlm|].
  split; [by rewrite length_fmap|].
  intros i leaf w Hi Hw. rewrite list_lookup_fmap, Hi in Hw.
  injection Hw as <-. rewrite inner_div_l.
  assert (leaf ∈ all) as Hin by (by eapply list_elem_of_lookup_2).
  assert (leaf ∉ honest → (Np.inner (same_leaf leaf <$> honest) y == 0)%Q)
    as Hzero.
  { intros Hnot. apply inner_zero_l.
    by apply (sum_same_leaf_notin leaf honest). }
  split.
  - intros Hrange.
    assert (Z.to_nat leaf < max_id) as Hidx by lia.
    destruct (Hloop (Z.to_nat leaf) Hidx) as [H0 H1].
    rewrite Z2Nat.id in H0, H1 by lia. unfold Np.get.
    destruct (extra_honest_spec honest all leaf Hin)
      as [[Hhon Hex]|[Hnot Hex]].
    + destruct (H1 Hhon) as (v & Hv & Heq). rewrite Hv. simpl.
      rewrite Heq. unfold leaf_mean.
      rewrite fmap_app, sum_app.
      destruct (sum_same_leaf_notin leaf _ Hex) as [_ ->].
      apply Qdiv_comp; [reflexivity|ring].
    + rewrite (H0 Hnot). simpl. rewrite (Hzero Hnot). unfold Qdiv. ring.
  - intros Hnot. rewrite (Hzero Hnot). unfold Qdiv. ring.
Qed.

(** ** The two honest prediction routes *)

Lemma inner_nil_r (u : vector) : Np.inner u [] = 0%Q.
Proof. by destruct u. Qed.

Lemma inner_add (a b y : vector) :
  length a = length b →
  (Np.inner (zip_with Qplus a b) y == Np.inner a y + Np.inner b y)%Q.
Proof.
  revert b y. induction a as [|x a IH]; intros b y Hlen.
  - destruct b; [|done]. simpl. rewrite !inner_nil_l. ring.
  - destruct b as [|x' b]; [done|]. destruct y as [|v y].
    + rewrite !inner_nil_r. ring.
    + simpl. rewrite !inner_cons, IH by (simpl in Hlen; lia). ring.
Qed.

Lemma rowi_shape (n m : nat) (M : matrix) (i : nat) :
  has_shape n m M → i < n → M !! i = Some (rowi M i) ∧ length (rowi M i) = m.
Proof.
  intros [Hn Hm] Hi. unfold rowi.
  destruct (lookup_lt_is_Some_2 M i) as [row Hrow]; [lia|].
  rewrite Hrow. simpl. split; [done|].
  rewrite Forall_forall in Hm. apply Hm. by eapply list_elem_of_lookup_2.
Qed.

Lemma inner_foldl_add (n m : nat) (Ms : list matrix) (acc : matrix)
    (y : vector) (i : nat) :
  Forall (has_shape n m) Ms → has_shape n m acc → i < n →
  (Np.inner (rowi (foldl Np.add acc Ms) i) y
   == Np.inner (rowi acc i) y
      + Np.sum ((λ M, Np.inner (rowi M i) y) <$> Ms))%Q.
Proof.
  intros HMs. revert acc.
  induction HMs as [|M Ms HM _ IH]; intros acc Hacc Hi.
  - csimpl. rewrite sum_nil. ring.
  - csimpl. rewrite (IH (Np.add acc M) (add_shape n m acc M Hacc HM) Hi).
    rewrite sum_cons.
    destruct (rowi_shape n m acc i Hacc Hi) as [Ha Hla].
    destruct (rowi_shape n m M i HM Hi) as [Hb Hlb].
    assert (rowi (Np.add acc M) i = zip_with Qplus (rowi acc i) (rowi M i))
      as ->.
    { unfold rowi at 1, Np.add. by rewrite lookup_zip_with, Ha, Hb. }
    rewrite inner_add by lia. ring.
Qed.

Lemma sum_Forall2 (u v : vector) : Forall2 Qeq u v → (Np.sum u == Np.sum v)%Q.
Proof.
  induction 1 as [|x y u v Hxy _ IH]; [reflexivity|].
  by rewrite !sum_cons, Hxy, IH.
Qed.

Section Routes.
Variables (n_estimators : nat) (forest_apply forest_apply_all : list (list Z)).
Variables (y : vector) (max_id : nat).
Hypothesis Htrees : 0 < n_estimators.
Hypothesis Hall : forest_apply_all ≠ [].
Hypothesis Hfa : Forall (λ row, length row = n_estimators) forest_apply.
Hypothesis Hfaa : Forall (λ row, length row = n_estimators) forest_apply_all.
Hypothesis Hy : length y = length forest_apply.

Let n_samples := length forest_apply_all.
Let n_est := length forest_apply.

Lemma routes_columns (tree : nat) :
  tree < n_estimators →
  ∃ honest all,
    Np.column tree forest_apply = Some honest
    ∧ Np.column tree forest_apply_all = Some all
    ∧ all ≠ [] ∧ length y = length honest.
Proof.
  intros Ht.
  destruct (column_Some tree forest_apply) as [honest Hh].
  { eapply Forall_impl; [exact Hfa|]. intros row Hrow. simpl in *. lia. }
  destruct (column_Some tree forest_apply_all) as [all Ha].
  { eapply Forall_impl; [exact Hfaa|]. intros row Hrow. simpl in *. lia. }
  exists honest, all. split; [done|]. split; [done|]. split.
  - intros ->. apply column_length in Ha. by destruct forest_apply_all.
  - rewrite (column_length _ _ _ Hh). exact Hy.
Qed.

(** The weights route returns, and its prediction for observation [i] is
    the mean over the trees of the inner products of the trees' rows with
    the outcomes. *)
Lemma weights_route_spec :
  ∃ Ms p W,
    mapM (λ tree, honest_weight_numpy_out tree forest_apply forest_apply_all
                    n_samples n_est) (seq 0 n_estimators) = Some Ms
    ∧ weights_route n_estimators forest_apply forest_apply_all y
        n_samples n_est = Some (p, W)
    ∧ length p = n_samples
    ∧ Forall (has_shape n_samples n_est) Ms
    ∧ ∀ i v, p !! i = Some v →
        (v == Np.sum ((λ M, Np.inner (rowi M i) y) <$> Ms)
              / inject_Z (Z.of_nat n_estimators))%Q.
Proof.
  set (f := λ tree, honest_weight_numpy_out tree forest_apply
                      forest_apply_all n_samples n_est).
  assert (forest_out_numpy_loop n_estimators forest_apply forest_apply_all
            n_samples n_est
          = (trees_out ← mapM f (seq 0 n_estimators);
             Some (foldl Np.add (Np.zeros n_samples n_est) trees_out)))
    as Hloop by apply loop_as_map.
  assert (is_Some (mapM f (seq 0 n_estimators))) as [Ms HMs].
  { apply mapM_is_Some, Forall_forall. intros tree Htree.
    apply elem_of_seq in Htree. apply honest_weight_returns; [done|..].
    - eapply Forall_impl; [exact Hfa|]. intros row Hrow. simpl in *. lia.
    - eapply Forall_impl; [exact Hfaa|]. intros row Hrow. simpl in *. lia. }
  assert (Forall (has_shape n_samples n_est) Ms) as Hshape.
  { pose proof HMs as HMs'. apply mapM_Some in HMs'.
    apply Forall_forall. intros M HM.
    apply list_elem_of_lookup in HM as [t HM].
    destruct (Forall2_lookup_r _ _ _ _ _ HMs' HM) as (tree & _ & Htree).
    by apply honest_weight_shape in Htree. }
  destruct (foldl_add_spec n_samples n_est Ms _ Hshape
              (zeros_shape n_samples n_est)) as [HF _].
  set (F := foldl Np.add (Np.zeros n_samples n_est) Ms) in *.
  set (c := inject_Z (Z.of_nat n_estimators)).
  unfold weights_route, forest_weights. rewrite Hloop, HMs.
  cbn [mbind option_bind]. fold F. fold c.
  assert (length (Np.div_scalar F c) = n_samples) as HlenW.
  { unfold Np.div_scalar. rewrite length_fmap. by destruct HF. }
  unfold dot_vec.
  assert (forallb (λ row, length row =? length y) (Np.div_scalar F c) = true)
    as ->.
  { apply forallb_forall. intros row Hrow. apply list_elem_of_In in Hrow.
    unfold Np.div_scalar in Hrow.
    apply list_elem_of_fmap in Hrow as (r & -> & Hr).
    rewrite length_fmap. apply Nat.eqb_eq. destruct HF as [_ HF].
    rewrite Forall_forall in HF. rewrite (HF r Hr). by rewrite Hy. }
  cbn [mbind option_bind].
  eexists Ms, _, _. split; [reflexivity|]. split; [reflexivity|].
  split; [by rewrite length_fmap|]. split; [exact Hshape|].
  intros i v Hv. rewrite list_lookup_fmap in Hv.
  destruct (Np.div_scalar F c !! i) as [w|] eqn:Hw; [|done].
  simpl in Hv. injection Hv as <-.
  assert (i < n_samples) as Hi.
  { rewrite <- HlenW. by eapply lookup_lt_Some. }
  unfold Np.div_scalar in Hw. rewrite list_lookup_fmap in Hw.
  destruct (rowi_shape n_samples n_est F i HF Hi) as [HFi _].
  rewrite HFi in Hw. simpl in Hw. injection Hw as <-.
  rewrite inner_div_l.
  pose proof (inner_foldl_add n_samples n_est Ms _ y i Hshape
                (zeros_shape n_samples n_est) Hi) as HFsum.
  fold F in HFsum. rewrite HFsum.
  assert (Np.inner (rowi (Np.zeros n_samples n_est) i) y == 0)%Q as ->.
  { apply inner_zero_l. unfold rowi, Np.zeros.
    rewrite lookup_replicate_2 by done. simpl. apply Forall_replicate.
    reflexivity. }
  unfold Qdiv. ring.
Qed.

End Routes.

Section RoutesAgree.
Variables (n_estimators : nat) (forest_apply forest_apply_all : list (list Z)).
Variables (y : vector) (max_id : nat).
Hypothesis Htrees : 0 < n_estimators.
Hypothesis Hall : forest_apply_all ≠ [].
Hypothesis Hfa : Forall (λ row, length row = n_estimators) forest_apply.
Hypothesis Hfaa : Forall (λ row, length row = n_estimators) forest_apply_all.
Hypothesis Hy : length y = length forest_apply.

Let n_samples := length forest_apply_all.
Let n_est := length forest_apply.
Let g : Z * vector → option Q :=
  λ '(leaf, leaf_means),
    i ← np_index (length leaf_means) leaf; leaf_means !! i.

(** The leaf means of every estimator are computed. *)
Lemma fitted_loop_spec :
  ∃ lms, fitted_loop n_estimators forest_apply y max_id = Some lms
    ∧ length lms = n_estimators
    ∧ ∀ t lm, lms !! t = Some lm →
        honest_fit_func_out t forest_apply y max_id = Some lm
        ∧ length lm = max_id.
Proof.
  unfold fitted_loop.
  set (f := λ tree, honest_fit_func tree forest_apply y max_id).
  assert (is_Some (mapM f (seq 0 n_estimators))) as [lms Hlms].
  { apply mapM_is_Some, Forall_forall. intros tree Htree.
    apply elem_of_seq in Htree.
    destruct (routes_columns n_estimators forest_apply forest_apply_all y
                Htrees Hall Hfa Hfaa Hy tree) as (honest & all & Hh & _ & _ & Hlen);
      [lia|].
    destruct (honest_fit_loop_spec tree forest_apply honest y max_id Hh Hlen)
      as (lm & Hlm & _). by exists lm. }
  exists lms. split; [exact Hlms|].
  pose proof (length_mapM _ _ _ Hlms) as Hlen. rewrite length_seq in Hlen.
  split; [done|]. intros t lm Ht.
  apply mapM_Some in Hlms.
  destruct (Forall2_lookup_r _ _ _ _ _ Hlms Ht) as (tree & Hseq & Hf).
  apply lookup_seq in Hseq as [-> _]. simpl in Hf. split; [exact Hf|].
  destruct (routes_columns n_estimators forest_apply forest_apply_all y
              Htrees Hall Hfa Hfaa Hy t) as (honest & all & Hh & _ & _ & Hleny).
  { rewrite Hlen. by eapply lookup_lt_Some. }
  destruct (honest_fit_loop_spec t forest_apply honest y max_id Hh Hleny)
    as (lm' & Hlm' & Hl & _).
  unfold f, honest_fit_func in Hf. unfold honest_fit_func_out in Hlm'.
  rewrite Hf in Hlm'. by injection Hlm' as <-.
Qed.

(** X8. The two honest prediction routes agree.  For a forest of at least
    one tree, honest outcomes [y] with one entry per honest observation and
    evaluation observations whose leaf ids lie in [0, max_id), the
    predictions through the leaf means ([honest_fit_func] for every tree,
    [fitted[forest_apply, grid]] and the mean over the trees, as in [fit]
    without inference and in [predict_leafmeans]) and the predictions
    through the weights (the loop over [honest_weight_numpy], the division
    by [n_estimators] and [np.dot(forest_out, outcome_ind_est)], as in
    [fit] with inference and in [predict_weights]) both return, and they
    are equal. *)
Theorem leafmeans_and_weights_routes_agree :
  Forall (Forall (λ x, (0 ≤ x < Z.of_nat max_id)%Z)) forest_apply_all →
  ∃ p p' W,
    leafmeans_route n_estimators forest_apply forest_apply_all y max_id
    = Some p
    ∧ weights_route n_estimators forest_apply forest_apply_all y
        n_samples n_est = Some (p', W)
    ∧ length p = n_samples
    ∧ vec_eq p p'.
Proof.
  intros Hrange.
  destruct (weights_route_spec n_estimators forest_apply forest_apply_all y
              Htrees Hall Hfa Hfaa Hy)
    as (Ms & p' & W & HMs & Hw & Hlp' & Hshape & Hp').
  fold n_samples n_est in HMs, Hw, Hlp', Hshape.
  destruct fitted_loop_spec as (lms & Hlms & Hllms & Hlm).
  pose proof (length_mapM _ _ _ HMs) as HlMs. rewrite length_seq in HlMs.
  (* every row is read *)
  assert (∀ i row, forest_apply_all !! i = Some row →
            ∃ y_hat, mapM g (zip row lms) = Some y_hat
              ∧ length y_hat = n_estimators
              ∧ (Np.sum y_hat
                 == Np.sum ((λ M, Np.inner (rowi M i) y) <$> Ms))%Q)
    as Hrow.
  { intros i row Hi.
    assert (length row = n_estimators) as Hlrow.
    { rewrite Forall_forall in Hfaa. apply Hfaa.
      by eapply list_elem_of_lookup_2. }
    assert (Forall (λ x, (0 ≤ x < Z.of_nat max_id)%Z) row) as Hrrow.
    { rewrite Forall_forall in Hrange. apply Hrange.
      by eapply list_elem_of_lookup_2. }
    assert (is_Some (mapM g (zip row lms))) as [y_hat Hyh].
    { apply mapM_is_Some, Forall_lookup. intros t [leaf lm] Ht.
      apply lookup_zip_with_Some in Ht as (leaf' & lm' & Heq & Hleaf & Hlmt).
      injection Heq as <- <-. simpl.
      destruct (Hlm t lm Hlmt) as [_ Hl].
      assert (0 ≤ leaf < Z.of_nat max_id)%Z as Hr.
      { rewrite Forall_forall in Hrrow. apply Hrrow.
        by eapply list_elem_of_lookup_2. }
      rewrite Hl, (np_index_in_range max_id leaf Hr). simpl.
      apply lookup_lt_is_Some_2. lia. }
    exists y_hat. split; [exact Hyh|].
    pose proof (length_mapM _ _ _ Hyh) as Hlyh.
    rewrite length_zip_with in Hlyh.
    split; [lia|].
    apply sum_Forall2. apply Forall2_same_length_lookup_2.
    { rewrite length_fmap. lia. }
    intros t v v' Hv Hv'. rewrite list_lookup_fmap in Hv'.
    destruct (Ms !! t) as [M|] eqn:HM; [|done]. simpl in Hv'.
    injection Hv' as <-.
    apply mapM_Some in Hyh.
    destruct (Forall2_lookup_r _ _ _ _ _ Hyh Hv) as ([leaf lm] & Hz & Hg).
    apply lookup_zip_with_Some in Hz as (leaf' & lm' & Heq & Hleaf & Hlmt).
    injection Heq as <- <-.
    destruct (Hlm t lm Hlmt) as [Hfit Hl].
    assert (0 ≤ leaf < Z.of_nat max_id)%Z as Hr.
    { rewrite Forall_forall in Hrrow. apply Hrrow.
      by eapply list_elem_of_lookup_2. }
    simpl in Hg. rewrite Hl, (np_index_in_range max_id leaf Hr) in Hg.
    simpl in Hg.
    assert (t < n_estimators) as Ht.
    { rewrite <- Hllms. by eapply lookup_lt_Some. }
    destruct (routes_columns n_estimators forest_apply forest_apply_all y
                Htrees Hall Hfa Hfaa Hy t Ht) as (honest & all & Hh & Ha & Hne & Hly).
    destruct (tree_weights_give_leaf_means t forest_apply forest_apply_all
                honest all y max_id Hh Ha Hne Hly)
      as (Wt & lm' & HWt & Hfit' & HlW & Hrows).
    rewrite Hfit in Hfit'. injection Hfit' as <-.
    apply mapM_Some in HMs.
    destruct (Forall2_lookup_r _ _ _ _ _ HMs HM) as (tree & Hseq & Htree).
    apply lookup_seq in Hseq as [-> _]. simpl in Htree.
    fold n_samples n_est in HWt. rewrite Htree in HWt. injection HWt as <-.
    assert (all !! i = Some leaf) as Hai.
    { unfold Np.column in Ha. apply mapM_Some in Ha.
      destruct (Forall2_lookup_l _ _ _ _ _ Ha Hi) as (x & Hx & Hrx).
      rewrite Hleaf in Hrx. by injection Hrx as <-. }
    assert (i < length M) as HiM.
    { rewrite HlW. by eapply lookup_lt_Some. }
    destruct (lookup_lt_is_Some_2 M i HiM) as [w Hwi].
    destruct (Hrows i leaf w Hai Hwi) as [Heq _].
    unfold rowi. rewrite Hwi. simpl. rewrite (Heq Hr).
    unfold Np.get. rewrite Hg. reflexivity. }
  (* the leaf-means route returns *)
  unfold leafmeans_route. rewrite Hlms. cbn [mbind option_bind].
  unfold leafmeans_predictions. fold g.
  set (h := λ row : list Z,
              if negb (length row =? length lms) then None
              else y_hat ← mapM g (zip row lms); Some (mean y_hat)).
  assert (is_Some (mapM h forest_apply_all)) as [p Hp].
  { apply mapM_is_Some, Forall_lookup. intros i row Hi.
    destruct (Hrow i row Hi) as (y_hat & Hyh & _). unfold h. simpl.
    assert (length row = n_estimators) as Hlrow.
    { rewrite Forall_forall in Hfaa. apply Hfaa.
      by eapply list_elem_of_lookup_2. }
    rewrite Hllms, Hlrow, Nat.eqb_refl. simpl. rewrite Hyh. by eexists. }
  exists p, p', W. split; [exact Hp|]. split; [exact Hw|].
  pose proof (length_mapM _ _ _ Hp) as Hlp. split; [done|].
  unfold vec_eq. apply Forall2_same_length_lookup_2.
  { unfold n_samples in Hlp'. lia. }
  intros i v v' Hv Hv'. rewrite (Hp' i v' Hv').
  apply mapM_Some in Hp.
  destruct (Forall2_lookup_r _ _ _ _ _ Hp Hv) as (row & Hi & Hh).
  destruct (Hrow i row Hi) as (y_hat & Hyh & Hlyh & Hsum).
  unfold h in Hh.
  assert (length row = n_estimators) as Hlrow.
  { rewrite Forall_forall in Hfaa. apply Hfaa.
    by eapply list_elem_of_lookup_2. }
  rewrite Hllms, Hlrow, Nat.eqb_refl in Hh. simpl in Hh.
  rewrite Hyh in Hh. simpl in Hh. injection Hh as <-.
  unfold mean. by rewrite Hsum, Hlyh.
Qed.

(** X9. An evaluation observation whose leaf id in some tree is
    [max_id] or more (a leaf beyond every leaf of the honest sample, with
    [max_id = np.max(forest_apply) + 1]) makes the leaf-means route raise
    at [fitted[forest_apply, grid]], while the weights route returns. *)
Theorem leafmeans_route_raises_beyond_max_id (i tree : nat) (row : list Z)
    (leaf : Z) :
  forest_apply_all !! i = Some row → row !! tree = Some leaf →
  (Z.of_nat max_id ≤ leaf)%Z →
  leafmeans_route n_estimators forest_apply forest_apply_all y max_id = None
  ∧ is_Some (weights_route n_estimators forest_apply forest_apply_all y
               n_samples n_est).
Proof.
  intros Hi Hleaf Hbig. split.
  - destruct fitted_loop_spec as (lms & Hlms & Hllms & Hlm).
    unfold leafmeans_route. rewrite Hlms. cbn [mbind option_bind].
    unfold leafmeans_predictions. fold g.
    set (h := λ row : list Z,
                if negb (length row =? length lms) then None
                else y_hat ← mapM g (zip row lms); Some (mean y_hat)).
    destruct (mapM h forest_apply_all) as [p|] eqn:Hp; [|done].
    exfalso. apply mapM_Some in Hp.
    destruct (Forall2_lookup_l _ _ _ _ _ Hp Hi) as (v & _ & Hh).
    unfold h in Hh. destruct (negb _); [done|].
    destruct (mapM g (zip row lms)) as [y_hat|] eqn:Hyh; [|done].
    apply mapM_Some in Hyh.
    assert (length row = n_estimators) as Hlrow.
    { rewrite Forall_forall in Hfaa. apply Hfaa.
      by eapply list_elem_of_lookup_2. }
    assert (tree < length lms) as Ht.
    { rewrite Hllms, <- Hlrow. by eapply lookup_lt_Some. }
    destruct (lookup_lt_is_Some_2 lms tree Ht) as [lm Hlmt].
    assert (zip row lms !! tree = Some (leaf, lm)) as Hz.
    { apply lookup_zip_with_Some. by exists leaf, lm. }
    destruct (Forall2_lookup_l _ _ _ _ _ Hyh Hz) as (w & _ & Hg).
    destruct (Hlm tree lm Hlmt) as [_ Hl]. simpl in Hg.
    rewrite Hl in Hg. unfold np_index in Hg.
    assert ((0 <=? leaf)%Z && (leaf <? Z.of_nat max_id)%Z = false) as Hf1.
    { apply andb_false_iff. right. apply Z.ltb_ge. lia. }
    assert ((- Z.of_nat max_id <=? leaf)%Z && (leaf <? 0)%Z = false) as Hf2.
    { apply andb_false_iff. right. apply Z.ltb_ge. lia. }
    rewrite Hf1, Hf2 in Hg. done.
  - destruct (weights_route_spec n_estimators forest_apply forest_apply_all y
                Htrees Hall Hfa Hfaa Hy) as (Ms & p' & W & _ & Hw & _).
    fold n_samples n_est in Hw. rewrite Hw. by eexists.
Qed.

End RoutesAgree.

Lemma honest_fit_implementations_agree_witness :
  ∃ lm lm',
    honest_fit_func 0 Ex.forest_apply2 Ex2.outcome_ind_est 2 = Some lm
    ∧ honest_fit_func_out 0 Ex.forest_apply2 Ex2.outcome_ind_est 2 = Some lm
    ∧ honest_fit_numpy_func 0 Ex.forest_apply2 Ex2.outcome_ind_est 2
      = Some lm'
    ∧ length lm = 2
    ∧ vec_eq lm lm'.
Proof.
  apply (honest_fit_implementations_agree 0 Ex.forest_apply2 [0; 0; 1]%Z
           Ex2.outcome_ind_est 2).
  - reflexivity.
  - discriminate.
  - reflexivity.
  - repeat constructor; lia.
Defined.

Lemma honest_fit_leaf_means_witness :
  ∃ lm, honest_fit_func 0 Ex.forest_apply2 Ex2.outcome_ind_est 3 = Some lm
    ∧ length lm = 3
    ∧ lm !! 2 = Some 0%Q
    ∧ Forall (λ v, 0 <= v <= 1)%Q lm.
Proof.
  destruct (honest_fit_leaf_means 0 Ex.forest_apply2 [0; 0; 1]%Z
              Ex2.outcome_ind_est 3 0 1) as (lm & Hlm & Hl & H0 & _ & Hb).
  - reflexivity.
  - reflexivity.
  - lra.
  - lra.
  - repeat constructor; lra.
  - exists lm. split; [exact Hlm|]. split; [exact Hl|]. split; [|exact Hb].
    apply H0; [lia|]. intros Hin.
    repeat (apply elem_of_cons in Hin as [Hin|Hin]; [discriminate|]).
    by apply elem_of_nil in Hin.
Defined.

Lemma leafmeans_and_weights_routes_agree_witness :
  ∃ p p' W,
    leafmeans_route 2 Ex.forest_apply2 Ex2.forest_apply_new
      Ex2.outcome_ind_est 2 = Some p
    ∧ weights_route 2 Ex.forest_apply2 Ex2.forest_apply_new
        Ex2.outcome_ind_est 2 3 = Some (p', W)
    ∧ length p = 2
    ∧ vec_eq p p'.
Proof.
  apply (leafmeans_and_weights_routes_agree 2 Ex.forest_apply2
           Ex2.forest_apply_new Ex2.outcome_ind_est 2).
  - lia.
  - discriminate.
  - repeat constructor.
  - repeat constructor.
  - reflexivity.
  - repeat constructor; lia.
Defined.

Lemma leafmeans_route_raises_beyond_max_id_witness :
  leafmeans_route 2 Ex.forest_apply2 Ex.forest_apply_all2
    Ex2.outcome_ind_est 2 = None
  ∧ is_Some (weights_route 2 Ex.forest_apply2 Ex.forest_apply_all2
               Ex2.outcome_ind_est 3 3).
Proof.
  apply (leafmeans_route_raises_beyond_max_id 2 Ex.forest_apply2
           Ex.forest_apply_all2 Ex2.outcome_ind_est 2 ltac:(lia)
           ltac:(discriminate) ltac:(repeat constructor)
           ltac:(repeat constructor) eq_refl 2 0 [2; 1]%Z 2%Z).
  - reflexivity.
  - reflexivity.
  - lia.
Defined.

(** ** [predict]: the predicted classes *)

Lemma argmax_from_spec (v : vector) (best : Q) (best_i i : nat) :
  best_i < i →
  let r := argmax_from best best_i i v in
  ∃ m, (best <= m)%Q
    ∧ Forall (λ x, x <= m)%Q v
    ∧ ((r = best_i ∧ m = best) ∨ (i ≤ r ∧ v !! (r - i) = Some m))
    ∧ r < i + length v
    ∧ (r ≠ best_i → (best < m)%Q)
    ∧ (∀ j x, v !! j = Some x → i + j < r → (x < m)%Q).
Proof.
  revert best best_i i. induction v as [|x v IH]; intros best best_i i Hlt.
  - simpl. exists best. split; [lra|]. split; [constructor|].
    split; [by left|]. split; [lia|]. split; [done|].
    intros j y Hj. by rewrite lookup_nil in Hj.
  - simpl. destruct (Qltb best x) eqn:Hb.
    + apply Qltb_true in Hb.
      destruct (IH x i (S i)) as (m & Hm & Hall & Hloc & Hr & Hne & Hfirst);
        [lia|].
      exists m. split; [lra|]. split; [by constructor|].
      split; [|split; [lia|split]].
      * right. destruct Hloc as [[-> ->]|[Hge Hlook]].
        { split; [lia|]. by rewrite Nat.sub_diag. }
        split; [lia|].
        replace (argmax_from x i (S i) v - i)
          with (S (argmax_from x i (S i) v - S i)) by lia.
        exact Hlook.
      * intros _. lra.
      * intros j y Hj Hjr. destruct j as [|j]; simpl in Hj.
        { injection Hj as <-. apply Hne. lia. }
        apply (Hfirst j y Hj). lia.
    + apply Qltb_false in Hb.
      destruct (IH best best_i (S i)) as (m & Hm & Hall & Hloc & Hr & Hne
                                           & Hfirst); [lia|].
      exists m. split; [lra|]. split; [constructor; [lra|done]|].
      split; [|split; [lia|split; [done|]]].
      * destruct Hloc as [[-> ->]|[Hge Hlook]]; [by left|]. right.
        split; [lia|].
        replace (argmax_from best best_i (S i) v - i)
          with (S (argmax_from best best_i (S i) v - S i)) by lia.
        exact Hlook.
      * intros j y Hj Hjr. destruct j as [|j]; simpl in Hj.
        { injection Hj as <-.
          assert (best < m)%Q by (apply Hne; lia). lra. }
        apply (Hfirst j y Hj). lia.
Qed.

(** [row.argmax() + 1] of a non-empty row: a position of the row, counted
    from 1, that holds the row maximum, and the first one that does. *)
Lemma argmax1_spec (v : vector) :
  v ≠ [] →
  1 ≤ argmax1 v ≤ length v
  ∧ ∃ m, v !! (argmax1 v - 1) = Some m
      ∧ Forall (λ x, x <= m)%Q v
      ∧ (∀ j x, v !! j = Some x → j < argmax1 v - 1 → (x < m)%Q).
Proof.
  destruct v as [|x v]; [done|]. intros _. unfold argmax1.
  destruct (argmax_from_spec v x 0 1) as (m & Hm & Hall & Hloc & Hr & Hne
                                           & Hfirst); [lia|].
  set (r := argmax_from x 0 1 v) in *. simpl in Hr.
  split; [simpl; lia|]. exists m.
  replace (r + 1 - 1) with r by lia.
  split; [|split].
  - destruct Hloc as [[-> ->]|[Hge Hlook]]; [done|].
    destruct r as [|r]; [lia|]. simpl.
    by replace (S r - 1) with r in Hlook by lia.
  - by constructor.
  - intros j y Hj Hjr. destruct j as [|j]; simpl in Hj.
    + injection Hj as <-. apply Hne. lia.
    + apply (Hfirst j y Hj). lia.
Qed.

Lemma sum_le_max (v : vector) (m : Q) :
  Forall (λ x, x <= m)%Q v →
  (Np.sum v <= m * inject_Z (Z.of_nat (length v)))%Q.
Proof.
  induction 1 as [|x v Hx _ IH].
  - rewrite sum_nil. change (0 <= m * 0)%Q. lra.
  - rewrite sum_cons. cbn [length].
    rewrite Nat2Z.inj_succ, <- Z.add_1_r, inject_Z_plus. simpl in *.
    change (inject_Z 1) with 1%Q. lra.
Qed.

Section PredictClasses.
Variable predict_default : OrderedForest → matrix → nat → matrix.
Variable predict_leafmeans : OrderedForest → matrix → nat → matrix.
Variable predict_weights :
  OrderedForest → matrix → nat → matrix * gmap nat matrix.

(** X10. [predict] with [prob=False] on new data: whatever the fitted
    model's honesty and inference settings are, the result holds one class
    per row of the assembled class probabilities and no variance
    ([honest_variance] is not run); every class is a column position of
    its row counted from 1, its probability is the row maximum and at
    least 1 over the number of classes, and every earlier class has a
    strictly smaller probability. *)
Theorem predict_classes_are_modal (self : OrderedForest) (X : matrix) :
  check_array X = Returned X →
  Np.width X = n_features self →
  array_equal X (forest_X_fit self) = false →
  let n_samples := length X in
  let pw :=
    if negb (honesty self) then (predict_default self X n_samples, ∅)
    else if negb (inference self)
    then (predict_leafmeans self X n_samples, ∅)
    else predict_weights self X n_samples in
  let class_probs := assemble_class_probs pw.1 in
  predict predict_default predict_leafmeans predict_weights self (Some X)
    (PyBool false)
  = Returned {| result_prob := false;
                result_predictions := Classes (argmax1 <$> class_probs);
                result_variances := VarNone |}
  ∧ Forall (λ row,
      1 ≤ argmax1 row ≤ length row
      ∧ ∃ m, row !! (argmax1 row - 1) = Some m
          ∧ Forall (λ x, x <= m)%Q row
          ∧ (∀ j x, row !! j = Some x → j < argmax1 row - 1 → (x < m)%Q)
          ∧ (1 <= m * inject_Z (Z.of_nat (length row)))%Q)
      class_probs.
Proof.
  intros Hcheck Hwidth Harr n_samples pw class_probs. split.
  - unfold predict. rewrite Hcheck, Hwidth, Nat.eqb_refl. simpl.
    rewrite Harr. unfold class_probs, pw, n_samples.
    destruct (honesty self), (inference self); simpl; try reflexivity.
    by destruct (predict_weights self X (length X)).
  - unfold class_probs. rewrite assemble_rows.
    apply Forall_fmap, Forall_forall. intros row _. cbv beta.
    destruct (normalized_row_ok row) as [Hsum Hpos]. cbv zeta in Hsum, Hpos.
    set (out := (λ x, x / Np.sum (clipped_row row))%Q <$> clipped_row row)
      in *.
    assert (out ≠ []) as Hne.
    { intros Hnil. rewrite Hnil, sum_nil in Hsum. lra. }
    destruct (argmax1_spec out Hne) as (Hrange & m & Hm & Hall & Hfirst).
    split; [exact Hrange|]. exists m. split; [exact Hm|].
    split; [exact Hall|]. split; [exact Hfirst|].
    pose proof (sum_le_max out m Hall) as Hle. by rewrite Hsum in Hle.
Qed.

End PredictClasses.

Lemma predict_classes_are_modal_witness :
  let X := [[1; 1]; [2; 2]]%Q in
  let paths (_ : OrderedForest) (_ : matrix) (_ : nat) : matrix :=
    [[1 # 4; 3 # 4]; [9 # 10; 3 # 10]]%Q in
  predict paths paths Ex.no_weights Ex.fitted2 (Some X) (PyBool false)
  = Returned {| result_prob := false;
                result_predictions := Classes [2; 1];
                result_variances := VarNone |}.
Proof.
  intros X paths.
  destruct (predict_classes_are_modal paths paths Ex.no_weights Ex.fitted2 X
              eq_refl eq_refl eq_refl) as [H _].
  exact H.
Defined.

(** ** The outcome classes *)

Lemma filter_length_mono {A : Type} (P Q : A → Prop)
    `{!∀ x, Decision (P x)} `{!∀ x, Decision (Q x)} (l : list A) :
  (∀ x, P x → Q x) → length (filter P l) ≤ length (filter Q l).
Proof.
  intros HPQ. induction l as [|x l IH]; [done|].
  rewrite !filter_cons. destruct (decide (P x)) as [HP|HP].
  - rewrite decide_True by auto. simpl. lia.
  - destruct (decide (Q x)); simpl; lia.
Qed.

Lemma filter_length_strict {A : Type} (P Q : A → Prop)
    `{!∀ x, Decision (P x)} `{!∀ x, Decision (Q x)} (l : list A) (a : A) :
  (∀ x, P x → Q x) → a ∈ l → Q a → ¬ P a →
  length (filter P l) < length (filter Q l).
Proof.
  intros HPQ Ha HQ HP. induction l as [|x l IH]; [by apply elem_of_nil in Ha|].
  rewrite !filter_cons. apply elem_of_cons in Ha as [<-|Ha].
  - rewrite decide_False by done. rewrite decide_True by done. simpl.
    pose proof (filter_length_mono P Q l HPQ). lia.
  - specialize (IH Ha). destruct (decide (P x)) as [HPx|HPx].
    + rewrite decide_True by auto. simpl. lia.
    + destruct (decide (Q x)); simpl; lia.
Qed.

(** The rank of [v] among the values [u]. *)
Lemma searchsorted_order (u : list Z) (v w : Z) :
  v ∈ u → w ∈ u →
  ((v < w)%Z ↔ (searchsorted u v < searchsorted u w)%Z)
  ∧ (v = w ↔ searchsorted u v = searchsorted u w).
Proof.
  intros Hv Hw. unfold searchsorted.
  assert (∀ a b, a ∈ u → (a < b)%Z →
            length (filter (λ x, (x < a)%Z) u)
            < length (filter (λ x, (x < b)%Z) u)) as Hlt.
  { intros a b Ha Hab. apply (filter_length_strict _ _ u a); [|done|lia..].
    intros x Hx. lia. }
  split; split.
  - intros Hvw. specialize (Hlt v w Hv Hvw). lia.
  - intros Hr. destruct (Z.lt_trichotomy v w) as [?|[->|Hwv]]; [done|lia|].
    specialize (Hlt w v Hw Hwv). lia.
  - by intros ->.
  - intros Hr. destruct (Z.lt_trichotomy v w) as [Hvw|[?|Hwv]]; [|done|].
    + specialize (Hlt v w Hv Hvw). lia.
    + specialize (Hlt w v Hw Hwv). lia.
Qed.

Lemma searchsorted_range (u : list Z) (v : Z) :
  v ∈ u → (0 ≤ searchsorted u v < Z.of_nat (length u))%Z.
Proof.
  intros Hv. unfold searchsorted.
  assert (length (filter (λ x, (x < v)%Z) u) < length u); [|lia].
  induction u as [|x u IH]; [by apply elem_of_nil in Hv|].
  rewrite filter_cons. apply elem_of_cons in Hv as [<-|Hv].
  - rewrite decide_False by lia. pose proof (length_filter (λ x, (x < v)%Z) u).
    simpl. lia.
  - specialize (IH Hv). destruct (decide (x < v)%Z); simpl; lia.
Qed.

Lemma foldl_Zmin_le (x : Z) (l : list Z) :
  (foldl Z.min x l ≤ x)%Z ∧ Forall (λ y, (foldl Z.min x l ≤ y)%Z) l.
Proof.
  revert x. induction l as [|y l IH]; intros x; simpl.
  - split; [lia|constructor].
  - destruct (IH (Z.min x y)) as [H1 H2].
    split; [lia|]. constructor; [lia|done].
Qed.

Lemma foldl_Zmax_ge (x : Z) (l : list Z) :
  (x ≤ foldl Z.max x l)%Z ∧ Forall (λ y, (y ≤ foldl Z.max x l)%Z) l.
Proof.
  revert x. induction l as [|y l IH]; intros x; simpl.
  - split; [lia|constructor].
  - destruct (IH (Z.max x y)) as [H1 H2].
    split; [lia|]. constructor; [lia|done].
Qed.

Lemma py_min_max_bounds (l : list Z) (x : Z) :
  x ∈ l → (py_min l ≤ x ≤ py_max l)%Z.
Proof.
  destruct l as [|a l]; [intros H; by apply elem_of_nil in H|].
  intros Hx. unfold py_min, py_max.
  destruct (foldl_Zmin_le a l) as [Hm1 Hm2].
  destruct (foldl_Zmax_ge a l) as [HM1 HM2].
  apply elem_of_cons in Hx as [->|Hx]; [lia|].
  rewrite Forall_forall in Hm2, HM2.
  pose proof (Hm2 x Hx). pose proof (HM2 x Hx). simpl in *. lia.
Qed.

(** A list of [n] distinct numbers below [n] holds every number below
    [n]. *)
Lemma NoDup_below_all (l : list nat) (n k : nat) :
  NoDup l → length l = n → Forall (λ x, x < n) l → k < n → k ∈ l.
Proof.
  intros Hnd Hlen Hlt Hk.
  assert (l ⊆+ seq 0 n) as Hsub.
  { apply NoDup_submseteq; [done|]. intros x Hx. apply elem_of_seq.
    rewrite Forall_forall in Hlt. pose proof (Hlt x Hx). simpl in *. lia. }
  assert (l ≡ₚ seq 0 n) as Hperm.
  { apply submseteq_length_Permutation; [done|]. rewrite length_seq. lia. }
  rewrite Hperm. apply elem_of_seq. lia.
Qed.

(** What [fit] makes of the outcomes: they are mapped by a strictly
    increasing function onto 1, ..., [nclass]. *)
Lemma fit_classes_spec (integer_dtype : bool) (y : list Z) :
  y ≠ [] →
  let nclass := length (Np.unique y) in
  ∃ f : Z → Z,
    fit_classes integer_dtype y = Some (nclass, f <$> y)
    ∧ (∀ v w, v ∈ y → w ∈ y →
         ((v < w)%Z ↔ (f v < f w)%Z) ∧ (v = w ↔ f v = f w))
    ∧ (∀ v, v ∈ y → (1 ≤ f v ≤ Z.of_nat nclass)%Z)
    ∧ (∀ c, (1 ≤ c ≤ Z.of_nat nclass)%Z → ∃ v, v ∈ y ∧ f v = c).
Proof.
  intros Hne nclass. set (u := Np.unique y) in *.
  assert (∀ v, v ∈ y ↔ v ∈ u) as Hu.
  { intros v. unfold u. by rewrite unique_elem_of. }
  assert (NoDup u) as Hnd by apply unique_NoDup.
  (* the recoding *)
  assert (∃ f : Z → Z,
            recode y = f <$> y
            ∧ (∀ v w, v ∈ y → w ∈ y →
                 ((v < w)%Z ↔ (f v < f w)%Z) ∧ (v = w ↔ f v = f w))
            ∧ (∀ v, v ∈ y → (1 ≤ f v ≤ Z.of_nat nclass)%Z)
            ∧ (∀ c, (1 ≤ c ≤ Z.of_nat nclass)%Z → ∃ v, v ∈ y ∧ f v = c))
    as Hrecode.
  { exists (λ v, searchsorted u v + 1)%Z. split; [done|]. split; [|split].
    - intros v w Hv Hw. apply Hu in Hv, Hw.
      destruct (searchsorted_order u v w Hv Hw) as [H1 H2]. split.
      + rewrite H1. lia.
      + rewrite H2. split; intros ?; lia.
    - intros v Hv. apply Hu in Hv.
      pose proof (searchsorted_range u v Hv). unfold nclass. lia.
    - intros c Hc.
      set (rank := λ v, Z.to_nat (searchsorted u v)).
      assert (Z.to_nat (c - 1) ∈ rank <$> u) as Hin.
      { apply (NoDup_below_all _ nclass).
        - apply NoDup_fmap_2_strong; [|done]. intros a b Ha Hb Hab.
          destruct (searchsorted_order u a b Ha Hb) as [_ H2]. apply H2.
          pose proof (searchsorted_range u a Ha).
          pose proof (searchsorted_range u b Hb). unfold rank in Hab. lia.
        - by rewrite length_fmap.
        - apply Forall_fmap, Forall_forall. intros v Hv. simpl.
          pose proof (searchsorted_range u v Hv). unfold rank, nclass. lia.
        - lia. }
      apply list_elem_of_fmap in Hin as (v & Hrank & Hv).
      exists v. split; [by apply Hu|].
      pose proof (searchsorted_range u v Hv). unfold rank in Hrank. lia. }
  unfold fit_classes. destruct y as [|y0 y]; [done|].
  fold u. fold nclass.
  destruct (negb integer_dtype).
  { destruct Hrecode as (f & -> & Hf). by exists f. }
  destruct (negb _) eqn:Hcheck.
  { destruct Hrecode as (f & -> & Hf). by exists f. }
  apply negb_false_iff, andb_true_iff in Hcheck as [Hmin Hmax].
  apply Z.eqb_eq in Hmin, Hmax.
  assert (∀ v, v ∈ u → (1 ≤ v ≤ Z.of_nat nclass)%Z) as Hrange.
  { intros v Hv. pose proof (py_min_max_bounds u v Hv). lia. }
  exists (λ v, v). rewrite list_fmap_id. split; [done|].
  split; [done|]. split.
  - intros v Hv. apply Hrange. by apply Hu.
  - intros c Hc. exists c. split; [|done]. apply Hu.
    assert (Z.to_nat (c - 1) ∈ (λ v, Z.to_nat (v - 1)) <$> u) as Hin.
    { apply (NoDup_below_all _ nclass).
      - apply NoDup_fmap_2_strong; [|done]. intros a b Ha Hb Hab.
        pose proof (Hrange a Ha). pose proof (Hrange b Hb). lia.
      - by rewrite length_fmap.
      - apply Forall_fmap, Forall_forall. intros v Hv. simpl.
        pose proof (Hrange v Hv). lia.
      - lia. }
    apply list_elem_of_fmap in Hin as (v & Heq & Hv).
    pose proof (Hrange v Hv). replace c with v by lia. done.
Qed.

(** X11. What [fit] does to the outcomes.  For a non-empty vector of
    integer outcomes, held in an integer or a floating dtype, the number of
    classes is the number of distinct outcomes, and the outcomes [fit]
    goes on with (recoded by [np.searchsorted(np.unique(y), y) + 1], or
    left as they are when they are integers with minimum 1 and maximum
    [nclass]) are contiguous class labels: every one lies in 1..nclass,
    every label of 1..nclass occurs, and the order and the equality of any
    two outcomes are those of the original outcomes. *)
Theorem fit_classes_contiguous (integer_dtype : bool) (y : list Z) :
  y ≠ [] →
  let nclass := length (Np.unique y) in
  ∃ y', fit_classes integer_dtype y = Some (nclass, y')
    ∧ 0 < nclass
    ∧ length y' = length y
    ∧ Forall (λ v, (1 ≤ v ≤ Z.of_nat nclass)%Z) y'
    ∧ (∀ c, (1 ≤ c ≤ Z.of_nat nclass)%Z → c ∈ y')
    ∧ (∀ i j a b a' b',
         y !! i = Some a → y !! j = Some b →
         y' !! i = Some a' → y' !! j = Some b' →
         ((a < b)%Z ↔ (a' < b')%Z) ∧ (a = b ↔ a' = b')).
Proof.
  intros Hne nclass.
  destruct (fit_classes_spec integer_dtype y Hne)
    as (f & Hfit & Hord & Hrange & Hsurj).
  exists (f <$> y). split; [exact Hfit|]. split.
  { by apply unique_nonempty. }
  split; [by rewrite length_fmap|]. split; [|split].
  - apply Forall_fmap, Forall_forall. intros v Hv. by apply Hrange.
  - intros c Hc. destruct (Hsurj c Hc) as (v & Hv & <-).
    by apply list_elem_of_fmap_2.
  - intros i j a b a' b' Ha Hb Ha' Hb'.
    rewrite list_lookup_fmap, Ha in Ha'. rewrite list_lookup_fmap, Hb in Hb'.
    injection Ha' as <-. injection Hb' as <-.
    apply Hord; by eapply list_elem_of_lookup_2.
Qed.

(** X12. The binary outcomes of the forests, on the whole sample (no
    honesty split).  After the loop over [class_idx] in 1..nclass-1 the
    dictionary [outcome_binary] holds exactly these keys; the indicator
    [(y <= class_idx) * 1] of every key has one entry 0 or 1 per
    observation, holds a 1 and a 0 (no forest is fitted to a constant
    outcome), and is entry by entry at most the indicator of the next
    key. *)
Theorem outcome_binary_nested (integer_dtype : bool) (y y' : list Z)
    (nclass : nat) :
  fit_classes integer_dtype y = Some (nclass, y') →
  ∃ outcome_binary,
    outcome_binary_loop y' nclass = Some outcome_binary
    ∧ (∀ k, ¬ (1 ≤ k < nclass) → outcome_binary !! k = None)
    ∧ ∀ k, 1 ≤ k < nclass →
        ∃ b, outcome_binary !! k = Some b
          ∧ length b = length y
          ∧ Forall (λ x, x = 0%Q ∨ x = 1%Q) b
          ∧ 1%Q ∈ b ∧ 0%Q ∈ b
          ∧ ∀ b', outcome_binary !! (k + 1) = Some b' →
              Forall2 Qle b b'.
Proof.
  intros Hfit.
  assert (y ≠ []) as Hne by (intros ->; done).
  destruct (fit_classes_spec integer_dtype y Hne)
    as (f & Hfit' & _ & Hrange & Hsurj).
  rewrite Hfit in Hfit'. injection Hfit' as Hn ->.
  assert (0 < nclass) as Hpos by (rewrite Hn; by apply unique_nonempty).
  destruct (for_range_insert (λ k, k) (outcome_indicator (f <$> y)) 1 nclass
              (λ class_idx outcome_binary,
                 Some (<[class_idx := outcome_indicator (f <$> y) class_idx]>
                         outcome_binary)) ∅) as (d & Hd & Hin & Hout).
  { lia. }
  { done. }
  { done. }
  exists d. split; [exact Hd|]. split.
  { intros k Hk. rewrite Hout; [done|]. intros k' Hk' ->. lia. }
  intros k Hk. exists (outcome_indicator (f <$> y) k).
  split; [by apply Hin|]. unfold outcome_indicator.
  split; [by rewrite !length_fmap|]. split; [|split; [|split]].
  - apply Forall_fmap, Forall_forall. intros v _. simpl.
    destruct (v <=? Z.of_nat k)%Z; auto.
  - destruct (Hsurj (Z.of_nat k)) as (v & Hv & Hfv); [lia|].
    apply list_elem_of_fmap. exists (f v). split.
    + rewrite Hfv, Z.leb_refl. done.
    + by apply list_elem_of_fmap_2.
  - destruct (Hsurj (Z.of_nat nclass)) as (v & Hv & Hfv); [lia|].
    apply list_elem_of_fmap. exists (f v). split.
    + rewrite Hfv. by rewrite (proj2 (Z.leb_gt _ _)) by lia.
    + by apply list_elem_of_fmap_2.
  - intros b' Hb'.
    destruct (decide (k + 1 < nclass)) as [Hk1|Hk1].
    + rewrite (Hin (k + 1)) in Hb' by lia. injection Hb' as <-.
      apply Forall2_fmap, Forall_Forall2_diag, Forall_forall.
      intros v _.
      destruct (v <=? Z.of_nat k)%Z eqn:E1,
               (v <=? Z.of_nat (k + 1))%Z eqn:E2; try lra.
      apply Z.leb_le in E1. apply Z.leb_gt in E2. lia.
    + rewrite Hout in Hb'; [done|]. intros k' Hk' Heq. lia.
Qed.

Lemma fit_classes_contiguous_witness :
  ∃ y', fit_classes false [10; 30; 20; 30]%Z = Some (3, y')
    ∧ y' = [1; 3; 2; 3]%Z
    ∧ ∀ c, (1 ≤ c ≤ 3)%Z → c ∈ y'.
Proof.
  destruct (fit_classes_contiguous false [10; 30; 20; 30]%Z
              ltac:(discriminate)) as (y' & Hfit & _ & _ & _ & Hall & _).
  exists y'. split; [exact Hfit|].
  split; [by injection Hfit as <-|exact Hall].
Defined.

Lemma outcome_binary_nested_witness :
  ∃ outcome_binary,
    outcome_binary_loop [1; 3; 2; 3]%Z 3 = Some outcome_binary
    ∧ outcome_binary !! 1 = Some [1; 0; 0; 0]%Q
    ∧ outcome_binary !! 2 = Some [1; 0; 1; 0]%Q
    ∧ outcome_binary !! 3 = None.
Proof.
  destruct (outcome_binary_nested true [1; 3; 2; 3]%Z [1; 3; 2; 3]%Z 3
              eq_refl) as (d & Hd & Hnone & Hkeys).
  exists d. split; [exact Hd|].
  injection Hd as <-. repeat split; reflexivity.
Defined.

(** ** [margin]: the perturbed matrices and the marginal effects *)

Lemma col_min_max_bounds (col : vector) (x : Q) :
  x ∈ col → (col_min col <= x)%Q ∧ (x <= col_max col)%Q.
Proof.
  destruct col as [|a col]; [intros H; by apply elem_of_nil in H|].
  intros Hx. unfold col_min, col_max.
  destruct (foldl_Qmin_le a col) as [Hm1 Hm2].
  destruct (foldl_Qmax_ge a col) as [HM1 HM2].
  apply elem_of_cons in Hx as [->|Hx]; [done|].
  rewrite Forall_forall in Hm2, HM2.
  pose proof (Hm2 x Hx). pose proof (HM2 x Hx). done.
Qed.

Lemma n_unique_two_range (col : vector) :
  2 ≤ n_unique_col col → (col_min col < col_max col)%Q.
Proof.
  intros Hn. destruct (Qlt_le_dec (col_min col) (col_max col)) as [?|Hle];
    [done|].
  assert (constant_col col) as Hc.
  { intros x y Hx Hy.
    destruct (col_min_max_bounds col x Hx), (col_min_max_bounds col y Hy).
    lra. }
  apply n_unique_col_constant in Hc. lia.
Qed.

(** X13. Lines 1947-1953 on one entry: for a dummy (two distinct values
    in the column of [X_eval]) the up and the down value become the
    maximum and the minimum of the column, and the down value is below the
    up value; for a categorical covariate (3 to 10 distinct values) the up
    value becomes its ceiling and the down value is smaller by exactly 1;
    any other entry is left as it is. *)
Theorem margin_discrete_covariates (X_eval_col : vector) (c : cell) :
  let n := n_unique_col X_eval_col in
  let c' := adjust_cell X_eval_col n c in
  (n = 2 →
     up c' = col_max X_eval_col ∧ down c' = col_min X_eval_col
     ∧ (down c' < up c')%Q)
  ∧ (2 < n ≤ 10 →
     up c' = inject_Z (Qceiling (up c)) ∧ (up c' - down c' == 1)%Q
     ∧ (up c <= up c')%Q ∧ (up c' < up c + 1)%Q)
  ∧ (10 < n ∨ n < 2 → c' = c).
Proof.
  intros n c'. unfold c', adjust_cell. split; [|split].
  - intros Hn. rewrite Hn. simpl. split; [done|]. split; [done|].
    apply n_unique_two_range. fold n. lia.
  - intros Hn.
    assert ((n =? 2) = false) as -> by (apply Nat.eqb_neq; lia).
    assert ((2 <? n) && (n <=? 10) = true) as ->.
    { apply andb_true_iff. split; [apply Nat.ltb_lt|apply Nat.leb_le]; lia. }
    simpl. split; [done|]. split; [ring|].
    split; [apply Qle_ceiling|].
    pose proof (Qceiling_lt (up c)) as Hc.
    replace (Qceiling (up c) - 1)%Z with (Qceiling (up c) + -1)%Z in Hc
      by lia.
    rewrite inject_Z_plus in Hc. change (inject_Z (-1)) with (-1 # 1)%Q in Hc.
    lra.
  - intros Hn.
    assert ((n =? 2) = false) as -> by (apply Nat.eqb_neq; lia).
    assert ((2 <? n) && (n <=? 10) = false) as ->; [|done].
    apply andb_false_iff. destruct Hn as [Hn|Hn].
    + right. apply Nat.leb_gt. lia.
    + left. apply Nat.ltb_ge. lia.
Qed.

Lemma margin_discrete_covariates_witness :
  let c := {| up := 1 # 2; down := 1 # 3; sd := 1; cmax := 1; cmin := 0 |} in
  let c' := adjust_cell [0; 1; 1]%Q 2 c in
  up c' = 1%Q ∧ down c' = 0%Q ∧ (down c' < up c')%Q.
Proof.
  intros c.
  destruct (margin_discrete_covariates [0; 1; 1]%Q c) as [H _].
  exact (H eq_refl).
Defined.





Lemma adjust_cell_gap (col : vector) (c : cell) :
  (down c < up c)%Q →
  let c' := adjust_cell col (n_unique_col col) c in
  (down c' < up c')%Q.
Proof.
  intros Hc. unfold adjust_cell.
  destruct (n_unique_col col =? 2) eqn:E2.
  - apply Nat.eqb_eq in E2. rewrite E2. simpl.
    apply n_unique_two_range. lia.
  - destruct ((2 <? n_unique_col col) && (n_unique_col col <=? 10));
      simpl; lra.
Qed.

Lemma sum_pos (v : vector) :
  v ≠ [] → Forall (λ x, 0 < x)%Q v → (0 < Np.sum v)%Q.
Proof.
  intros Hne Hv. destruct v as [|x v]; [done|].
  apply Forall_cons in Hv as [Hx Hv]. rewrite sum_cons.
  assert (0 <= Np.sum v)%Q; [|lra].
  apply sum_nonneg. eapply Forall_impl; [exact Hv|].
  intros y Hy. simpl in *. lra.
Qed.

Lemma mean_pos (v : vector) :
  v ≠ [] → Forall (λ x, 0 < x)%Q v → (0 < mean v)%Q.
Proof.
  intros Hne Hv. unfold mean. pose proof (sum_pos v Hne Hv) as Hs.
  assert (0 < inject_Z (Z.of_nat (length v)))%Q as Hl.
  { change 0%Q with (inject_Z 0). rewrite <- Zlt_Qlt.
    destruct v; [done|]. simpl. lia. }
  apply Qlt_shift_div_l; [done|]. lra.
Qed.

(** The scaling factor of cells with a positive gap. *)
Lemma cells_scaling (cells : list (list cell)) (r c : nat)
    (n_unique : list nat) :
  length cells = r → Forall (λ row, length row = c) cells → 0 < r →
  Forall (Forall (λ c, down c < up c)%Q) cells →
  let X_up := fmap (M := list) up <$> cells in
  let X_down := fmap (M := list) down <$> cells in
  Forall2 (Forall2 Qlt) X_down X_up
  ∧ length (scaling_factor X_up X_down n_unique) = c
  ∧ Forall (λ s, 0 < s)%Q (scaling_factor X_up X_down n_unique).
Proof.
  intros Hr Hc Hpos Hgap X_up X_down.
  set (D := fmap (M := list) (λ c, up c - down c)%Q <$> cells).
  assert (Np.sub X_up X_down = D) as HD.
  { unfold Np.sub, X_up, X_down, D.
    rewrite zip_with_fmap_l, zip_with_fmap_r, zip_with_diag.
    apply list_fmap_ext. intros _ row _.
    by rewrite zip_with_fmap_l, zip_with_fmap_r, zip_with_diag. }
  assert (Np.width D = c) as Hw.
  { unfold D. destruct cells as [|row0 cells']; [simpl in Hr; lia|].
    simpl. rewrite length_fmap. by inversion Hc. }
  split; [|split].
  - unfold X_up, X_down. apply Forall2_fmap, Forall_Forall2_diag.
    eapply Forall_impl; [exact Hgap|]. intros row Hrow. simpl in *.
    by apply Forall2_fmap, Forall_Forall2_diag.
  - unfold scaling_factor. rewrite HD.
    by rewrite length_imap, length_fmap, length_transpose.
  - unfold scaling_factor. rewrite HD. apply Forall_lookup. intros j s Hs.
    rewrite list_lookup_imap, list_lookup_fmap in Hs.
    unfold Np.transpose in Hs. rewrite list_lookup_fmap in Hs.
    destruct (seq 0 (Np.width D) !! j) as [j'|] eqn:Hj; [|done].
    apply lookup_seq in Hj as [-> Hj]. simpl in Hs. rewrite Hw in Hj.
    assert (0 < mean (Np.col j D))%Q as Hmean.
    { apply mean_pos.
      - unfold Np.col, D. destruct cells; [simpl in Hr; lia|done].
      - unfold Np.col, D. rewrite <- list_fmap_compose.
        apply Forall_fmap, Forall_forall. intros row Hrow. simpl.
        assert (length row = c) as Hlrow.
        { rewrite Forall_forall in Hc. by apply Hc. }
        destruct (lookup_lt_is_Some_2 row j) as [cl Hcl]; [lia|].
        unfold Np.get. rewrite list_lookup_fmap, Hcl. simpl.
        rewrite Forall_forall in Hgap. specialize (Hgap row Hrow).
        rewrite Forall_forall in Hgap.
        pose proof (Hgap cl (list_elem_of_lookup_2 _ _ _ Hcl)) as Hg.
        simpl in Hg. lra. }
    destruct (n_unique !! j) as [n|]; [|by injection Hs as <-].
    destruct ((n =? 2) || ((2 <? n) && (n <=? 10)));
      injection Hs as <-; [reflexivity|done].
Qed.

(** X15. Over exact arithmetic (the rationals that stand for the
    floats): when every half window [h_std * X_sd] is positive, for at
    least one evaluation point with one entry per covariate, [X_down] is
    below [X_up] in every entry of the perturbed matrices of [margin]
    (also for the dummies and the categorical covariates), and every entry
    of the scaling factor [np.mean(X_up - X_down, axis=0)], set to 1 for
    dummies and categorical covariates, is positive.  A zero divisor on
    line 2061 therefore needs a half window that is zero, or one that
    floating-point rounding absorbs. *)
Theorem margin_scaling_factor_positive (np_std : vector → Q) (h : Q)
    (X_mean X_eval X_est : matrix) :
  X_mean ≠ [] →
  Forall (λ row, length row = Np.width X_est) X_mean →
  Np.width X_eval = Np.width X_est →
  Forall (λ col, 0 < h * np_std col)%Q (Np.transpose X_est) →
  let XX := perturbed np_std h X_mean X_eval X_est in
  let n_unique := n_unique_col <$> Np.transpose X_eval in
  Forall2 (Forall2 Qlt) XX.2 XX.1
  ∧ length (scaling_factor XX.1 XX.2 n_unique) = Np.width X_est
  ∧ Forall (λ s, 0 < s)%Q (scaling_factor XX.1 XX.2 n_unique).
Proof.
  intros Hne Hrows Hwidth Hsd XX n_unique.
  pose proof (clipped_cells_gap np_std h X_mean X_est Hsd) as Hgap.
  unfold XX, perturbed, inflate.
  rewrite (gap_no_coincide _ Hgap). fold n_unique. cbn [fst snd].
  set (cols := Np.transpose X_eval) in *.
  set (cells := (λ row, zip_with (λ c '(col, n), adjust_cell col n c) row
                          (zip cols n_unique))
                <$> clipped_cells np_std h X_mean X_est).
  apply (cells_scaling cells (length X_mean) (Np.width X_est)).
  - unfold cells, clipped_cells. by rewrite !length_fmap.
  - unfold cells, clipped_cells. rewrite <- list_fmap_compose.
    apply Forall_fmap, Forall_forall. intros row Hrow. simpl.
    rewrite !length_zip_with, length_fmap, length_transpose.
    unfold n_unique. rewrite length_fmap. unfold cols.
    rewrite length_transpose, Hwidth.
    rewrite Forall_forall in Hrows. rewrite (Hrows row Hrow). lia.
  - destruct X_mean; [done|simpl; lia].
  - unfold cells. apply Forall_fmap.
    eapply Forall_impl; [exact Hgap|]. intros row Hrow. simpl in *.
    apply Forall_lookup. intros j c Hc.
    apply lookup_zip_with_Some in Hc as (c0 & [col n] & -> & Hc0 & Hz).
    apply lookup_zip_with_Some in Hz as (col' & n' & Heq & Hcol & Hn).
    injection Heq as <- <-.
    unfold n_unique in Hn. rewrite list_lookup_fmap, Hcol in Hn.
    injection Hn as <-. apply adjust_cell_gap.
    rewrite Forall_forall in Hrow.
    apply (Hrow c0). by eapply list_elem_of_lookup_2.
Qed.

Lemma margin_scaling_factor_positive_witness :
  let X_est := [[1; 2]; [3; 4]]%Q in
  let XX := perturbed sample_std (1 # 10) X_est X_est X_est in
  let n_unique := n_unique_col <$> Np.transpose X_est in
  Forall2 (Forall2 Qlt) XX.2 XX.1
  ∧ length (scaling_factor XX.1 XX.2 n_unique) = 2
  ∧ Forall (λ s, 0 < s)%Q (scaling_factor XX.1 XX.2 n_unique).
Proof.
  intros X_est.
  apply (margin_scaling_factor_positive sample_std (1 # 10) X_est X_est X_est).
  - discriminate.
  - repeat constructor.
  - reflexivity.
  - repeat (constructor; try (by vm_compute)).
Defined.

(** ** The forest weights *)





Section WeightsTerms.
Variables (n_estimators : nat) (forest_apply forest_apply_all : list (list Z)).
Variable y : vector.
Hypothesis Htrees : 0 < n_estimators.
Hypothesis Hall : forest_apply_all ≠ [].
Hypothesis Hfa : Forall (λ row, length row = n_estimators) forest_apply.
Hypothesis Hfaa : Forall (λ row, length row = n_estimators) forest_apply_all.
Hypothesis Hy : length y = length forest_apply.

Let n_samples := length forest_apply_all.
Let n_est := length forest_apply.



End WeightsTerms.







(** ** The parameter checks *)

Ltac checks_step :=
  match goal with
  | H : context [match ?x with _ => _ end] |- _ =>
      let E := fresh "E" in destruct x eqn:E; try discriminate H
  end.

Ltac checks_normalise :=
  repeat match goal with
  | H : negb _ = false |- _ => apply negb_false_iff in H
  | H : _ && _ = true |- _ => apply andb_true_iff in H as [? ?]
  | H : (_ <=? _)%Z = true |- _ => apply Z.leb_le in H
  | H : Qltb _ _ = true |- _ => apply Qltb_true in H
  | H : Qleb _ _ = true |- _ => apply Qleb_true in H
  | H : bool_decide _ = true |- _ => apply bool_decide_eq_true in H
  | H : (_ =? _)%Z = true |- _ => apply Z.eqb_eq in H
  | H : (_ =? _)%Z = false |- _ => apply Z.eqb_neq in H
  end.

Ltac jobs_case cpu_count :=
  match goal with
  | H : (if (?n =? -1)%Z then _ else _) = Some _ |- _ =>
      destruct (n =? -1)%Z eqn:En;
        [apply Z.eqb_eq in En
        |apply Z.eqb_neq in En;
         destruct ((1 <=? n)%Z && (n <=? cpu_count)%Z) eqn:Er;
           [apply andb_true_iff in Er as [E1 E2];
            apply Z.leb_le in E1, E2
           |discriminate H]];
      injection H as <-
  end.

(** X18. What holds of the parameters once [input_checks] has returned:
    at least one tree and one observation per leaf, the three fractions in
    their intervals, honesty only without replacement, inference only with
    honesty and without replacement, and [n_jobs] equal to
    [cpu_count() - 1] for the argument -1 (which is 0 on a machine with
    one core) and between 1 and [cpu_count()] otherwise. *)
Theorem input_checks_invariants (check_random_state : pyval → bool)
    (cpu_count : Z) (self : Params.t) (c : Params.checked) :
  Params.input_checks check_random_state cpu_count self = Returned c →
  (1 ≤ Params.ck_n_estimators c)%Z
  ∧ (1 ≤ Params.ck_min_samples_leaf c)%Z
  ∧ (0 < Params.ck_max_features c <= 1)%Q
  ∧ (0 < Params.ck_sample_fraction c <= 1)%Q
  ∧ (0 < Params.ck_honesty_fraction c)%Q
  ∧ (Params.ck_honesty_fraction c < 1)%Q
  ∧ (Params.ck_honesty c = true → Params.ck_replace c = false)
  ∧ (Params.ck_inference c = true →
     Params.ck_honesty c = true ∧ Params.ck_replace c = false)
  ∧ (Params.as_int (Params.n_jobs self) = Some (-1)%Z →
     Params.ck_n_jobs c = (cpu_count - 1)%Z)
  ∧ (Params.as_int (Params.n_jobs self) ≠ Some (-1)%Z →
     (1 ≤ Params.ck_n_jobs c ≤ cpu_count)%Z
     ∧ Params.as_int (Params.n_jobs self) = Some (Params.ck_n_jobs c))
  ∧ Params.ck_pred_method c ∈ Params.pred_methods
  ∧ Params.ck_weight_method c ∈ Params.weight_methods.
Proof.
  unfold Params.input_checks. intros H.
  repeat checks_step.
  all: injection H as <-.
  all: cbn [Params.ck_n_estimators Params.ck_min_samples_leaf
    Params.ck_max_features Params.ck_sample_fraction
    Params.ck_honesty_fraction Params.ck_honesty Params.ck_replace
    Params.ck_inference Params.ck_n_jobs Params.ck_pred_method
    Params.ck_weight_method].
  all: try jobs_case cpu_count.
  all: checks_normalise.
  all: repeat match goal with b : bool |- _ => destruct b end.
  all: simpl in *; try discriminate.
  all: repeat split; intros; simplify_eq; try done; try lia; try lra.
Qed.

(** X19. The check "inference only possible if replace==False" of
    [input_checks] never fires: whatever the parameters, the number of
    cores and the seed, [input_checks] does not raise its [ValueError];
    parameters with inference and replacement are refused by one of the
    two checks before it (honesty with replacement, inference without
    honesty). *)
Theorem input_checks_subsampling_check_dead
    (check_random_state : pyval → bool) (cpu_count : Z) (self : Params.t) :
  Params.input_checks check_random_state cpu_count self
  ≠ Raised (ValueError Params.inference_needs_subsampling)
  ∧ (Params.inference self = PyBool true →
     Params.replace self = PyBool true →
     ∃ msg, Params.input_checks check_random_state cpu_count self
            = Raised (ValueError msg)
       ∧ msg ≠ Params.inference_needs_subsampling).
Proof.
  split.
  - unfold Params.input_checks. intros H.
    repeat checks_step.
    all: repeat match goal with b : bool |- _ => destruct b end.
    all: simpl in *; discriminate.
  - intros Hinf Hrep. unfold Params.input_checks. rewrite Hinf, Hrep.
    repeat match goal with
    | |- context [match ?x with _ => _ end] =>
        destruct x eqn:?; try (eexists; split; [reflexivity|discriminate])
    end.
    all: repeat match goal with b : bool |- _ => destruct b end.
    all: simpl in *; try discriminate.
Qed.

Lemma input_checks_invariants_witness :
  ∃ c, Params.input_checks (λ _, true) 1 Params.defaults = Returned c
    ∧ Params.ck_n_jobs c = 0%Z
    ∧ Params.ck_honesty c = false ∧ Params.ck_inference c = false.
Proof.
  eexists. split; [reflexivity|].
  destruct (input_checks_invariants (λ _, true) 1 Params.defaults _ eq_refl)
    as (_ & _ & _ & _ & _ & _ & _ & _ & Hjobs & _).
  split; [exact (Hjobs eq_refl)|]. split; reflexivity.
Defined.

Lemma input_checks_subsampling_check_dead_witness :
  let self :=
    {| Params.n_estimators := PyInt 10;
       Params.min_samples_leaf := PyInt 5;
       Params.max_features := PyFloat (3 # 10);
       Params.replace := PyBool true;
       Params.sample_fraction := PyFloat (1 # 2);
       Params.honesty := PyBool true;
       Params.honesty_fraction := PyFloat (1 # 2);
       Params.inference := PyBool true;
       Params.n_jobs := PyInt 1;
       Params.pred_method := PyStr "loop";
       Params.weight_method := PyStr "numpy_loop";
       Params.random_state := PyNone |} in
  ∃ msg, Params.input_checks (λ _, true) 4 self = Raised (ValueError msg)
    ∧ msg ≠ Params.inference_needs_subsampling.
Proof.
  intros self.
  destruct (input_checks_subsampling_check_dead (λ _, true) 4 self)
    as [_ H].
  exact (H eq_refl eq_refl).
Defined.

(** ** The aggregation strategy ['numpy_loop_multi'] *)

Lemma add_scalar_shape (n m : nat) (c : Q) (M : matrix) :
  has_shape n m M → has_shape n m (add_scalar c M).
Proof.
  intros [Hn Hm]. unfold add_scalar. split; [by rewrite length_fmap|].
  apply Forall_fmap. eapply Forall_impl; [exact Hm|].
  intros row Hrow. simpl in *. by rewrite length_fmap.
Qed.

Lemma entry_add_scalar (n m : nat) (c : Q) (M : matrix) (i j : nat) :
  has_shape n m M → i < n → j < m →
  Np.entry (add_scalar c M) i j = (c + Np.entry M i j)%Q.
Proof.
  intros HM Hi Hj.
  destruct (has_shape_lookup n m M i j HM Hi Hj) as (row & Hrow & Hx).
  apply (entry_lookup _ i j ((λ x, c + x)%Q <$> row)).
  - unfold add_scalar. by rewrite list_lookup_fmap, Hrow.
  - by rewrite list_lookup_fmap, Hx.
Qed.

(** X20. The strategy ['numpy_loop_multi'] ([Pool(self.n_jobs)],
    [pool.starmap] over the trees, Python's [sum], division by
    [n_estimators]) against the sequential strategy ['numpy_loop'].  With
    at least one process and at least one tree the two give equal forest
    weights over exact arithmetic: both raise, or both return equal
    matrices.  With fewer than one process (the 0 that [input_checks]
    stores for [n_jobs=-1] on a machine with one core) the pool cannot be
    made and ['numpy_loop_multi'] raises, whatever ['numpy_loop'] does;
    without trees it raises at the division. *)
Theorem numpy_loop_multi_agrees (n_jobs : Z) (n_estimators : nat)
    (forest_apply forest_apply_all : list (list Z)) :
  let n_samples := length forest_apply_all in
  let n_est := length forest_apply in
  ((1 ≤ n_jobs)%Z → 0 < n_estimators →
   option_Forall2 mat_eq
     (forest_weights numpy_loop n_estimators forest_apply forest_apply_all
        n_samples n_est)
     (forest_weights_numpy_loop_multi n_jobs n_estimators forest_apply
        forest_apply_all n_samples n_est))
  ∧ ((n_jobs < 1)%Z →
     forest_weights_numpy_loop_multi n_jobs n_estimators forest_apply
       forest_apply_all n_samples n_est = None)
  ∧ (n_estimators = 0 →
     forest_weights_numpy_loop_multi n_jobs n_estimators forest_apply
       forest_apply_all n_samples n_est = None).
Proof.
  intros n_samples n_est. split; [|split].
  2: { intros Hjobs. unfold forest_weights_numpy_loop_multi, Pool.
       by rewrite (proj2 (Z.ltb_lt n_jobs 1) Hjobs). }
  2: { intros ->. unfold forest_weights_numpy_loop_multi, Pool.
       by destruct (n_jobs <? 1)%Z. }
  intros Hjobs Hn.
  set (f := λ tree, honest_weight_numpy_out tree forest_apply
                      forest_apply_all n_samples n_est).
  assert (forest_out_numpy_loop n_estimators forest_apply forest_apply_all
            n_samples n_est
          = (trees_out ← mapM f (seq 0 n_estimators);
             Some (foldl Np.add (Np.zeros n_samples n_est) trees_out)))
    as Hloop by apply loop_as_map.
  unfold forest_weights, forest_weights_numpy_loop_multi, Pool.
  rewrite Hloop, (proj2 (Z.ltb_ge n_jobs 1) Hjobs).
  cbn [mbind option_bind].
  change (mapM _ (seq 0 n_estimators)) with (mapM f (seq 0 n_estimators)).
  destruct (mapM f (seq 0 n_estimators)) as [Ms|] eqn:HMs;
    cbn [mbind option_bind]; [|constructor].
  assert (Forall (has_shape n_samples n_est) Ms) as Hshape.
  { apply mapM_Some in HMs. apply Forall_forall. intros M HM.
    apply list_elem_of_lookup in HM as [t HM].
    destruct (Forall2_lookup_r _ _ _ _ _ HMs HM) as (tree & _ & Htree).
    by apply honest_weight_shape in Htree. }
  destruct Ms as [|M0 rest].
  { apply length_mapM in HMs. rewrite length_seq in HMs. simpl in HMs. lia. }
  cbn [py_sum]. constructor. apply div_scalar_mat_eq.
  apply Forall_cons in Hshape as [H0 Hrest].
  destruct (foldl_add_spec n_samples n_est (M0 :: rest) _
              (Forall_cons_2 _ _ _ H0 Hrest) (zeros_shape n_samples n_est))
    as [Hs1 He1].
  destruct (foldl_add_spec n_samples n_est rest _ Hrest
              (add_scalar_shape n_samples n_est 0 M0 H0)) as [Hs2 He2].
  apply (mat_eq_entries n_samples n_est); [done..|].
  intros i j Hi Hj. rewrite (He1 i j Hi Hj), (He2 i j Hi Hj).
  rewrite entry_zeros, (entry_add_scalar n_samples n_est) by done.
  csimpl. rewrite sum_cons. ring.
Qed.

Lemma numpy_loop_multi_agrees_witness :
  option_Forall2 mat_eq
    (forest_weights numpy_loop 2 Ex.forest_apply2 Ex.forest_apply_all2 3 3)
    (forest_weights_numpy_loop_multi 1 2 Ex.forest_apply2
       Ex.forest_apply_all2 3 3)
  ∧ forest_weights_numpy_loop_multi 0 2 Ex.forest_apply2
      Ex.forest_apply_all2 3 3 = None
  ∧ is_Some (forest_weights numpy_loop 2 Ex.forest_apply2
               Ex.forest_apply_all2 3 3).
Proof.
  destruct (numpy_loop_multi_agrees 1 2 Ex.forest_apply2
              Ex.forest_apply_all2) as [H _].
  destruct (numpy_loop_multi_agrees 0 2 Ex.forest_apply2
              Ex.forest_apply_all2) as (_ & H0 & _).
  split; [apply H; lia|]. split; [apply H0; lia|].
  by eexists.
Defined.

(** ** The confusion matrix *)

Lemma NoDup_range_length (l : list Z) (K : nat) :
  NoDup l → Forall (λ c, (1 ≤ c ≤ Z.of_nat K)%Z) l →
  length l ≤ K
  ∧ (length l = K ↔ ∀ c, (1 ≤ c ≤ Z.of_nat K)%Z → c ∈ l).
Proof.
  intros Hnd Hrange.
  set (f := λ c : Z, Z.to_nat (c - 1)).
  assert (NoDup (f <$> l)) as Hndf.
  { apply NoDup_fmap_2_strong; [|done]. intros a b Ha Hb Hab.
    rewrite Forall_forall in Hrange.
    pose proof (Hrange a Ha). pose proof (Hrange b Hb).
    unfold f in Hab. simpl in *. lia. }
  assert (Forall (λ x, x < K) (f <$> l)) as Hlt.
  { apply Forall_fmap. eapply Forall_impl; [exact Hrange|].
    intros c Hc. unfold f. simpl in *. lia. }
  assert (f <$> l ⊆+ seq 0 K) as Hsub.
  { apply NoDup_submseteq; [done|]. intros x Hx. apply elem_of_seq.
    rewrite Forall_forall in Hlt. pose proof (Hlt x Hx). simpl in *. lia. }
  pose proof (submseteq_length _ _ Hsub) as Hle.
  rewrite length_fmap, length_seq in Hle. split; [done|]. split.
  - intros Hlen c Hc.
    assert (f c ∈ f <$> l) as Hin.
    { apply (NoDup_below_all _ K); [done|by rewrite length_fmap|done|].
      unfold f. lia. }
    apply list_elem_of_fmap in Hin as (c' & Heq & Hc').
    rewrite Forall_forall in Hrange. pose proof (Hrange c' Hc').
    unfold f in Heq. simpl in *. replace c with c' by lia. done.
  - intros Hall.
    assert (seq 0 K ⊆+ f <$> l) as Hsup.
    { apply NoDup_submseteq; [apply NoDup_seq|]. intros x Hx.
      apply elem_of_seq in Hx. apply list_elem_of_fmap.
      exists (Z.of_nat x + 1)%Z. split; [unfold f; lia|].
      apply Hall. lia. }
    pose proof (submseteq_length _ _ Hsup) as Hge.
    rewrite length_fmap, length_seq in Hge. lia.
Qed.

(** X21. The confusion matrix of [__performance] needs every class to be
    predicted.  For outcomes with [K] distinct values and predictions of
    [K] columns, the product of the one-hot matrices has one row per
    outcome class and one column per distinct predicted class; the
    labelled frame with [K] row and [K] column labels is built when every
    class of 1..K is the predicted class of some observation, and
    [pd.DataFrame] raises its [ValueError] when some class is never
    predicted. *)
Theorem confusion_needs_every_class (y : list Z) (predictions : matrix)
    (y_values : list Z) (K : nat) :
  y ≠ [] → length predictions = length y → 0 < K →
  Forall (λ row, length row = K) predictions →
  length (Np.unique y) = K → length y_values = K →
  Forall (λ c, (1 ≤ c ≤ Z.of_nat K)%Z) (class_pred predictions)
  ∧ ((∀ c, (1 ≤ c ≤ Z.of_nat K)%Z → c ∈ class_pred predictions) →
     ∃ M, confusion y predictions y_values = Returned M ∧ has_shape K K M)
  ∧ ((∃ c, (1 ≤ c ≤ Z.of_nat K)%Z ∧ c ∉ class_pred predictions) →
     confusion y predictions y_values = Raised (ValueError shape_mismatch)).
Proof.
  intros Hy Hlen HK Hrows Huy Hlab.
  set (cp := class_pred predictions).
  assert (Forall (λ c, (1 ≤ c ≤ Z.of_nat K)%Z) cp) as Hrange.
  { unfold cp, class_pred. apply Forall_fmap.
    eapply Forall_impl; [exact Hrows|]. intros row Hrow. simpl in *.
    assert (row ≠ []) as Hne by (intros ->; simpl in Hrow; lia).
    destruct (argmax1_spec row Hne) as [Hr _]. lia. }
  split; [exact Hrange|].
  assert (cp ≠ []) as Hcp.
  { unfold cp, class_pred. destruct predictions; [|done].
    destruct y; [done|simpl in Hlen; lia]. }
  assert (length cp = length y) as Hlcp.
  { unfold cp, class_pred. by rewrite length_fmap. }
  set (u := Np.unique cp).
  assert (Forall (λ c, (1 ≤ c ≤ Z.of_nat K)%Z) u) as Hurange.
  { apply Forall_forall. intros c Hc. unfold u in Hc.
    rewrite unique_elem_of in Hc. rewrite Forall_forall in Hrange.
    by apply Hrange. }
  destruct (NoDup_range_length u K (unique_NoDup cp) Hurange) as [_ Hiff].
  (* the product and its shape *)
  assert (∃ M, Np.dot (Np.transpose (Sk.onehot_row (Np.unique y) <$> y))
                 (Sk.onehot_row u <$> cp) = Some M
            ∧ length M = K
            ∧ Forall (λ row, length row = length u) M) as (M & HM & HlM & HwM).
  { rewrite transpose_onehot by done. unfold Np.dot.
    assert (forallb (λ row, length row =? length (Sk.onehot_row u <$> cp))
              ((λ c, same_leaf c <$> y) <$> Np.unique y) = true) as ->.
    { apply forallb_forall. intros row Hrow. apply list_elem_of_In in Hrow.
      apply list_elem_of_fmap in Hrow as (c & -> & _).
      rewrite !length_fmap. apply Nat.eqb_eq. lia. }
    eexists. split; [reflexivity|]. split.
    - by rewrite !length_fmap.
    - apply Forall_fmap, Forall_forall. intros c _. simpl.
      rewrite length_fmap, length_seq.
      destruct cp as [|c0 cp']; [done|]. simpl.
      unfold Sk.onehot_row. by rewrite length_fmap. }
  assert (confusion y predictions y_values = pd_DataFrame M y_values y_values)
    as Hconf.
  { unfold confusion. fold cp. rewrite !onehot_Some by done. fold u.
    by rewrite HM. }
  split.
  - intros Hall. exists M. rewrite Hconf. unfold pd_DataFrame.
    assert (length u = K) as Hlu.
    { apply Hiff. intros c Hc. unfold u. rewrite unique_elem_of.
      by apply Hall. }
    rewrite HlM, Hlab, Nat.eqb_refl. simpl.
    assert (forallb (λ row, length row =? K) M = true) as ->.
    { apply forallb_forall. intros row Hrow. apply list_elem_of_In in Hrow.
      rewrite Forall_forall in HwM. rewrite (HwM row Hrow).
      by apply Nat.eqb_eq. }
    split; [done|]. split; [done|].
    eapply Forall_impl; [exact HwM|]. intros row Hrow. simpl in *. lia.
  - intros (c & Hc & Hnot). rewrite Hconf. unfold pd_DataFrame.
    assert (length u ≠ K) as Hlu.
    { intros Hlu. apply Hnot.
      pose proof (proj1 Hiff Hlu c Hc) as Hin. unfold u in Hin.
      by rewrite unique_elem_of in Hin. }
    rewrite HlM, Hlab, Nat.eqb_refl. simpl.
    assert (forallb (λ row, length row =? K) M = false) as ->; [|done].
    apply not_true_is_false. intros Hall. rewrite forallb_forall in Hall.
    destruct M as [|row M']; [simpl in HlM; lia|].
    apply Forall_cons in HwM as [Hrow _].
    specialize (Hall row ltac:(by left)). apply Nat.eqb_eq in Hall. lia.
Qed.

Lemma confusion_needs_every_class_witness :
  let y := [1; 2; 3]%Z in
  let predictions :=
    [[1 # 2; 1 # 4; 1 # 4]; [1 # 2; 1 # 4; 1 # 4]; [1 # 5; 2 # 5; 2 # 5]]%Q in
  class_pred predictions = [1; 1; 2]%Z
  ∧ confusion y predictions y = Raised (ValueError shape_mismatch).
Proof.
  intros y predictions. split; [reflexivity|].
  destruct (confusion_needs_every_class y predictions y 3
              ltac:(discriminate) eq_refl ltac:(lia)
              ltac:(repeat constructor) eq_refl eq_refl) as (_ & _ & H).
  apply H. exists 3%Z. split; [lia|].
  intros Hin.
  repeat (apply elem_of_cons in Hin as [Hin|Hin]; [discriminate|]).
  by apply elem_of_nil in Hin.
Defined.
